(** * Controledu realtime capture: scoring and frame-rate control

    A shallow embedding of the scoring and control core of
    [ml/generate_realtime_text_dataset.py]: [normalize_text],
    [score_text_hits], [smooth_scores], [fuse_scores], [decide_label] and
    the part of the capture loop in [main] that threads the smoothed score
    vector and the frame-rate state.

    Conventions of the embedding.
    - A Python [float] is a real number ([R]); rounding, infinities and NaN
      are outside the model, and [math.exp] is [exp].  Two places where
      binary64 arithmetic changes what the code returns are modelled
      apart: the text score of line 343, which reaches 1.0
      ([text_score_binary64]), and the [OverflowError] of [math.exp] and
      of [float(int)] ([py_exp], [float_of_int]).
    - A Python [str] is a [string], one character for each code point, so
      the texts of the model are the texts whose code points are all
      below 256.  On them [str.lower], [str.strip] and the pattern
      [_ALNUM_RE] are modelled in full ([to_lower], [is_space],
      [is_alnum]); texts with higher code points are outside the model.
    - A Python [dict] of floats is an association list in insertion order,
      read through [dict_get] and written through [dict_set].
    - The iteration order of a Python [set] depends on string hashes; the
      order of [set(a) | set(b)] is a parameter of the development.
    - A float division raises [ZeroDivisionError] on a zero divisor; it is
      [py_div], and the functions that divide return an [option]. *)

From Stdlib Require Import Reals Lra Lia List String Ascii ZArith Bool Sorted.
From Stdlib Require Import DecimalString Permutation.
Import ListNotations.

Open Scope R_scope.

(** ** Floats *)

Definition Rltb (x y : R) : bool := if Rlt_dec x y then true else false.
Definition Rleb (x y : R) : bool := if Rle_dec x y then true else false.

(** [max(a, b)] keeps [a] unless [b > a]; [min(a, b)] keeps [a] unless
    [b < a]. *)
Definition py_max (a b : R) : R := if Rltb a b then b else a.
Definition py_min (a b : R) : R := if Rltb b a then b else a.

(** [max(iterable)] on a non-empty iterable whose first item is [x]. *)
Definition py_max_list (x : R) (xs : list R) : R := fold_left py_max xs x.

(** [a / b]. *)
Definition py_div (a b : R) : option R :=
  if Req_dec_T b 0 then None else Some (a / b).

(** ** Binary64 *)

(** The finite binary64 numbers: [m * 2^e] with [|m| < 2^53] and
    [-1074 <= e <= 971]. *)
Definition is_binary64 (x : R) : Prop :=
  exists m e : Z,
    (Z.abs m < 2 ^ 53)%Z /\ (-1074 <= e <= 971)%Z /\ x = IZR m * powerRZ 2 e.

(** The largest of them. *)
Definition binary64_max : R := IZR (2 ^ 1024 - 2 ^ 971).

(** [f] is a binary64 number nearest to [x]: what an addition, a
    subtraction or a product whose exact result is [x] returns, short of
    an overflow.  (On a tie the operation returns one of the two
    nearest.) *)
Definition nearest_binary64 (x f : R) : Prop :=
  is_binary64 f /\ forall g, is_binary64 g -> Rabs (f - x) <= Rabs (g - x).

(** What [math.exp(x)] may return when it returns: a binary64 number
    that is not negative and at most twice [exp x].  The C library is far
    more accurate; no more is needed here. *)
Definition libm_exp (x e : R) : Prop :=
  is_binary64 e /\ 0 <= e <= 2 * exp x.

(** [math.exp(x)] with its [OverflowError], raised when the result is
    beyond the largest binary64 number, that is for [x] above
    709.78...; the value is the real one. *)
Definition py_exp (x : R) : option R :=
  if Rltb binary64_max (exp x) then None else Some (exp x).

(** ** Strings *)

Definition is_digit (c : ascii) : bool :=
  let n := nat_of_ascii c in (48 <=? n)%nat && (n <=? 57)%nat.
Definition is_upper (c : ascii) : bool :=
  let n := nat_of_ascii c in (65 <=? n)%nat && (n <=? 90)%nat.
Definition is_lower (c : ascii) : bool :=
  let n := nat_of_ascii c in (97 <=? n)%nat && (n <=? 122)%nat.

(** The characters [str.strip()] removes, those for which [str.isspace]
    holds: tab to carriage return, the four separators 28..31, the space,
    the next-line control 133 and the no-break space 160. *)
Definition is_space (c : ascii) : bool :=
  let n := nat_of_ascii c in
  ((9 <=? n)%nat && (n <=? 13)%nat) || ((28 <=? n)%nat && (n <=? 32)%nat)
  || (n =? 133)%nat || (n =? 160)%nat.

(** The capitals [str.lower()] folds: [A] to [Z], and the accented
    capitals 192..222 but for the multiplication sign 215.  Each goes to
    the code point 32 above it. *)
Definition is_capital (c : ascii) : bool :=
  let n := nat_of_ascii c in
  is_upper c || ((192 <=? n)%nat && (n <=? 222)%nat && negb (n =? 215)%nat).

Definition to_lower (c : ascii) : ascii :=
  if is_capital c then ascii_of_nat (nat_of_ascii c + 32) else c.

Fixpoint lower (s : string) : string :=
  match s with
  | EmptyString => EmptyString
  | String c s' => String (to_lower c) (lower s')
  end.

Fixpoint lstrip (s : string) : string :=
  match s with
  | EmptyString => EmptyString
  | String c s' => if is_space c then lstrip s' else s
  end.

Fixpoint rstrip (s : string) : string :=
  match s with
  | EmptyString => EmptyString
  | String c s' =>
      match rstrip s' with
      | EmptyString => if is_space c then EmptyString else String c EmptyString
      | r => String c r
      end
  end.

Definition strip (s : string) : string := rstrip (lstrip s).

(** [_ALNUM_RE = re.compile(r"[^0-9a-z]+", flags=re.IGNORECASE)]: a
    character outside the class is a digit or a letter [a] to [z] of
    either case.  (No code point from 128 to 255 is the other case of
    such a letter; above 255 there are four: U+0130, U+0131, U+017F and
    U+212A.) *)
Definition is_alnum (c : ascii) : bool := is_digit c || is_lower c || is_upper c.

(** [_ALNUM_RE.sub(" ", s)]: every maximal run of characters of the class
    becomes one space.  [in_run] says that the previous character was
    part of a run. *)
Fixpoint alnum_sub (in_run : bool) (s : string) : string :=
  match s with
  | EmptyString => EmptyString
  | String c s' =>
      if is_alnum c then String c (alnum_sub false s')
      else if in_run then alnum_sub true s'
      else String " " (alnum_sub true s')
  end.

Definition normalize_text (value : string) : string :=
  let lowered := strip (lower value) in
  strip (alnum_sub false lowered).

(** [needle in s]. *)
Fixpoint contains (s needle : string) : bool :=
  prefix needle s
  || match s with
     | EmptyString => false
     | String _ s' => contains s' needle
     end.

(** [not s]. *)
Definition is_empty (s : string) : bool :=
  match s with EmptyString => true | _ => false end.

(** ** Dictionaries of floats *)

Definition dict := list (string * R).

Fixpoint dict_lookup (d : dict) (k : string) : option R :=
  match d with
  | [] => None
  | (k', v) :: d' => if String.eqb k' k then Some v else dict_lookup d' k
  end.

(** [d.get(k, default)]. *)
Definition dict_get (d : dict) (k : string) (default : R) : R :=
  match dict_lookup d k with Some v => v | None => default end.

(** [d[k] = v]: an existing key keeps its place, a new key goes last. *)
Fixpoint dict_set (d : dict) (k : string) (v : R) : dict :=
  match d with
  | [] => [(k, v)]
  | (k', v') :: d' =>
      if String.eqb k' k then (k', v) :: d' else (k', v') :: dict_set d' k v
  end.

Definition dict_keys (d : dict) : list string := map fst d.
Definition dict_values (d : dict) : list R := map snd d.

(** [k in keys] for a list of labels. *)
Definition mem (k : string) (keys : list string) : bool :=
  existsb (String.eqb k) keys.

(** ** Labels and keywords *)

Definition AI_LABELS : list string :=
  [ "chatgpt_ui"; "claude_ui"; "gemini_ui"; "copilot_ui"; "perplexity_ui";
    "deepseek_ui"; "poe_ui"; "grok_ui"; "qwen_ui"; "mistral_ui";
    "meta_ai_ui"; "ai_ui" ]%string.

Definition NOT_AI_LABEL : string := "not_ai_ui".

Definition LABEL_KEYWORDS : list (string * list string) :=
  [ ("chatgpt_ui", ["chatgpt"; "openai"; "gpt-4"; "gpt4"; "chat.openai"]);
    ("claude_ui", ["claude"; "anthropic"; "claude.ai"]);
    ("gemini_ui", ["gemini"; "bard"; "deepmind"; "gemini.google"]);
    ("copilot_ui", ["copilot"; "microsoft copilot"; "bing chat"]);
    ("perplexity_ui", ["perplexity"; "perplexity.ai"]);
    ("deepseek_ui", ["deepseek"; "chat.deepseek"]);
    ("poe_ui", ["poe.com"; "poe by quora"; "poe"]);
    ("grok_ui", ["grok"; "xai"; "grok.com"]);
    ("qwen_ui", ["qwen"; "tongyi"; "chat.qwen.ai"]);
    ("mistral_ui", ["mistral"; "le chat"; "chat.mistral.ai"]);
    ("meta_ai_ui", ["meta ai"; "meta.ai"; "llama"]);
    ("ai_ui", ["assistant"; "chatbot"; "language model"; "llm"; "prompt"]) ]%string.

(** ** OCR hits *)

Record OcrHit := mkOcrHit {
  ocr_text : string;
  ocr_confidence : R;
  ocr_bbox : Z * Z * Z * Z
}.

Record MatchedHit := mkMatchedHit {
  mh_text : string;
  mh_confidence : R;
  mh_bbox : Z * Z * Z * Z;
  mh_label : string;
  mh_keyword : string;
  mh_score : R
}.

(** ** [score_text_hits] *)

(** [min(1.0, 0.35 + len(key_norm) / 16.0)]. *)
Definition keyword_weight (key_norm : string) : R :=
  py_min 1 (0.35 + INR (String.length key_norm) / 16).

(** The body of [for keyword in keywords], on the pair of the running
    [raw_scores] and [best_match]. *)
Definition match_keyword (hit : OcrHit) (normalized label : string)
    (st : dict * option MatchedHit) (keyword : string)
    : dict * option MatchedHit :=
  let key_norm := normalize_text keyword in
  if is_empty key_norm then st
  else if contains normalized key_norm then
    let weight := keyword_weight key_norm in
    let score := ocr_confidence hit * weight in
    let raw_scores := dict_set (fst st) label (dict_get (fst st) label 0 + score) in
    let entry :=
      mkMatchedHit (ocr_text hit) (ocr_confidence hit) (ocr_bbox hit)
                   label keyword score in
    let best_match :=
      match snd st with
      | None => Some entry
      | Some best => if Rltb (mh_score best) (mh_score entry)
                     then Some entry else Some best
      end in
    (raw_scores, best_match)
  else st.

(** The body of [for label, keywords in LABEL_KEYWORDS.items()]. *)
Definition match_label (hit : OcrHit) (normalized : string)
    (st : dict * option MatchedHit) (item : string * list string)
    : dict * option MatchedHit :=
  fold_left (match_keyword hit normalized (fst item)) (snd item) st.

(** The body of [for hit in hits], on the pair of [raw_scores] and
    [matched]. *)
Definition score_hit (st : dict * list MatchedHit) (hit : OcrHit)
    : dict * list MatchedHit :=
  let normalized := normalize_text (ocr_text hit) in
  if is_empty normalized then st
  else
    let r := fold_left (match_label hit normalized) LABEL_KEYWORDS (fst st, None) in
    (fst r, match snd r with
            | Some best => snd st ++ [best]
            | None => snd st
            end).

(** [{label: 0.0 for label in labels}]. *)
Definition zero_scores (labels : list string) : dict :=
  fold_left (fun d label => dict_set d label 0) labels [].

(** The saturating transform of one accumulated raw score,
    [1.0 - math.exp(-raw * max(0.05, keyword_gain))] with
    [raw = max(0.0, raw_scores.get(label, 0.0))], over the reals.  Over
    the reals the value is below 1 for every input; in binary64 it is
    1.0 as soon as the exponential is below [2^-54]: see
    [saturate_binary64]. *)
Definition saturate (raw keyword_gain : R) : R :=
  1 - exp (- (py_max 0 raw) * py_max 0.05 keyword_gain).

(** The same line in binary64, as a relation that holds of every value
    the code can store for the real raw score [raw] and the real gain
    [keyword_gain]: the argument [t] given to [math.exp] differs from
    its real value [x] by the rounding of the sums and products before
    it, taken here to be within a thousandth of [1 + |x|]; [e] is what
    [math.exp(t)] returns; the score is the binary64 number nearest to
    [1 - e]. *)
Definition saturate_binary64 (raw keyword_gain score : R) : Prop :=
  let x := - (py_max 0 raw) * py_max 0.05 keyword_gain in
  exists t e,
    Rabs (t - x) <= (1 + Rabs x) / 1000
    /\ libm_exp t e
    /\ nearest_binary64 (1 - e) score.

Definition score_text_hits (hits : list OcrHit) (keyword_gain : R)
    : dict * list MatchedHit :=
  let r := fold_left score_hit hits (zero_scores AI_LABELS, []) in
  let raw_scores := fst r in
  let matched := snd r in
  let text_scores :=
    fold_left
      (fun ts label => dict_set ts label (saturate (dict_get raw_scores label 0) keyword_gain))
      AI_LABELS [] in
  let max_ai :=
    match dict_values text_scores with
    | [] => 0
    | v :: vs => py_max_list v vs
    end in
  (dict_set text_scores NOT_AI_LABEL (py_max 0 (1 - max_ai)), matched).

(** ** [smooth_scores], [fuse_scores], [decide_label] *)

Section SetOrder.

(** [set_union a b] lists the items of [set(a) | set(b)] in the order the
    interpreter iterates over that set. *)
Variable set_union : list string -> list string -> list string.

Definition smooth_scores (previous current : dict) (decay : R) : dict :=
  let decay := py_min (py_max decay 0) 0.99 in
  let labels := set_union (dict_keys previous) (dict_keys current) in
  fold_left
    (fun result label =>
       let prev := dict_get previous label 0 in
       let cur := dict_get current label 0 in
       dict_set result label (prev * decay + cur * (1 - decay)))
    labels [].

(** The divisor and the two weights [fuse_scores] works with, after the
    clamps and the guard on [total <= 0]. *)
Definition fuse_weights (text_weight model_weight : R) : R * R * R :=
  let text_weight := py_max 0 text_weight in
  let model_weight := py_max 0 model_weight in
  let total := text_weight + model_weight in
  if Rleb total 0 then (1, 1, 0) else (total, text_weight, model_weight).

Definition fuse_scores (text_scores model_scores : dict)
    (text_weight model_weight : R) : option dict :=
  let '(total, text_weight, model_weight) :=
    fuse_weights text_weight model_weight in
  let labels := set_union (dict_keys text_scores) (dict_keys model_scores) in
  fold_left
    (fun fused label =>
       match fused with
       | None => None
       | Some f =>
           match py_div (dict_get text_scores label 0 * text_weight
                         + dict_get model_scores label 0 * model_weight)
                        total with
           | None => None
           | Some v => Some (dict_set f label v)
           end
       end)
    labels (Some []).

End SetOrder.

(** [max(first :: rest, key=key)]: the first item whose key is maximal. *)
Definition py_max_by (key : string -> R) (first : string) (rest : list string)
    : string :=
  fold_left (fun best x => if Rltb (key best) (key x) then x else best)
            rest first.

Definition decide_label (scores : dict) (label_threshold : R) : string * R :=
  let ai_candidates := filter (fun kv => mem (fst kv) AI_LABELS) scores in
  match dict_keys ai_candidates with
  | [] => (NOT_AI_LABEL, 1)
  | k :: ks =>
      let best_label := py_max_by (fun l => dict_get ai_candidates l 0) k ks in
      let best_score := dict_get ai_candidates best_label 0 in
      if Rleb label_threshold best_score then (best_label, best_score)
      else (NOT_AI_LABEL,
            dict_get scores NOT_AI_LABEL (py_max 0 (1 - best_score)))
  end.

(** ** The capture loop of [main] *)

(** The command-line arguments the scoring and control core reads. *)
Record Args := mkArgs {
  base_fps : R;
  high_fps : R;
  high_fps_trigger : R;
  high_fps_return_threshold : R;
  high_fps_hold_seconds : R;
  label_threshold : R;
  ocr_every_n_frames : Z;
  ocr_interval_seconds : R;
  keyword_gain : R;
  ema_decay : R;
  text_weight : R;
  model_weight : R
}.

(** The variables [main] carries from one iteration to the next. *)
Record LoopState := mkLoopState {
  smoothed_scores : dict;
  last_ocr_hits : list OcrHit;
  last_matched_hits : list MatchedHit;
  last_text_scores : dict;
  last_ocr_run_ts : R;
  frame_index : Z;
  high_mode_until : R;
  current_fps : R
}.

(** What one iteration takes from its environment: the two readings of
    [time.time()], the hits the OCR reader yields for the frame (after
    [parse_ocr_hits] and the rescaling of the boxes; used only when OCR
    runs on this frame) and the result of [model_scorer.predict], the
    empty dictionary when no model is configured. *)
Record FrameInput := mkFrameInput {
  in_now_loop : R;
  in_ocr_hits : list OcrHit;
  in_model_scores : dict;
  in_now : R
}.

(** What one iteration decides. *)
Record FrameResult := mkFrameResult {
  res_text_scores : dict;
  res_smoothed_scores : dict;
  res_ai_max : R;
  predicted_label : string;
  predicted_conf : R;
  res_fps : R
}.

(** The state before the first iteration. *)
Definition initial_state (args : Args) : LoopState :=
  {| smoothed_scores := [];
     last_ocr_hits := [];
     last_matched_hits := [];
     last_text_scores := zero_scores (AI_LABELS ++ [NOT_AI_LABEL]);
     last_ocr_run_ts := 0;
     frame_index := 0;
     high_mode_until := 0;
     current_fps := py_max 1 (base_fps args) |}.

(** [max((smoothed_scores.get(label, 0.0) for label in AI_LABELS),
    default=0.0)]. *)
Definition ai_peak (smoothed : dict) : R :=
  match map (fun label => dict_get smoothed label 0) AI_LABELS with
  | [] => 0
  | v :: vs => py_max_list v vs
  end.

(** The frame-rate control step on the pair of [high_mode_until] and
    [current_fps]. *)
Definition fps_control (args : Args) (ai_max now : R) (st : R * R) : R * R :=
  let high_mode_until :=
    if Rleb (high_fps_trigger args) ai_max
    then now + py_max 0 (high_fps_hold_seconds args)
    else fst st in
  let current_fps :=
    if Rltb now high_mode_until then py_max (base_fps args) (high_fps args)
    else if Rleb ai_max (high_fps_return_threshold args) then base_fps args
    else snd st in
  (high_mode_until, current_fps).

(** Whether OCR runs on this frame: the frame stride and the minimum
    interval both have to allow it, and the first frame always runs it. *)
Definition run_ocr_this_frame (args : Args) (st : LoopState) (inp : FrameInput)
    : bool :=
  let every := Z.max 1 (ocr_every_n_frames args) in
  let interval := py_max 0 (ocr_interval_seconds args) in
  let now_loop := in_now_loop inp in
  let by_frame :=
    (frame_index st =? 0)%Z || ((frame_index st mod every) =? 0)%Z in
  let by_time :=
    (frame_index st =? 0)%Z || Rleb interval 0
    || Rleb interval (now_loop - last_ocr_run_ts st) in
  by_frame && by_time.

(** The text vector of the frame: scored afresh when OCR runs, the last
    one otherwise. *)
Definition frame_text_scores (args : Args) (st : LoopState) (inp : FrameInput)
    : dict :=
  if run_ocr_this_frame args st inp
  then fst (score_text_hits (in_ocr_hits inp) (keyword_gain args))
  else last_text_scores st.

Section Loop.

Variable set_union : list string -> list string -> list string.

(** One pass through the body of [while True], for a frame the loop does
    process; saving the frame, the preview and the pacing sleep leave the
    state below untouched and are left out. *)
Definition iteration (args : Args) (st : LoopState) (inp : FrameInput)
    : option (LoopState * FrameResult) :=
  let run_ocr := run_ocr_this_frame args st inp in
  let scored := score_text_hits (in_ocr_hits inp) (keyword_gain args) in
  let ocr_hits := if run_ocr then in_ocr_hits inp else last_ocr_hits st in
  let matched_hits := if run_ocr then snd scored else last_matched_hits st in
  let text_scores := frame_text_scores args st inp in
  let ocr_ts := if run_ocr then in_now_loop inp else last_ocr_run_ts st in
  let model_scores := in_model_scores inp in
  match fuse_scores set_union text_scores model_scores
                    (text_weight args) (model_weight args) with
  | None => None
  | Some fused =>
      let smoothed :=
        smooth_scores set_union (smoothed_scores st) fused (ema_decay args) in
      let decided := decide_label smoothed (label_threshold args) in
      let ai_max := ai_peak smoothed in
      let fps := fps_control args ai_max (in_now inp)
                             (high_mode_until st, current_fps st) in
      Some ({| smoothed_scores := smoothed;
               last_ocr_hits := ocr_hits;
               last_matched_hits := matched_hits;
               last_text_scores := text_scores;
               last_ocr_run_ts := ocr_ts;
               frame_index := frame_index st + 1;
               high_mode_until := fst fps;
               current_fps := snd fps |},
            {| res_text_scores := text_scores;
               res_smoothed_scores := smoothed;
               res_ai_max := ai_max;
               predicted_label := fst decided;
               predicted_conf := snd decided;
               res_fps := snd fps |})
  end.

(** The loop over the frames it processes, in order: the final state and
    the results of the iterations. *)
Fixpoint run (args : Args) (st : LoopState) (frames : list FrameInput)
    : option (LoopState * list FrameResult) :=
  match frames with
  | [] => Some (st, [])
  | inp :: rest =>
      match iteration args st inp with
      | None => None
      | Some (st', r) =>
          match run args st' rest with
          | None => None
          | Some (st'', rs) => Some (st'', r :: rs)
          end
      end
  end.

End Loop.

(** One order for [set(a) | set(b)]: each item once, as [nodup] leaves
    them. *)
Definition list_union (a b : list string) : list string :=
  nodup string_dec (a ++ b).

(** What is asked of an iteration order for [set(a) | set(b)]: every item
    of either list, once. *)
Definition set_union_spec (set_union : list string -> list string -> list string)
    : Prop :=
  forall a b,
    NoDup (set_union a b)
    /\ forall x, In x (set_union a b) <-> In x a \/ In x b.

(** ** Reference functions for [score_text_hits]

    The raw score of a label written as a sum, to state what the loops of
    [score_text_hits] accumulate. *)

(** The weights of the keywords of [keywords] found in [normalized],
    added up. *)
Fixpoint keywords_weight (normalized : string) (keywords : list string) : R :=
  match keywords with
  | [] => 0
  | keyword :: rest =>
      let key_norm := normalize_text keyword in
      (if negb (is_empty key_norm) && contains normalized key_norm
       then keyword_weight key_norm else 0)
      + keywords_weight normalized rest
  end.

(** The same over the entries of a keyword table filed under [label]. *)
Fixpoint table_weight (normalized label : string)
    (table : list (string * list string)) : R :=
  match table with
  | [] => 0
  | (l, keywords) :: rest =>
      (if String.eqb l label then keywords_weight normalized keywords else 0)
      + table_weight normalized label rest
  end.

(** What one hit adds to the raw score of [label]. *)
Definition hit_raw (label : string) (hit : OcrHit) : R :=
  let normalized := normalize_text (ocr_text hit) in
  if is_empty normalized then 0
  else ocr_confidence hit * table_weight normalized label LABEL_KEYWORDS.

(** The raw score of [label] over a list of hits. *)
Fixpoint hits_raw (label : string) (hits : list OcrHit) : R :=
  match hits with
  | [] => 0
  | hit :: rest => hit_raw label hit + hits_raw label rest
  end.

(** The text score of an AI label in binary64; [hits_raw] is the raw
    score the loops of [score_text_hits] accumulate ([score_hits_raw]). *)
Definition text_score_binary64 (hits : list OcrHit) (keyword_gain : R)
    (label : string) (score : R) : Prop :=
  saturate_binary64 (hits_raw label hits) keyword_gain score.

(** The AI part of the vector [score_text_hits] returns: one item per AI
    label, in the order of [AI_LABELS]. *)
Definition ai_text_scores (hits : list OcrHit) (keyword_gain : R) : dict :=
  map (fun l => (l, saturate (hits_raw l hits) keyword_gain)) AI_LABELS.

(** [max(text_scores.values())] over that part. *)
Definition max_ai_score (hits : list OcrHit) (keyword_gain : R) : R :=
  match dict_values (ai_text_scores hits keyword_gain) with
  | [] => 0
  | v :: vs => py_max_list v vs
  end.

(** [hit] with its confidence replaced. *)
Definition with_confidence (hit : OcrHit) (c : R) : OcrHit :=
  mkOcrHit (ocr_text hit) c (ocr_bbox hit).

(** The lengths of the normalized keywords of [keywords] found in
    [normalized], and the same over the entries of a table filed under
    [label]: the part of [table_weight] that computes. *)
Fixpoint keywords_lengths (normalized : string) (keywords : list string)
    : list nat :=
  match keywords with
  | [] => []
  | keyword :: rest =>
      let key_norm := normalize_text keyword in
      (if negb (is_empty key_norm) && contains normalized key_norm
       then [String.length key_norm] else [])
      ++ keywords_lengths normalized rest
  end.

Fixpoint table_lengths (normalized label : string)
    (table : list (string * list string)) : list nat :=
  match table with
  | [] => []
  | (l, keywords) :: rest =>
      (if String.eqb l label then keywords_lengths normalized keywords else [])
      ++ table_lengths normalized label rest
  end.

(** The weights of keywords of the given lengths, added up. *)
Fixpoint lengths_weight (lengths : list nat) : R :=
  match lengths with
  | [] => 0
  | n :: rest => py_min 1 (0.35 + INR n / 16) + lengths_weight rest
  end.

(** The hit list of the scenario: one hit, "ChatGPT is great" read with
    confidence 0.9. *)
Definition scenario_hits (bbox : Z * Z * Z * Z) : list OcrHit :=
  [mkOcrHit "ChatGPT is great" 0.9 bbox].

(** ** Reference functions for [fuse_scores] and [smooth_scores] *)

(** The value [fuse_scores] gives a label. *)
Definition fuse_value (text_scores model_scores : dict)
    (text_weight model_weight : R) (label : string) : R :=
  let '(total, text_weight, model_weight) :=
    fuse_weights text_weight model_weight in
  (dict_get text_scores label 0 * text_weight
   + dict_get model_scores label 0 * model_weight) / total.

(** The decay [smooth_scores] works with. *)
Definition clamp_decay (decay : R) : R := py_min (py_max decay 0) 0.99.

(** The value [smooth_scores] gives a label. *)
Definition smooth_value (previous current : dict) (decay : R) (label : string)
    : R :=
  dict_get previous label 0 * clamp_decay decay
  + dict_get current label 0 * (1 - clamp_decay decay).

(** Every value of the vector lies in [0, 1]. *)
Definition unit_scores (d : dict) : Prop :=
  Forall (fun kv => 0 <= snd kv <= 1) d.

(** Two dictionaries hold the same keys and the same value at each. *)
Definition same_mapping (d e : dict) : Prop :=
  forall l, dict_lookup d l = dict_lookup e l.

(** The defaults of [parse_args]. *)
Definition default_args : Args :=
  {| base_fps := 4;
     high_fps := 8;
     high_fps_trigger := 0.20;
     high_fps_return_threshold := 0.12;
     high_fps_hold_seconds := 3;
     label_threshold := 0.20;
     ocr_every_n_frames := 1;
     ocr_interval_seconds := 5;
     keyword_gain := 0.70;
     ema_decay := 0.65;
     text_weight := 0.75;
     model_weight := 0.25 |}.

(** ** The idle run: no text on screen and no model *)

(** The text vector of an empty hit list. *)
Definition idle_text_scores : dict :=
  map (fun l => (l, 0)) AI_LABELS ++ [(NOT_AI_LABEL, 1)].

(** The share of the text weight in the fused value. *)
Definition text_share (text_weight model_weight : R) : R :=
  let '(total, text_weight, _) := fuse_weights text_weight model_weight in
  text_weight / total.

(** A frame with no OCR hit and no model, read at a time that is not
    negative. *)
Definition idle_frame (f : FrameInput) : Prop :=
  in_ocr_hits f = [] /\ in_model_scores f = [] /\ 0 <= in_now f.

(** The state of an idle run after [k] iterations. *)
Definition idle_state (args : Args) (k : nat) (st : LoopState) : Prop :=
  frame_index st = Z.of_nat k
  /\ (k <> 0%nat -> last_text_scores st = idle_text_scores)
  /\ (forall l, In l AI_LABELS -> dict_get (smoothed_scores st) l 0 = 0)
  /\ dict_get (smoothed_scores st) NOT_AI_LABEL 0
     = text_share (text_weight args) (model_weight args)
       * (1 - clamp_decay (ema_decay args) ^ k)
  /\ high_mode_until st = 0.

(** ** The hold scenario: a model alone drives the frame rate *)

(** The defaults, with the text weight at 0, the model weight at 1 and no
    smoothing: the smoothed vector is the model's. *)
Definition model_only_args : Args :=
  {| base_fps := 4;
     high_fps := 8;
     high_fps_trigger := 0.20;
     high_fps_return_threshold := 0.12;
     high_fps_hold_seconds := 3;
     label_threshold := 0.20;
     ocr_every_n_frames := 1;
     ocr_interval_seconds := 5;
     keyword_gain := 0.70;
     ema_decay := 0;
     text_weight := 0;
     model_weight := 1 |}.

(** Three frames with nothing to read: the model reports [ai_ui] at 0.9
    at time 0 and at 0 at times 2.9 and 3.1. *)
Definition hold_frames : list FrameInput :=
  [ mkFrameInput 0 [] [("ai_ui"%string, 0.9)] 0;
    mkFrameInput 2.9 [] [("ai_ui"%string, 0)] 2.9;
    mkFrameInput 3.1 [] [("ai_ui"%string, 0)] 3.1 ].

(** ** The shape of a normalized text *)

(** From the given position on, every character is a digit, a lowercase
    letter or a single space between two of them; [prev_space] says that
    the character before was a space (or that the text starts here). *)
Fixpoint spaced (prev_space : bool) (s : string) : bool :=
  match s with
  | EmptyString => true
  | String c s' =>
      if Ascii.eqb c " " then negb prev_space && spaced true s'
      else (is_digit c || is_lower c) && spaced false s'
  end.

Fixpoint ends_with_space (s : string) : bool :=
  match s with
  | EmptyString => false
  | String c EmptyString => Ascii.eqb c " "
  | String _ s' => ends_with_space s'
  end.

(** Words of digits and lowercase letters, one space between two words,
    no space at either end. *)
Definition is_normalized (s : string) : bool :=
  spaced true s && negb (ends_with_space s).

(** No character of the text is an uppercase letter. *)
Fixpoint no_upper (s : string) : bool :=
  match s with
  | EmptyString => true
  | String c s' => negb (is_upper c) && no_upper s'
  end.

(** ** Reference functions for the matched hits *)

(** The keyword, normalized, is not empty and occurs in the normalized
    text: the test under which [score_text_hits] counts a match. *)
Definition keyword_found (normalized keyword : string) : bool :=
  let key_norm := normalize_text keyword in
  negb (is_empty key_norm) && contains normalized key_norm.

(** The hit has a text left after normalization and one keyword at least
    occurs in it. *)
Definition mentions_keyword (hit : OcrHit) : bool :=
  let normalized := normalize_text (ocr_text hit) in
  negb (is_empty normalized)
  && existsb (fun item => existsb (keyword_found normalized) (snd item))
             LABEL_KEYWORDS.

(** The [MatchedHit] built for a match. *)
Definition match_entry (hit : OcrHit) (label keyword : string) : MatchedHit :=
  mkMatchedHit (ocr_text hit) (ocr_confidence hit) (ocr_bbox hit) label keyword
               (ocr_confidence hit * keyword_weight (normalize_text keyword)).

(** The update of [best_match] for one more entry. *)
Definition pick_best (best : option MatchedHit) (entry : MatchedHit)
    : option MatchedHit :=
  match best with
  | None => Some entry
  | Some b => if Rltb (mh_score b) (mh_score entry) then Some entry else Some b
  end.

(** The entries of one hit, in the order the loops meet them. *)
Definition hit_candidates (hit : OcrHit) (normalized : string)
    (table : list (string * list string)) : list MatchedHit :=
  flat_map (fun item => map (match_entry hit (fst item))
                            (filter (keyword_found normalized) (snd item)))
           table.

(** The best match of a hit, if it has one: the first of its entries
    with the highest score. *)
Definition best_match (hit : OcrHit) : option MatchedHit :=
  let normalized := normalize_text (ocr_text hit) in
  if is_empty normalized then None
  else fold_left pick_best (hit_candidates hit normalized LABEL_KEYWORDS) None.

(** [smooth_scores] applied [n] times to the same current vector, as the
    loop does while the fused vector stays the same. *)
Fixpoint smooth_repeat (set_union : list string -> list string -> list string)
    (n : nat) (previous current : dict) (decay : R) : dict :=
  match n with
  | O => previous
  | S n' =>
      smooth_scores set_union (smooth_repeat set_union n' previous current decay)
                    current decay
  end.

(** The pause at the end of an iteration:
    [max(0.0, (1.0 / max(1.0, current_fps)) - elapsed)]. *)
Definition sleep_time (current_fps elapsed : R) : option R :=
  match py_div 1 (py_max 1 current_fps) with
  | None => None
  | Some period => Some (py_max 0 (period - elapsed))
  end.

(** ** [parse_ocr_hits] *)

(** The confidence field of a raw item, by its Python type: a [float]
    (NaN is outside the model), an [int] (a [bool] is one), or anything
    else. *)
Inductive ConfRaw :=
| ConfFloat (value : R)
| ConfInt (value : Z)
| ConfOther.

(** An item of the raw OCR output, by what [parse_ocr_hits] asks of it.
    [RawMalformed] is an item that is no list or tuple, or has fewer than
    three fields.  Of a [RawDetection], [bbox_raw] is the list of the
    points [(int(point[0]), int(point[1]))], [None] when building it
    raises; [text_raw] is [str(text_raw)]; [conf_raw] is the third
    field. *)
Inductive RawItem :=
| RawMalformed
| RawDetection (bbox_raw : option (list (Z * Z))) (text_raw : string)
               (conf_raw : ConfRaw).

(** [float(n)] of an [int]: the [OverflowError] of an integer that rounds
    beyond the largest binary64 number, [2^1024 - 2^971], is [None]. *)
Definition float_of_int (n : Z) : option R :=
  if (Z.abs n <? 2 ^ 1024 - 2 ^ 970)%Z then Some (IZR n) else None.

(** [float(conf_raw) if isinstance(conf_raw, (float, int)) else 0.0]. *)
Definition confidence_of (conf_raw : ConfRaw) : option R :=
  match conf_raw with
  | ConfFloat value => Some value
  | ConfInt value => float_of_int value
  | ConfOther => Some 0
  end.

(** [min(xs)] and [max(xs)] of a list of integers; [None] is the
    [ValueError] on an empty list. *)
Definition z_min (xs : list Z) : option Z :=
  match xs with
  | [] => None
  | x :: rest => Some (fold_left Z.min rest x)
  end.

Definition z_max (xs : list Z) : option Z :=
  match xs with
  | [] => None
  | x :: rest => Some (fold_left Z.max rest x)
  end.

(** The body of [for item in raw], on the hits gathered so far; [None] is
    an exception that leaves the function.  The steps come in the order
    of the code: the blank text is skipped first, the confidence is
    converted next, outside the [try], and the points last. *)
Definition parse_item (hits : list OcrHit) (item : RawItem)
    : option (list OcrHit) :=
  match item with
  | RawMalformed => Some hits
  | RawDetection bbox_raw text_raw conf_raw =>
      let text := strip text_raw in
      if is_empty text then Some hits
      else
        match confidence_of conf_raw with
        | None => None
        | Some confidence =>
            let confidence := py_max 0 (py_min 1 confidence) in
            match bbox_raw with
            | None => Some hits
            | Some points =>
                let xs := map fst points in
                let ys := map snd points in
                match z_min xs, z_min ys, z_max xs, z_max ys with
                | Some x_min, Some y_min, Some x_max, Some y_max =>
                    Some (hits ++ [mkOcrHit text confidence
                                            (x_min, y_min, x_max, y_max)])
                | _, _, _, _ => None
                end
            end
        end
  end.

Definition parse_ocr_hits (raw : list RawItem) : option (list OcrHit) :=
  fold_left (fun acc item => match acc with
                             | None => None
                             | Some hits => parse_item hits item
                             end)
            raw (Some []).

(** A hit as [parse_ocr_hits] builds them: a text that is not empty and
    has no white space at its ends, a confidence in [0, 1], a box whose
    left and top are not beyond its right and bottom. *)
Definition well_formed_hit (hit : OcrHit) : Prop :=
  ocr_text hit <> EmptyString
  /\ strip (ocr_text hit) = ocr_text hit
  /\ 0 <= ocr_confidence hit <= 1
  /\ (let '(x_min, y_min, x_max, y_max) := ocr_bbox hit in
      (x_min <= x_max)%Z /\ (y_min <= y_max)%Z).

(** A detection on which [parse_ocr_hits] raises: its text is not blank,
    and its confidence is an integer too large for a float
    ([OverflowError]) or its polygon has no point ([ValueError] of
    [min]). *)
Definition item_raises (item : RawItem) : Prop :=
  exists bbox_raw text_raw conf_raw,
    item = RawDetection bbox_raw text_raw conf_raw
    /\ strip text_raw <> EmptyString
    /\ (confidence_of conf_raw = None \/ bbox_raw = Some []).

(** ** [normalize_label] *)

(** The [mapping] of [normalize_label]. *)
Definition LABEL_ALIASES : list (string * string) :=
  [ ("chatgpt", "chatgpt_ui");
    ("claude", "claude_ui");
    ("gemini", "gemini_ui");
    ("copilot", "copilot_ui");
    ("perplexity", "perplexity_ui");
    ("deepseek", "deepseek_ui");
    ("poe", "poe_ui");
    ("grok", "grok_ui");
    ("qwen", "qwen_ui");
    ("mistral", "mistral_ui");
    ("meta ai", "meta_ai_ui");
    ("not_ai", NOT_AI_LABEL);
    ("none", NOT_AI_LABEL);
    ("non_ai", NOT_AI_LABEL);
    ("not ai", NOT_AI_LABEL);
    ("ai", "ai_ui") ]%string.

(** [mapping.get(raw)]. *)
Fixpoint alias_lookup (mapping : list (string * string)) (raw : string)
    : option string :=
  match mapping with
  | [] => None
  | (k, v) :: rest => if String.eqb k raw then Some v else alias_lookup rest raw
  end.

Definition normalize_label (value : string) : string :=
  let raw := lower (strip value) in
  match alias_lookup LABEL_ALIASES raw with
  | Some canonical => canonical
  | None => raw
  end.

(** ** [OnnxModelScorer.predict], from the logits on *)

(** [f"class_{index}"]. *)
Definition class_label (index : nat) : string :=
  ("class_" ++ NilZero.string_of_uint (Nat.to_uint index))%string.

(** [self._labels[index] if index < len(self._labels) else
    f"class_{index}"]. *)
Definition label_at (labels : list string) (index : nat) : string :=
  match nth_error labels index with
  | Some label => label
  | None => class_label index
  end.

(** The loop over [enumerate(probs.tolist())], from [index] on: classes
    with the same canonical label keep the largest probability. *)
Fixpoint merge_scores (labels : list string) (index : nat) (probs : list R)
    (score_map : dict) : dict :=
  match probs with
  | [] => score_map
  | value :: rest =>
      let canonical := normalize_label (label_at labels index) in
      merge_scores labels (S index) rest
        (dict_set score_map canonical
                  (py_max (dict_get score_map canonical 0) value))
  end.

(** [np.sum]. *)
Definition r_sum (xs : list R) : R := fold_left Rplus xs 0.

(** The softmax of the logits [x :: rest]: shifted by their maximum,
    exponentiated, divided by the sum. *)
Definition softmax_probs (x : R) (rest : list R) : list R :=
  let peak := py_max_list x rest in
  let probs := map (fun logit => exp (logit - peak)) (x :: rest) in
  let total := r_sum probs in
  map (fun p => p / total) probs.

(** [predict] once the session has run: [logits] is the first output,
    its first row when it has two dimensions.  [None] is an exception:
    the [ValueError] of [np.max] on an empty array, or the
    [OverflowError] of [math.exp] on a single logit.  (The [numpy]
    operations of the softmax raise nothing, and their exponentials are
    at most 1.) *)
Definition predict_scores (labels : list string) (logits : list R)
    : option dict :=
  match logits with
  | [] => None
  | [x] =>
      match py_exp (- x) with
      | None => None
      | Some e =>
          match py_div 1 (1 + e) with
          | None => None
          | Some positive =>
              Some [(NOT_AI_LABEL, 1 - positive); ("ai_ui"%string, positive)]
          end
      end
  | x :: rest => Some (merge_scores labels 0 (softmax_probs x rest) [])
  end.

(** ** [append_labels_csv] *)

(** A row of the labels ledger, with its four columns. *)
Record LabelRow := mkLabelRow {
  image_path : string;
  row_label : string;
  row_source : string;
  row_notes : string
}.

Definition same_path (r r' : LabelRow) : bool :=
  String.eqb (image_path r) (image_path r').

(** [frame.drop_duplicates(subset=["image_path"], keep="last")]: a row
    stays when no later row has its path. *)
Fixpoint drop_duplicates_last (frame : list LabelRow) : list LabelRow :=
  match frame with
  | [] => []
  | r :: rest =>
      if existsb (same_path r) rest then drop_duplicates_last rest
      else r :: drop_duplicates_last rest
  end.

(** [frame.sort_values("image_path")], by insertion.  It is applied to
    rows whose paths are all different, so that every sort gives the same
    list (see [sorted_ledger_unique]). *)
Fixpoint insert_row (r : LabelRow) (sorted : list LabelRow) : list LabelRow :=
  match sorted with
  | [] => [r]
  | r' :: rest =>
      if String.leb (image_path r) (image_path r') then r :: sorted
      else r' :: insert_row r rest
  end.

Definition sort_values (frame : list LabelRow) : list LabelRow :=
  fold_right insert_row [] frame.

(** [existing] is the ledger read from the file, [None] when there is no
    file; the result is the ledger written, [None] when the function
    returns without writing. *)
Definition append_labels_csv (existing : option (list LabelRow))
    (rows : list LabelRow) : option (list LabelRow) :=
  match rows with
  | [] => None
  | _ :: _ =>
      let frame := match existing with Some f => f | None => [] end in
      Some (sort_values (drop_duplicates_last (frame ++ rows)))
  end.

(** The order of the ledger. *)
Definition path_le (r r' : LabelRow) : Prop :=
  String.leb (image_path r) (image_path r') = true.

(** [r] is the last row of [frame] with its path. *)
Definition last_with_path (r : LabelRow) (frame : list LabelRow) : Prop :=
  exists before after,
    frame = before ++ r :: after
    /\ forall r', In r' after -> image_path r' <> image_path r.

(** * Properties *)

(** ** Comparisons, [max] and [min] *)

Lemma Rltb_true (x y : R) : Rltb x y = true <-> x < y.
Proof. unfold Rltb; destruct (Rlt_dec x y); split; intros; try easy; lra. Qed.

Lemma Rltb_false (x y : R) : Rltb x y = false <-> y <= x.
Proof. unfold Rltb; destruct (Rlt_dec x y); split; intros; try easy; lra. Qed.

Lemma Rleb_true (x y : R) : Rleb x y = true <-> x <= y.
Proof. unfold Rleb; destruct (Rle_dec x y); split; intros; try easy; lra. Qed.

Lemma Rleb_false (x y : R) : Rleb x y = false <-> y < x.
Proof. unfold Rleb; destruct (Rle_dec x y); split; intros; try easy; lra. Qed.

Lemma py_max_Rmax (a b : R) : py_max a b = Rmax a b.
Proof.
  unfold py_max, Rmax.
  destruct (Rltb a b) eqn:E; destruct (Rle_dec a b); auto.
  - apply Rltb_true in E; lra.
  - apply Rltb_false in E; lra.
Qed.

Lemma py_min_Rmin (a b : R) : py_min a b = Rmin a b.
Proof.
  unfold py_min, Rmin.
  destruct (Rltb b a) eqn:E; destruct (Rle_dec a b); auto.
  - apply Rltb_true in E; lra.
  - apply Rltb_false in E; lra.
Qed.

Lemma py_max_cases (a b : R) :
  (a < b /\ py_max a b = b) \/ (b <= a /\ py_max a b = a).
Proof.
  unfold py_max; destruct (Rltb a b) eqn:E.
  - left; split; [now apply Rltb_true | reflexivity].
  - right; split; [now apply Rltb_false | reflexivity].
Qed.

Lemma py_min_cases (a b : R) :
  (b < a /\ py_min a b = b) \/ (a <= b /\ py_min a b = a).
Proof.
  unfold py_min; destruct (Rltb b a) eqn:E.
  - left; split; [now apply Rltb_true | reflexivity].
  - right; split; [now apply Rltb_false | reflexivity].
Qed.

(** Splits on every [py_max] and [py_min] of the goal and hands the
    cases to [lra]. *)
Ltac py_order :=
  repeat match goal with
         | |- context [py_max ?a ?b] =>
             let H := fresh in
             destruct (py_max_cases a b) as [[? H] | [? H]]; rewrite H in *
         | |- context [py_min ?a ?b] =>
             let H := fresh in
             destruct (py_min_cases a b) as [[? H] | [? H]]; rewrite H in *
         end;
  try lra.

Lemma py_max_list_lower (xs : list R) (x : R) : x <= py_max_list x xs.
Proof.
  unfold py_max_list; revert x; induction xs as [|y ys IH]; intros x; simpl.
  - lra.
  - specialize (IH (py_max x y)). revert IH. py_order.
Qed.

Lemma py_max_list_bound (xs : list R) (x y : R) :
  y <= x \/ In y xs -> y <= py_max_list x xs.
Proof.
  unfold py_max_list; revert x; induction xs as [|z zs IH]; intros x H; simpl.
  - destruct H as [H | []]; lra.
  - apply IH. destruct H as [H | [H | H]]; [left | left | now right].
    + py_order.
    + subst z. py_order.
Qed.

Lemma py_max_list_upper (xs : list R) (x y : R) :
  In y (x :: xs) -> y <= py_max_list x xs.
Proof.
  intros [E | H]; apply py_max_list_bound; [left; lra | now right].
Qed.

Lemma py_max_list_In (xs : list R) (x : R) : In (py_max_list x xs) (x :: xs).
Proof.
  unfold py_max_list; revert x; induction xs as [|z zs IH]; intros x; simpl.
  - now left.
  - destruct (IH (py_max x z)) as [E | H]; [| now right; right].
    rewrite <- E. unfold py_max; destruct (Rltb x z); [right | ]; now left.
Qed.

(** ** Dictionaries *)

Lemma dict_lookup_set_same (d : dict) (k : string) (v : R) :
  dict_lookup (dict_set d k v) k = Some v.
Proof.
  induction d as [|[k' v'] d IH]; simpl.
  - now rewrite String.eqb_refl.
  - destruct (String.eqb k' k) eqn:E; simpl; rewrite E; auto.
Qed.

Lemma dict_lookup_set_other (d : dict) (k k' : string) (v : R) :
  k <> k' -> dict_lookup (dict_set d k v) k' = dict_lookup d k'.
Proof.
  intros N; induction d as [|[k0 v0] d IH]; simpl.
  - apply String.eqb_neq in N. now rewrite N.
  - destruct (String.eqb k0 k) eqn:E; simpl; [| now rewrite IH].
    apply String.eqb_eq in E; subst k0.
    apply String.eqb_neq in N. now rewrite N.
Qed.

Lemma dict_get_set_same (d : dict) (k : string) (v x : R) :
  dict_get (dict_set d k v) k x = v.
Proof. unfold dict_get. now rewrite dict_lookup_set_same. Qed.

Lemma dict_get_set_other (d : dict) (k k' : string) (v x : R) :
  k <> k' -> dict_get (dict_set d k v) k' x = dict_get d k' x.
Proof. intros N. unfold dict_get. now rewrite dict_lookup_set_other. Qed.

Lemma dict_lookup_None (d : dict) (k : string) :
  dict_lookup d k = None <-> ~ In k (dict_keys d).
Proof.
  induction d as [|[k' v] d IH]; simpl; [tauto |].
  destruct (String.eqb k' k) eqn:E.
  - apply String.eqb_eq in E. split; [discriminate | intros H; elim H; now left].
  - apply String.eqb_neq in E. rewrite IH. tauto.
Qed.

Lemma dict_lookup_Some_In (d : dict) (k : string) (v : R) :
  dict_lookup d k = Some v -> In k (dict_keys d).
Proof.
  intros H. destruct (in_dec string_dec k (dict_keys d)) as [I | N]; auto.
  apply dict_lookup_None in N. congruence.
Qed.

Lemma dict_set_fresh (d : dict) (k : string) (v : R) :
  ~ In k (dict_keys d) -> dict_set d k v = d ++ [(k, v)].
Proof.
  induction d as [|[k' v'] d IH]; simpl; intros N; auto.
  destruct (String.eqb k' k) eqn:E.
  - apply String.eqb_eq in E. elim N; now left.
  - f_equal. apply IH. tauto.
Qed.

Lemma dict_keys_app (d e : dict) : dict_keys (d ++ e) = dict_keys d ++ dict_keys e.
Proof. apply map_app. Qed.

(** Filling a dictionary from a list of distinct new keys appends one
    item per key, in order. *)
Lemma fold_dict_set_fresh (f : string -> R) (labels : list string) (d : dict) :
  NoDup labels ->
  (forall l, In l labels -> ~ In l (dict_keys d)) ->
  fold_left (fun acc l => dict_set acc l (f l)) labels d
  = d ++ map (fun l => (l, f l)) labels.
Proof.
  revert d; induction labels as [|l ls IH]; intros d ND F; simpl.
  - now rewrite app_nil_r.
  - inversion ND as [|? ? Hl ND']; subst.
    rewrite dict_set_fresh by (apply F; now left).
    rewrite IH; auto.
    + now rewrite <- app_assoc.
    + intros l' I. rewrite dict_keys_app, in_app_iff. simpl.
      intros [H | [H | []]]; [apply (F l'); auto; now right | subst; auto].
Qed.

Lemma dict_keys_tabulate (f : string -> R) (labels : list string) :
  dict_keys (map (fun l => (l, f l)) labels) = labels.
Proof. unfold dict_keys. rewrite map_map. simpl. apply map_id. Qed.

Lemma dict_lookup_tabulate (f : string -> R) (labels : list string) (l : string) :
  In l labels -> dict_lookup (map (fun l => (l, f l)) labels) l = Some (f l).
Proof.
  induction labels as [|k ks IH]; simpl; [tauto |].
  destruct (String.eqb k l) eqn:E.
  - apply String.eqb_eq in E; now subst.
  - apply String.eqb_neq in E. intros [H | H]; [congruence | auto].
Qed.

Lemma dict_lookup_app (d e : dict) (k : string) :
  dict_lookup (d ++ e) k
  = match dict_lookup d k with Some v => Some v | None => dict_lookup e k end.
Proof.
  induction d as [|[k' v] d IH]; simpl; auto.
  destruct (String.eqb k' k); auto.
Qed.

Lemma mem_In (k : string) (keys : list string) : mem k keys = true <-> In k keys.
Proof.
  unfold mem. rewrite existsb_exists. split.
  - intros [x [I E]]. apply String.eqb_eq in E. now subst.
  - intros I. exists k. split; auto. apply String.eqb_refl.
Qed.

Lemma NoDup_AI_LABELS : NoDup AI_LABELS.
Proof.
  apply (NoDup_nodup string_dec AI_LABELS).
Qed.

(** ** What [score_text_hits] accumulates *)

Lemma match_keyword_raw (hit : OcrHit) (normalized label keyword l : string)
    (st : dict * option MatchedHit) :
  dict_get (fst (match_keyword hit normalized label st keyword)) l 0
  = dict_get (fst st) l 0
    + (if String.eqb label l
       then ocr_confidence hit * keywords_weight normalized [keyword]
       else 0).
Proof.
  unfold match_keyword; simpl keywords_weight.
  destruct (is_empty (normalize_text keyword)); simpl negb; simpl andb.
  - destruct (String.eqb label l); lra.
  - destruct (contains normalized (normalize_text keyword)); simpl fst.
    + destruct (String.eqb label l) eqn:E.
      * apply String.eqb_eq in E; subst l. rewrite dict_get_set_same. lra.
      * apply String.eqb_neq in E. rewrite dict_get_set_other by assumption. lra.
    + destruct (String.eqb label l); lra.
Qed.

Lemma match_label_raw (hit : OcrHit) (normalized l : string)
    (item : string * list string) (st : dict * option MatchedHit) :
  dict_get (fst (match_label hit normalized st item)) l 0
  = dict_get (fst st) l 0
    + (if String.eqb (fst item) l
       then ocr_confidence hit * keywords_weight normalized (snd item)
       else 0).
Proof.
  unfold match_label. destruct item as [label keywords]; simpl fst; simpl snd.
  revert st; induction keywords as [|k ks IH]; intros st.
  - simpl. destruct (String.eqb label l); lra.
  - simpl fold_left. rewrite IH, match_keyword_raw.
    simpl keywords_weight. destruct (String.eqb label l); lra.
Qed.

Lemma match_table_raw (hit : OcrHit) (normalized l : string)
    (table : list (string * list string)) (st : dict * option MatchedHit) :
  dict_get (fst (fold_left (match_label hit normalized) table st)) l 0
  = dict_get (fst st) l 0
    + ocr_confidence hit * table_weight normalized l table.
Proof.
  revert st; induction table as [|[label keywords] table IH]; intros st.
  - simpl. lra.
  - simpl fold_left. rewrite IH, match_label_raw. simpl.
    destruct (String.eqb label l); lra.
Qed.

Lemma score_hit_raw (hit : OcrHit) (l : string) (st : dict * list MatchedHit) :
  dict_get (fst (score_hit st hit)) l 0 = dict_get (fst st) l 0 + hit_raw l hit.
Proof.
  unfold score_hit, hit_raw.
  destruct (is_empty (normalize_text (ocr_text hit))); [lra |].
  cbn [fst]. now rewrite match_table_raw.
Qed.

Lemma score_hits_raw (hits : list OcrHit) (l : string) (st : dict * list MatchedHit) :
  dict_get (fst (fold_left score_hit hits st)) l 0
  = dict_get (fst st) l 0 + hits_raw l hits.
Proof.
  revert st; induction hits as [|hit hits IH]; intros st; simpl.
  - lra.
  - rewrite IH, score_hit_raw. lra.
Qed.

Lemma zero_scores_tabulate (labels : list string) :
  NoDup labels -> zero_scores labels = map (fun l => (l, 0)) labels.
Proof.
  intros ND. unfold zero_scores.
  now rewrite (fold_dict_set_fresh (fun _ => 0) labels []).
Qed.

Lemma dict_get_zero_scores (l : string) : dict_get (zero_scores AI_LABELS) l 0 = 0.
Proof.
  rewrite zero_scores_tabulate by apply NoDup_AI_LABELS.
  unfold dict_get.
  destruct (in_dec string_dec l AI_LABELS) as [I | N].
  - now rewrite (dict_lookup_tabulate (fun _ => 0)).
  - destruct (dict_lookup _ l) eqn:E; auto.
    apply dict_lookup_Some_In in E. rewrite dict_keys_tabulate in E. tauto.
Qed.

Lemma NOT_AI_LABEL_not_AI : ~ In NOT_AI_LABEL AI_LABELS.
Proof.
  intros H. apply mem_In in H. discriminate H.
Qed.

Lemma score_text_hits_eq (hits : list OcrHit) (keyword_gain : R) :
  fst (score_text_hits hits keyword_gain)
  = ai_text_scores hits keyword_gain
    ++ [(NOT_AI_LABEL, py_max 0 (1 - max_ai_score hits keyword_gain))].
Proof.
  unfold score_text_hits. cbn [fst].
  rewrite (fold_dict_set_fresh
             (fun l => saturate (dict_get (fst (fold_left score_hit hits
                                     (zero_scores AI_LABELS, []))) l 0) keyword_gain)
             AI_LABELS [] NoDup_AI_LABELS) by (intros l _ []).
  rewrite app_nil_l.
  assert (E : map (fun l => (l, saturate (dict_get (fst (fold_left score_hit hits
                                 (zero_scores AI_LABELS, []))) l 0) keyword_gain))
                  AI_LABELS
              = ai_text_scores hits keyword_gain).
  { unfold ai_text_scores. apply map_ext. intros l.
    rewrite score_hits_raw. cbn [fst]. rewrite dict_get_zero_scores.
    now rewrite Rplus_0_l. }
  rewrite E. unfold max_ai_score.
  apply dict_set_fresh.
  unfold ai_text_scores. rewrite dict_keys_tabulate. apply NOT_AI_LABEL_not_AI.
Qed.

Lemma text_score_ai (hits : list OcrHit) (keyword_gain : R) (l : string) :
  In l AI_LABELS ->
  dict_get (fst (score_text_hits hits keyword_gain)) l 0
  = saturate (hits_raw l hits) keyword_gain.
Proof.
  intros I. rewrite score_text_hits_eq. unfold dict_get.
  rewrite dict_lookup_app. unfold ai_text_scores.
  now rewrite (dict_lookup_tabulate (fun l => saturate (hits_raw l hits) keyword_gain)).
Qed.

Lemma text_score_not_ai (hits : list OcrHit) (keyword_gain : R) :
  dict_lookup (fst (score_text_hits hits keyword_gain)) NOT_AI_LABEL
  = Some (py_max 0 (1 - max_ai_score hits keyword_gain)).
Proof.
  rewrite score_text_hits_eq, dict_lookup_app.
  destruct (dict_lookup (ai_text_scores hits keyword_gain) NOT_AI_LABEL) eqn:E.
  - apply dict_lookup_Some_In in E. unfold ai_text_scores in E.
    rewrite dict_keys_tabulate in E. now apply NOT_AI_LABEL_not_AI in E.
  - reflexivity.
Qed.

Lemma text_scores_keys (hits : list OcrHit) (keyword_gain : R) :
  dict_keys (fst (score_text_hits hits keyword_gain)) = AI_LABELS ++ [NOT_AI_LABEL].
Proof.
  rewrite score_text_hits_eq, dict_keys_app. unfold ai_text_scores.
  now rewrite dict_keys_tabulate.
Qed.

Lemma ai_values (hits : list OcrHit) (keyword_gain : R) :
  map (fun l => dict_get (fst (score_text_hits hits keyword_gain)) l 0) AI_LABELS
  = dict_values (ai_text_scores hits keyword_gain).
Proof.
  unfold dict_values, ai_text_scores. rewrite map_map. cbn [snd].
  apply map_ext_in. intros l I. now apply text_score_ai.
Qed.

Lemma saturate_0 (keyword_gain : R) : saturate 0 keyword_gain = 0.
Proof.
  unfold saturate.
  replace (py_max 0 0) with 0 by (unfold py_max; now destruct (Rltb 0 0)).
  rewrite Ropp_0, Rmult_0_l, exp_0. lra.
Qed.

Lemma hits_raw_nil (l : string) : hits_raw l [] = 0.
Proof. reflexivity. Qed.

Lemma py_max_list_const (c : R) (xs : list R) :
  (forall x, In x xs -> x = c) -> py_max_list c xs = c.
Proof.
  intros H. destruct (py_max_list_In xs c) as [E | I]; auto.
Qed.

Lemma max_ai_score_empty (keyword_gain : R) : max_ai_score [] keyword_gain = 0.
Proof.
  unfold max_ai_score.
  destruct (dict_values (ai_text_scores [] keyword_gain)) as [|v vs] eqn:E; auto.
  assert (Z : forall x, In x (v :: vs) -> x = 0).
  { intros x I. rewrite <- E in I. unfold dict_values, ai_text_scores in I.
    rewrite map_map in I. apply in_map_iff in I. destruct I as [l [<- _]].
    cbn [snd]. now rewrite hits_raw_nil, saturate_0. }
  rewrite (Z v) by now left.
  apply py_max_list_const. intros x I. apply Z. now right.
Qed.

Lemma text_scores_empty (keyword_gain : R) :
  fst (score_text_hits [] keyword_gain)
  = map (fun l => (l, 0)) AI_LABELS ++ [(NOT_AI_LABEL, 1)].
Proof.
  rewrite score_text_hits_eq, max_ai_score_empty.
  replace (py_max 0 (1 - 0)) with 1 by py_order.
  f_equal. unfold ai_text_scores. apply map_ext. intros l.
  now rewrite hits_raw_nil, saturate_0.
Qed.

Lemma text_scores_closed_invariant (hits : list OcrHit) (keyword_gain : R) :
  let text_scores := fst (score_text_hits hits keyword_gain) in
  dict_keys text_scores = AI_LABELS ++ [NOT_AI_LABEL]
  /\ (exists m,
        In m (map (fun l => dict_get text_scores l 0) AI_LABELS)
        /\ (forall l, In l AI_LABELS -> dict_get text_scores l 0 <= m)
        /\ dict_lookup text_scores NOT_AI_LABEL = Some (Rmax 0 (1 - m))).
Proof.
  intros text_scores. split; [apply text_scores_keys |].
  exists (max_ai_score hits keyword_gain). subst text_scores.
  rewrite ai_values. unfold max_ai_score.
  destruct (dict_values (ai_text_scores hits keyword_gain)) as [|v vs] eqn:E.
  - discriminate E.
  - split; [apply py_max_list_In | split].
    + intros l I. apply py_max_list_upper. rewrite <- E, <- ai_values.
      apply (in_map (fun l => dict_get (fst (score_text_hits hits keyword_gain)) l 0)).
      exact I.
    + rewrite text_score_not_ai. unfold max_ai_score. rewrite E.
      now rewrite py_max_Rmax.
Qed.

(** C5.  The vector [score_text_hits] returns has the keys [AI_LABELS]
    followed by [not_ai_ui] and nothing else; its [not_ai_ui] entry is
    [max(0, 1 - m)] where [m] is the largest of its AI-label scores; and
    on the empty hit list every AI-label score is 0 and [not_ai_ui] is 1. *)
Theorem text_scores_closed_label_set (hits : list OcrHit) (keyword_gain : R) :
  let text_scores := fst (score_text_hits hits keyword_gain) in
  dict_keys text_scores = AI_LABELS ++ [NOT_AI_LABEL]
  /\ (exists m,
        In m (map (fun l => dict_get text_scores l 0) AI_LABELS)
        /\ (forall l, In l AI_LABELS -> dict_get text_scores l 0 <= m)
        /\ dict_lookup text_scores NOT_AI_LABEL = Some (Rmax 0 (1 - m)))
  /\ fst (score_text_hits [] keyword_gain)
     = map (fun l => (l, 0)) AI_LABELS ++ [(NOT_AI_LABEL, 1)].
Proof.
  intros text_scores.
  destruct (text_scores_closed_invariant hits keyword_gain) as [K M].
  split; [exact K | split; [exact M | apply text_scores_empty]].
Qed.

(** ** Monotonicity and range of the text scores *)

Lemma keyword_weight_nonneg (key_norm : string) : 0 <= keyword_weight key_norm.
Proof.
  unfold keyword_weight.
  pose proof (pos_INR (String.length key_norm)).
  assert (0 <= INR (String.length key_norm) / 16) by lra.
  py_order.
Qed.

Lemma keywords_weight_nonneg (normalized : string) (keywords : list string) :
  0 <= keywords_weight normalized keywords.
Proof.
  induction keywords as [|k ks IH]; simpl; [lra |].
  pose proof (keyword_weight_nonneg (normalize_text k)).
  destruct (negb _ && _); lra.
Qed.

Lemma table_weight_nonneg (normalized label : string)
    (table : list (string * list string)) :
  0 <= table_weight normalized label table.
Proof.
  induction table as [|[l ks] table IH]; simpl; [lra |].
  pose proof (keywords_weight_nonneg normalized ks).
  destruct (String.eqb l label); lra.
Qed.

Lemma hits_raw_app (l : string) (xs ys : list OcrHit) :
  hits_raw l (xs ++ ys) = hits_raw l xs + hits_raw l ys.
Proof.
  induction xs as [|x xs IH]; simpl; [lra | rewrite IH; lra].
Qed.

Lemma hit_raw_monotone (l : string) (hit : OcrHit) (c : R) :
  ocr_confidence hit <= c -> hit_raw l hit <= hit_raw l (with_confidence hit c).
Proof.
  intros H. unfold hit_raw, with_confidence; cbn [ocr_text ocr_confidence].
  destruct (is_empty (normalize_text (ocr_text hit))); [lra |].
  apply Rmult_le_compat_r; [apply table_weight_nonneg | exact H].
Qed.

Lemma hit_raw_nonneg (l : string) (hit : OcrHit) :
  0 <= ocr_confidence hit -> 0 <= hit_raw l hit.
Proof.
  intros H. unfold hit_raw.
  destruct (is_empty (normalize_text (ocr_text hit))); [lra |].
  apply Rmult_le_pos; [exact H | apply table_weight_nonneg].
Qed.

Lemma exp_le (x y : R) : x <= y -> exp x <= exp y.
Proof.
  intros [H | ->]; [left; now apply exp_increasing | lra].
Qed.

Lemma saturate_monotone (r r' keyword_gain : R) :
  r <= r' -> saturate r keyword_gain <= saturate r' keyword_gain.
Proof.
  intros H. unfold saturate.
  assert (G : 0 < py_max 0.05 keyword_gain) by py_order.
  assert (M : py_max 0 r <= py_max 0 r') by py_order.
  assert (exp (- py_max 0 r' * py_max 0.05 keyword_gain)
          <= exp (- py_max 0 r * py_max 0.05 keyword_gain)); [| lra].
  apply exp_le. nra.
Qed.

Lemma saturate_range (r keyword_gain : R) :
  0 <= saturate r keyword_gain < 1.
Proof.
  unfold saturate.
  assert (G : 0 < py_max 0.05 keyword_gain) by py_order.
  assert (M : 0 <= py_max 0 r) by py_order.
  pose proof (exp_pos (- py_max 0 r * py_max 0.05 keyword_gain)).
  assert (exp (- py_max 0 r * py_max 0.05 keyword_gain) <= exp 0)
    by (apply exp_le; nra).
  rewrite exp_0 in *. lra.
Qed.

(** C6, as the code has it.  For every AI label the text score does not
    decrease when the confidence of one hit of the list is raised, nor
    when a hit of non-negative confidence is appended to the list, and it
    always lies in [0, 1].  The bound 1 is closed: over the reals the
    score stays below 1, but in binary64 it is 1.0 as soon as the
    exponential is below [2^-54] ([saturate_binary64]). *)
Theorem text_score_monotone_and_bounded
    (pre post hits : list OcrHit) (hit extra : OcrHit) (c keyword_gain : R)
    (label : string) :
  In label AI_LABELS ->
  ocr_confidence hit <= c ->
  0 <= ocr_confidence extra ->
  let score := fun hs => dict_get (fst (score_text_hits hs keyword_gain)) label 0 in
  score (pre ++ hit :: post) <= score (pre ++ with_confidence hit c :: post)
  /\ score hits <= score (hits ++ [extra])
  /\ 0 <= score hits <= 1.
Proof.
  intros I Hc He score. subst score. cbv beta.
  rewrite !text_score_ai by exact I.
  split; [| split].
  - apply saturate_monotone. rewrite !hits_raw_app. cbn [hits_raw].
    pose proof (hit_raw_monotone label hit c Hc). lra.
  - apply saturate_monotone. rewrite hits_raw_app. cbn [hits_raw].
    pose proof (hit_raw_nonneg label extra He). lra.
  - pose proof (saturate_range (hits_raw label hits) keyword_gain). lra.
Qed.

(** ** The scenario of one hit reading "ChatGPT is great" *)

Lemma lengths_weight_app (xs ys : list nat) :
  lengths_weight (xs ++ ys) = lengths_weight xs + lengths_weight ys.
Proof.
  induction xs as [|x xs IH]; simpl; [lra | rewrite IH; lra].
Qed.

Lemma keywords_weight_lengths (normalized : string) (keywords : list string) :
  keywords_weight normalized keywords
  = lengths_weight (keywords_lengths normalized keywords).
Proof.
  induction keywords as [|k ks IH]; [reflexivity |].
  cbn [keywords_weight keywords_lengths]. rewrite lengths_weight_app, IH.
  destruct (negb _ && _); cbn [lengths_weight]; unfold keyword_weight; lra.
Qed.

Lemma table_weight_lengths (normalized label : string)
    (table : list (string * list string)) :
  table_weight normalized label table
  = lengths_weight (table_lengths normalized label table).
Proof.
  induction table as [|[l ks] table IH]; [reflexivity |].
  cbn [table_weight table_lengths]. rewrite lengths_weight_app, IH.
  destruct (String.eqb l label); cbn [lengths_weight];
    rewrite ?keywords_weight_lengths; lra.
Qed.

Lemma exp_pow_nat (a : R) (n : nat) : exp (INR n * a) = exp a ^ n.
Proof.
  induction n as [|n IH].
  - simpl. rewrite Rmult_0_l. apply exp_0.
  - rewrite S_INR, Rmult_plus_distr_r, Rmult_1_l, exp_plus, IH. simpl. ring.
Qed.

(** [(1 + a/n)^n <= exp a]: the bound [1 + x <= exp x] on the [n]-th
    part of [a]. *)
Lemma exp_ge_pow (a : R) (n : nat) :
  (0 < n)%nat -> 0 <= 1 + a / INR n -> (1 + a / INR n) ^ n <= exp a.
Proof.
  intros Hn H0.
  assert (P : 0 < INR n) by (apply lt_0_INR; exact Hn).
  replace (exp a) with (exp (a / INR n) ^ n).
  - apply pow_incr. split; [exact H0 | apply exp_ineq1_le].
  - rewrite <- exp_pow_nat. f_equal. field. lra.
Qed.

Lemma INR_128 : INR 128 = 128.
Proof. rewrite INR_IZR_INZ. reflexivity. Qed.

(** The exponential of the scenario, between 0.608 and 0.610. *)
Lemma exp_scenario_bounds : 0.608 < exp (- (0.9 * 0.7875) * 0.7) < 0.610.
Proof.
  split.
  - pose proof (exp_ge_pow (- (0.9 * 0.7875) * 0.7) 128) as L.
    rewrite INR_128 in L.
    assert (0.608 < (1 + - (0.9 * 0.7875) * 0.7 / 128) ^ 128) by lra.
    assert ((1 + - (0.9 * 0.7875) * 0.7 / 128) ^ 128
            <= exp (- (0.9 * 0.7875) * 0.7)) by (apply L; [lia | lra]).
    lra.
  - pose proof (exp_ge_pow ((0.9 * 0.7875) * 0.7) 128) as U.
    rewrite INR_128 in U.
    assert (B : 1 / 0.610 < (1 + (0.9 * 0.7875) * 0.7 / 128) ^ 128) by lra.
    assert (G : (1 + (0.9 * 0.7875) * 0.7 / 128) ^ 128
            <= exp ((0.9 * 0.7875) * 0.7)) by (apply U; [lia | lra]).
    replace (- (0.9 * 0.7875) * 0.7) with (- ((0.9 * 0.7875) * 0.7)) by lra.
    rewrite exp_Ropp.
    assert (P : 1 / 0.610 < exp ((0.9 * 0.7875) * 0.7)) by lra.
    assert (Q : 0 < 1 / 0.610) by lra.
    pose proof (Rinv_lt_contravar _ _ (Rmult_lt_0_compat _ _ Q (Rlt_trans _ _ _ Q P)) P) as I.
    replace (/ (1 / 0.610)) with 0.610 in I by lra. exact I.
Qed.

(** Evaluates the string part of a raw score: the normalized text and the
    lengths of the keywords found in it. *)
Ltac eval_lengths :=
  repeat match goal with
         | |- context [normalize_text ?t] =>
             let v := eval vm_compute in (normalize_text t) in
             change (normalize_text t) with v
         | |- context [table_lengths ?n ?l ?t] =>
             let v := eval vm_compute in (table_lengths n l t) in
             change (table_lengths n l t) with v
         end.

Lemma scenario_raw (bbox : Z * Z * Z * Z) (l : string) :
  In l AI_LABELS ->
  hits_raw l (scenario_hits bbox)
  = if String.eqb l "chatgpt_ui" then 0.9 * 0.7875 else 0.
Proof.
  intros I. unfold scenario_hits, hits_raw, hit_raw.
  cbn [ocr_text ocr_confidence]. rewrite table_weight_lengths.
  unfold AI_LABELS in I. cbn [In] in I.
  repeat (destruct I as [<- | I]); try contradiction;
    eval_lengths; cbn [is_empty lengths_weight String.eqb Ascii.eqb Bool.eqb];
    try lra.
  replace (INR 7) with 7 by (simpl; lra). py_order.
Qed.

Lemma scenario_saturate :
  saturate (0.9 * 0.7875) 0.7 = 1 - exp (- (0.9 * 0.7875) * 0.7).
Proof.
  unfold saturate.
  replace (py_max 0 (0.9 * 0.7875)) with (0.9 * 0.7875) by py_order.
  replace (py_max 0.05 0.7) with 0.7 by py_order.
  reflexivity.
Qed.

Lemma scenario_scores (bbox : Z * Z * Z * Z) :
  let text_scores := fst (score_text_hits (scenario_hits bbox) 0.7) in
  dict_get text_scores "chatgpt_ui" 0 = 1 - exp (- (0.9 * 0.7875) * 0.7)
  /\ dict_get text_scores NOT_AI_LABEL 0 = exp (- (0.9 * 0.7875) * 0.7).
Proof.
  intros text_scores.
  assert (C : dict_get text_scores "chatgpt_ui" 0
              = 1 - exp (- (0.9 * 0.7875) * 0.7)).
  { subst text_scores. rewrite text_score_ai by (apply mem_In; reflexivity).
    rewrite scenario_raw by (apply mem_In; reflexivity).
    rewrite String.eqb_refl. apply scenario_saturate. }
  split; [exact C |].
  destruct (text_scores_closed_invariant (scenario_hits bbox) 0.7)
    as [_ [m [Hin [Hub Hnot]]]].
  fold text_scores in Hin, Hub, Hnot.
  unfold dict_get at 1. rewrite Hnot.
  pose proof exp_scenario_bounds as B.
  assert (Hm : m = 1 - exp (- (0.9 * 0.7875) * 0.7)).
  { apply in_map_iff in Hin. destruct Hin as [l [El Il]].
    pose proof (Hub "chatgpt_ui"%string ltac:(apply mem_In; reflexivity)) as U.
    rewrite C in U.
    subst text_scores. rewrite text_score_ai in El by exact Il.
    rewrite scenario_raw in El by exact Il.
    destruct (String.eqb l "chatgpt_ui").
    - rewrite scenario_saturate in El. now symmetry.
    - rewrite saturate_0 in El. lra. }
  rewrite Hm. rewrite <- py_max_Rmax. py_order.
Qed.

(** C2, as the code has it.  For the hit list of the scenario and a gain
    of 0.7 the keyword "chatgpt" weighs 0.35 + 7/16 = 0.7875, the raw
    score of [chatgpt_ui] is 0.9 * 0.7875, its text score is
    [1 - exp (-(0.9 * 0.7875) * 0.7)], within 0.001 of 0.391, and the
    score of [not_ai_ui] is within 0.001 of 0.609. *)
Theorem scenario1_text_scores (bbox : Z * Z * Z * Z) :
  let text_scores := fst (score_text_hits (scenario_hits bbox) 0.7) in
  keyword_weight "chatgpt" = 0.7875
  /\ hits_raw "chatgpt_ui" (scenario_hits bbox) = 0.9 * 0.7875
  /\ dict_get text_scores "chatgpt_ui" 0 = 1 - exp (- (0.9 * 0.7875) * 0.7)
  /\ Rabs (dict_get text_scores "chatgpt_ui" 0 - 0.391) < 0.001
  /\ Rabs (dict_get text_scores NOT_AI_LABEL 0 - 0.609) < 0.001.
Proof.
  intros text_scores.
  destruct (scenario_scores bbox) as [C N]. fold text_scores in C, N.
  pose proof exp_scenario_bounds as B.
  split; [| split; [| split; [exact C | split]]].
  - unfold keyword_weight. cbn [String.length].
    replace (INR 7) with 7 by (simpl; lra). py_order.
  - now rewrite scenario_raw by (apply mem_In; reflexivity).
  - rewrite C. apply Rabs_def1; lra.
  - rewrite N. apply Rabs_def1; lra.
Qed.

(** C2, as the claim words it, fails: the text score of [chatgpt_ui] is
    above 0.39, not near 0.353, and the score of [not_ai_ui] is below
    0.61, not near 0.647. *)
Lemma scenario1_scores_not_as_claimed :
  let text_scores :=
    fst (score_text_hits (scenario_hits (0, 0, 100, 20)%Z) 0.7) in
  0.353 + 0.037 < dict_get text_scores "chatgpt_ui" 0
  /\ dict_get text_scores NOT_AI_LABEL 0 < 0.647 - 0.037.
Proof.
  intros text_scores.
  destruct (scenario_scores (0, 0, 100, 20)%Z) as [C N]. fold text_scores in C, N.
  pose proof exp_scenario_bounds as B.
  rewrite C, N. lra.
Qed.

Lemma text_score_monotone_and_bounded_witness :
  let hit := mkOcrHit "ChatGPT" 0.5 (0, 0, 10, 10)%Z in
  let extra := mkOcrHit "ask chatgpt" 0.3 (0, 20, 10, 30)%Z in
  let score := fun hs => dict_get (fst (score_text_hits hs 0.7)) "chatgpt_ui" 0 in
  score ([] ++ hit :: []) <= score ([] ++ with_confidence hit 0.9 :: [])
  /\ score [hit] <= score ([hit] ++ [extra])
  /\ 0 <= score [hit] <= 1.
Proof.
  intros hit extra.
  apply (text_score_monotone_and_bounded [] [] [hit] hit extra 0.9 0.7 "chatgpt_ui").
  - apply mem_In. reflexivity.
  - cbn [hit ocr_confidence]. lra.
  - cbn [extra ocr_confidence]. lra.
Defined.

(** ** The text score in binary64 *)

Lemma Rabs_le_both (x a : R) : Rabs x <= a -> - a <= x <= a.
Proof. unfold Rabs. destruct (Rcase_abs x); lra. Qed.

Lemma is_binary64_IZR (n : Z) : (Z.abs n < 2 ^ 53)%Z -> is_binary64 (IZR n).
Proof.
  intros H. exists n, 0%Z. split; [exact H | split; [lia |]].
  cbn [powerRZ]. lra.
Qed.

Lemma powerRZ_2_nonneg (k : Z) : (0 <= k)%Z -> powerRZ 2 k = IZR (2 ^ k).
Proof.
  intros H. rewrite <- (Z2Nat.id k H) at 1. rewrite <- pow_powerRZ.
  rewrite pow_IZR. now rewrite Z2Nat.id.
Qed.

Lemma powerRZ_2_nonpos (k : Z) : (k <= 0)%Z -> 0 < powerRZ 2 k <= 1.
Proof.
  intros H. split; [apply powerRZ_lt; lra |].
  rewrite <- (Z.opp_involutive k), powerRZ_neg', powerRZ_2_nonneg by lia.
  assert (1 <= IZR (2 ^ (- k))).
  { apply IZR_le. pose proof (Z.pow_pos_nonneg 2 (- k)). lia. }
  rewrite <- Rinv_1. apply Rinv_le_contravar; lra.
Qed.

(** No binary64 number lies strictly between [1 - 2^-53] and 1. *)
Lemma binary64_below_one (f : R) :
  is_binary64 f -> 1 - / 2 ^ 53 < f -> f <= 1 -> f = 1.
Proof.
  intros [m [e [Hm [He ->]]]] L U.
  assert (P53 : (2:R) ^ 53 = IZR (2 ^ 53)) by (rewrite pow_IZR; reflexivity).
  assert (Pos : 0 < (2:R) ^ 53) by (apply pow_lt; lra).
  destruct (Z_le_gt_dec (-53) e) as [G | S].
  - assert (E : IZR m * powerRZ 2 e * 2 ^ 53 = IZR (m * 2 ^ (e + 53))).
    { rewrite mult_IZR, <- powerRZ_2_nonneg by lia.
      rewrite powerRZ_add by lra. rewrite (pow_powerRZ 2 53).
      change (Z.of_nat 53) with 53%Z. ring. }
    assert (L' : IZR (2 ^ 53 - 1) < IZR (m * 2 ^ (e + 53))).
    { rewrite <- E, minus_IZR, <- P53.
      apply Rmult_lt_reg_r with (/ 2 ^ 53); [now apply Rinv_0_lt_compat |].
      rewrite Rmult_assoc, Rinv_r by lra. lra. }
    assert (U' : IZR (m * 2 ^ (e + 53)) <= IZR (2 ^ 53)).
    { rewrite <- E, <- P53.
      apply Rmult_le_reg_r with (/ 2 ^ 53); [now apply Rinv_0_lt_compat |].
      rewrite Rmult_assoc, !Rinv_r by lra. lra. }
    apply lt_IZR in L'. apply le_IZR in U'.
    assert (Q : (m * 2 ^ (e + 53) = 2 ^ 53)%Z) by lia.
    apply (f_equal IZR) in Q. rewrite <- E, <- P53 in Q.
    apply Rmult_eq_reg_r with (2 ^ 53); lra.
  - exfalso.
    assert (B : IZR m * powerRZ 2 e <= / 2).
    { assert (M : IZR m <= 2 ^ 53) by (rewrite P53; apply IZR_le; lia).
      assert (Pe : 0 < powerRZ 2 e) by (apply powerRZ_lt; lra).
      assert (Le : powerRZ 2 e <= / 2 ^ 54).
      { replace e with (-54 + (e + 54))%Z by lia.
        rewrite powerRZ_add by lra.
        change (powerRZ 2 (-54)) with (/ 2 ^ 54).
        pose proof (powerRZ_2_nonpos (e + 54) ltac:(lia)).
        assert (0 < / 2 ^ 54) by (apply Rinv_0_lt_compat, pow_lt; lra).
        nra. }
      assert (H : IZR m * powerRZ 2 e <= 2 ^ 53 * / 2 ^ 54).
      { apply Rle_trans with (2 ^ 53 * powerRZ 2 e).
        - apply Rmult_le_compat_r; lra.
        - apply Rmult_le_compat_l; lra. }
      replace (2 ^ 53 * / 2 ^ 54) with (/ 2) in H; [exact H |].
      replace ((2:R) ^ 54) with (2 * 2 ^ 53) by (simpl; ring).
      field. }
    assert (/ 2 ^ 53 <= / 2).
    { apply Rinv_le_contravar; [lra |].
      replace 2 with (2 ^ 1) at 1 by (simpl; lra). apply Rle_pow; [lra | lia]. }
    lra.
Qed.

(** Subtracting less than [2^-54] from 1.0 gives 1.0. *)
Lemma nearest_binary64_one (e score : R) :
  0 <= e -> e < / 2 ^ 54 -> nearest_binary64 (1 - e) score -> score = 1.
Proof.
  intros E0 E1 [B N].
  assert (B1 : is_binary64 1) by (apply (is_binary64_IZR 1); lia).
  specialize (N 1 B1).
  replace (1 - (1 - e)) with e in N by lra.
  rewrite (Rabs_pos_eq e) in N by exact E0.
  apply Rabs_le_both in N.
  assert (H : / 2 ^ 53 = 2 * / 2 ^ 54).
  { replace ((2:R) ^ 54) with (2 * 2 ^ 53) by (simpl; ring). field. }
  apply binary64_below_one; [exact B | lra | lra].
Qed.

Lemma exp_44 : 2 ^ 56 < exp 44.
Proof.
  replace 44 with (INR 176 * (1 / 4)).
  - rewrite exp_pow_nat.
    assert (H : 1 + 1 / 4 <= exp (1 / 4)) by apply exp_ineq1_le.
    assert (P : (1 + 1 / 4) ^ 176 <= exp (1 / 4) ^ 176) by (apply pow_incr; lra).
    assert ((2:R) ^ 56 < (1 + 1 / 4) ^ 176) by lra.
    lra.
  - rewrite INR_IZR_INZ. change (IZR (Z.of_nat 176)) with 176. lra.
Qed.

(** Once the raw score times the gain is 45 or more, every value the
    binary64 line can store is 1.0, and 1.0 is one of them. *)
Lemma saturate_binary64_one (raw keyword_gain : R) :
  45 <= py_max 0 raw * py_max 0.05 keyword_gain ->
  saturate_binary64 raw keyword_gain 1
  /\ forall score, saturate_binary64 raw keyword_gain score -> score = 1.
Proof.
  intros H. unfold saturate_binary64. cbv zeta.
  set (x := - py_max 0 raw * py_max 0.05 keyword_gain).
  assert (X : x <= -45) by (unfold x; lra).
  assert (B0 : is_binary64 0) by (apply (is_binary64_IZR 0); lia).
  assert (B1 : is_binary64 1) by (apply (is_binary64_IZR 1); lia).
  split.
  - exists x, 0. split; [| split].
    + replace (x - x) with 0 by lra. rewrite Rabs_R0.
      pose proof (Rabs_pos x). lra.
    + split; [exact B0 |]. pose proof (exp_pos x). lra.
    + split; [exact B1 |]. intros g _.
      replace (1 - (1 - 0)) with 0 by lra. rewrite Rabs_R0. apply Rabs_pos.
  - intros score [t [e [Ht [[_ [E0 E1]] N]]]].
    rewrite (Rabs_left x) in Ht by lra.
    apply Rabs_le_both in Ht.
    apply (nearest_binary64_one e); [exact E0 | | exact N].
    assert (T : exp t <= exp (Ropp 44)) by (apply exp_le; lra).
    rewrite exp_Ropp in T. pose proof exp_44 as B.
    assert (/ exp 44 < / 2 ^ 56).
    { apply Rinv_lt_contravar; [| exact B].
      apply Rmult_lt_0_compat; [apply pow_lt; lra | apply exp_pos]. }
    assert (/ 2 ^ 54 = 4 * / 2 ^ 56).
    { replace ((2:R) ^ 56) with (4 * 2 ^ 54) by (simpl; ring). field. }
    lra.
Qed.

Lemma hits_raw_repeat (l : string) (hit : OcrHit) (n : nat) :
  hits_raw l (repeat hit n) = INR n * hit_raw l hit.
Proof.
  induction n as [|n IH]; [cbn; lra |].
  cbn [repeat hits_raw]. rewrite IH, S_INR. lra.
Qed.

(** C6, as the claim words it, fails on the open bound.  A hundred hits
    reading "ChatGPT is great" with confidence 0.9 give [chatgpt_ui] the
    raw score 70.875; at the default gain 0.7 the exponential of -49.6 is
    below [2^-54], and the score the code stores is 1.0, not a number
    below 1. *)
Lemma text_score_reaches_one :
  let hits := repeat (mkOcrHit "ChatGPT is great" 0.9 (0, 0, 100, 20)%Z) 100 in
  hits_raw "chatgpt_ui" hits = 70.875
  /\ text_score_binary64 hits 0.7 "chatgpt_ui" 1
  /\ (forall score, text_score_binary64 hits 0.7 "chatgpt_ui" score -> score = 1)
  /\ ~ (forall score, text_score_binary64 hits 0.7 "chatgpt_ui" score ->
                      0 <= score < 1).
Proof.
  intros hits.
  assert (Raw : hits_raw "chatgpt_ui" hits = 70.875).
  { unfold hits. rewrite hits_raw_repeat.
    pose proof (scenario_raw (0, 0, 100, 20)%Z "chatgpt_ui"
                  ltac:(apply mem_In; reflexivity)) as S1.
    unfold scenario_hits in S1. cbn [hits_raw] in S1.
    rewrite String.eqb_refl in S1.
    rewrite INR_IZR_INZ. change (IZR (Z.of_nat 100)) with 100. lra. }
  assert (Big : 45 <= py_max 0 (hits_raw "chatgpt_ui" hits) * py_max 0.05 0.7).
  { rewrite Raw.
    replace (py_max 0 70.875) with 70.875 by py_order.
    replace (py_max 0.05 0.7) with 0.7 by py_order. lra. }
  destruct (saturate_binary64_one _ _ Big) as [One All].
  split; [exact Raw | split; [exact One | split; [exact All |]]].
  intros H. specialize (H 1 One). lra.
Qed.

(** ** [decide_label] *)

Lemma dict_lookup_filter (p : string -> bool) (d : dict) (k : string) :
  dict_lookup (filter (fun kv => p (fst kv)) d) k
  = if p k then dict_lookup d k else None.
Proof.
  induction d as [|[k' v] d IH]; simpl.
  - now destruct (p k).
  - destruct (p k') eqn:P; simpl; destruct (String.eqb k' k) eqn:E; auto.
    + apply String.eqb_eq in E; subst. now rewrite P.
    + apply String.eqb_eq in E; subst. rewrite IH. now rewrite P.
Qed.

Lemma dict_keys_filter (p : string -> bool) (d : dict) :
  dict_keys (filter (fun kv => p (fst kv)) d) = filter p (dict_keys d).
Proof.
  induction d as [|[k v] d IH]; simpl; auto.
  destruct (p k); simpl; now rewrite IH.
Qed.

Lemma py_max_by_In (key : string -> R) (rest : list string) (first : string) :
  In (py_max_by key first rest) (first :: rest).
Proof.
  unfold py_max_by; revert first; induction rest as [|x xs IH]; intros first.
  - now left.
  - simpl fold_left.
    destruct (IH (if Rltb (key first) (key x) then x else first)) as [E | I].
    + rewrite <- E. destruct (Rltb (key first) (key x)); [right | ]; now left.
    + now right; right.
Qed.

Lemma py_max_by_bound (key : string -> R) (rest : list string) (first y : string) :
  key y <= key first \/ In y rest -> key y <= key (py_max_by key first rest).
Proof.
  unfold py_max_by; revert first; induction rest as [|x xs IH]; intros first H.
  - destruct H as [H | []]. exact H.
  - simpl fold_left. apply IH.
    destruct H as [H | [H | H]]; [left | left | now right].
    + destruct (Rltb (key first) (key x)) eqn:E; [apply Rltb_true in E; lra | exact H].
    + subst y. destruct (Rltb (key first) (key x)) eqn:E;
        [lra | apply Rltb_false in E; exact E].
Qed.

Lemma py_max_by_upper (key : string -> R) (rest : list string) (first y : string) :
  In y (first :: rest) -> key y <= key (py_max_by key first rest).
Proof.
  intros [E | I]; apply py_max_by_bound; [left; subst; lra | now right].
Qed.

Lemma decide_label_cases (scores : dict) (label_threshold : R) :
  ((forall l, In l (dict_keys scores) -> ~ In l AI_LABELS)
   /\ decide_label scores label_threshold = (NOT_AI_LABEL, 1))
  \/ (exists best best_score,
        In best (dict_keys scores) /\ In best AI_LABELS
        /\ dict_lookup scores best = Some best_score
        /\ (forall l, In l (dict_keys scores) -> In l AI_LABELS ->
                      dict_get scores l 0 <= best_score)
        /\ ((label_threshold <= best_score
             /\ decide_label scores label_threshold = (best, best_score))
            \/ (best_score < label_threshold
                /\ decide_label scores label_threshold
                   = (NOT_AI_LABEL,
                      match dict_lookup scores NOT_AI_LABEL with
                      | Some v => v
                      | None => Rmax 0 (1 - best_score)
                      end)))).
Proof.
  unfold decide_label.
  set (cand := filter (fun kv => mem (fst kv) AI_LABELS) scores).
  assert (K : dict_keys cand = filter (fun k => mem k AI_LABELS) (dict_keys scores))
    by apply (dict_keys_filter (fun k => mem k AI_LABELS)).
  assert (G : forall l, In l AI_LABELS -> dict_lookup cand l = dict_lookup scores l).
  { intros l I. unfold cand.
    rewrite (dict_lookup_filter (fun k => mem k AI_LABELS)).
    apply mem_In in I. now rewrite I. }
  destruct (dict_keys cand) as [|k ks] eqn:E.
  - left. split; [| reflexivity]. intros l I A.
    assert (F : In l (filter (fun k => mem k AI_LABELS) (dict_keys scores))).
    { apply filter_In. split; [exact I | now apply mem_In]. }
    rewrite <- K in F. destruct F.
  - right.
    set (key := fun l => dict_get cand l 0).
    set (best := py_max_by key k ks).
    assert (Bin : In best (k :: ks)) by apply py_max_by_In.
    rewrite K in Bin. apply filter_In in Bin. destruct Bin as [Bk Bai].
    apply mem_In in Bai.
    destruct (dict_lookup scores best) as [bs|] eqn:L;
      [| apply dict_lookup_None in L; contradiction].
    assert (V : dict_get cand best 0 = bs).
    { unfold dict_get. rewrite (G best Bai), L. reflexivity. }
    exists best, bs. rewrite V.
    split; [exact Bk | split; [exact Bai | split; [exact L | split]]].
    + intros l I A.
      assert (F : In l (k :: ks)).
      { rewrite K. apply filter_In. split; [exact I | now apply mem_In]. }
      pose proof (py_max_by_upper key ks k l F) as U. fold best in U.
      unfold key in U. rewrite V in U.
      unfold dict_get in U |- *. now rewrite (G l A) in U.
    + destruct (Rleb label_threshold bs) eqn:T.
      * left. split; [now apply Rleb_true | reflexivity].
      * right. split; [now apply Rleb_false |].
        unfold dict_get. rewrite py_max_Rmax. reflexivity.
Qed.

(** C7.  [decide_label] does one of three things.  When the vector has no
    AI-label key it returns [(not_ai_ui, 1)].  Otherwise let [best] be the
    AI label it picks, a key of the vector whose score no AI key of the
    vector exceeds: when that score reaches the threshold (equality
    included) it returns [best] with that score, and when it does not it
    returns [not_ai_ui] with the vector's own [not_ai_ui] value if there
    is one and [max(0, 1 - best score)] if not. *)
Theorem decide_label_contract (scores : dict) (label_threshold : R) :
  ((forall l, In l (dict_keys scores) -> ~ In l AI_LABELS)
   /\ decide_label scores label_threshold = (NOT_AI_LABEL, 1))
  \/ (exists best best_score,
        In best (dict_keys scores) /\ In best AI_LABELS
        /\ dict_lookup scores best = Some best_score
        /\ (forall l, In l (dict_keys scores) -> In l AI_LABELS ->
                      dict_get scores l 0 <= best_score)
        /\ ((label_threshold <= best_score
             /\ decide_label scores label_threshold = (best, best_score))
            \/ (best_score < label_threshold
                /\ decide_label scores label_threshold
                   = (NOT_AI_LABEL,
                      match dict_lookup scores NOT_AI_LABEL with
                      | Some v => v
                      | None => Rmax 0 (1 - best_score)
                      end)))).
Proof. apply decide_label_cases. Qed.

(** ** [fuse_scores] and [smooth_scores] *)

Lemma fuse_weights_spec (a b : R) :
  exists total tw mw,
    fuse_weights a b = (total, tw, mw)
    /\ 0 < total /\ 0 <= tw /\ 0 <= mw /\ total = tw + mw.
Proof.
  unfold fuse_weights.
  destruct (Rleb (py_max 0 a + py_max 0 b) 0) eqn:E.
  - exists 1, 1, 0. repeat split; lra.
  - apply Rleb_false in E.
    exists (py_max 0 a + py_max 0 b), (py_max 0 a), (py_max 0 b).
    repeat split; try exact E; py_order.
Qed.

Lemma fuse_weights_nonpositive (a b : R) :
  a <= 0 -> b <= 0 -> fuse_weights a b = (1, 1, 0).
Proof.
  intros Ha Hb. unfold fuse_weights.
  replace (py_max 0 a) with 0 by py_order.
  replace (py_max 0 b) with 0 by py_order.
  destruct (Rleb (0 + 0) 0) eqn:E; [reflexivity | apply Rleb_false in E; lra].
Qed.

Lemma fuse_weights_text_only : fuse_weights 1 0 = (1, 1, 0).
Proof.
  unfold fuse_weights.
  replace (py_max 0 1) with 1 by py_order.
  replace (py_max 0 0) with 0 by py_order.
  destruct (Rleb (1 + 0) 0) eqn:E; [apply Rleb_true in E; lra |].
  now replace (1 + 0) with 1 by lra.
Qed.

Lemma fuse_weights_model_only : fuse_weights 0 1 = (1, 0, 1).
Proof.
  unfold fuse_weights.
  replace (py_max 0 1) with 1 by py_order.
  replace (py_max 0 0) with 0 by py_order.
  destruct (Rleb (0 + 1) 0) eqn:E; [apply Rleb_true in E; lra |].
  now replace (0 + 1) with 1 by lra.
Qed.

Lemma py_div_nonzero (a b : R) : b <> 0 -> py_div a b = Some (a / b).
Proof.
  intros H. unfold py_div. destruct (Req_dec_T b 0); [contradiction | reflexivity].
Qed.

(** With a divisor other than zero the loop of [fuse_scores] never
    fails: it is the plain loop that stores the quotients. *)
Lemma fold_div_set (g : string -> R) (total : R) (labels : list string) (d : dict) :
  total <> 0 ->
  fold_left
    (fun fused label =>
       match fused with
       | None => None
       | Some f =>
           match py_div (g label) total with
           | None => None
           | Some v => Some (dict_set f label v)
           end
       end)
    labels (Some d)
  = Some (fold_left (fun f l => dict_set f l (g l / total)) labels d).
Proof.
  intros H. revert d; induction labels as [|l ls IH]; intros d; simpl.
  - reflexivity.
  - rewrite py_div_nonzero by exact H. apply IH.
Qed.

Section FuseSmooth.

Variable set_union : list string -> list string -> list string.
Hypothesis set_union_ok : set_union_spec set_union.

Lemma fuse_scores_eq (text model : dict) (a b : R) :
  fuse_scores set_union text model a b
  = Some (map (fun l => (l, fuse_value text model a b l))
              (set_union (dict_keys text) (dict_keys model))).
Proof.
  unfold fuse_scores, fuse_value.
  destruct (fuse_weights_spec a b) as [total [tw [mw [W [P _]]]]].
  rewrite W.
  rewrite (fold_div_set
             (fun l => dict_get text l 0 * tw + dict_get model l 0 * mw)) by lra.
  f_equal.
  rewrite (fold_dict_set_fresh
             (fun l => (dict_get text l 0 * tw + dict_get model l 0 * mw) / total)).
  - reflexivity.
  - apply set_union_ok.
  - intros l _ [].
Qed.

Lemma smooth_scores_eq (previous current : dict) (decay : R) :
  smooth_scores set_union previous current decay
  = map (fun l => (l, smooth_value previous current decay l))
        (set_union (dict_keys previous) (dict_keys current)).
Proof.
  unfold smooth_scores, smooth_value, clamp_decay.
  rewrite (fold_dict_set_fresh
             (fun l => dict_get previous l 0 * py_min (py_max decay 0) 0.99
                       + dict_get current l 0 * (1 - py_min (py_max decay 0) 0.99))).
  - reflexivity.
  - apply set_union_ok.
  - intros l _ [].
Qed.

Lemma tabulate_union_lookup (f : string -> R) (a b : list string) (l : string) :
  dict_lookup (map (fun l => (l, f l)) (set_union a b)) l
  = if in_dec string_dec l (a ++ b) then Some (f l) else None.
Proof.
  destruct (in_dec string_dec l (a ++ b)) as [I | N].
  - apply dict_lookup_tabulate. apply set_union_ok. now apply in_app_or.
  - apply dict_lookup_None. rewrite dict_keys_tabulate. intros I.
    apply set_union_ok in I. apply N. now apply in_or_app.
Qed.

End FuseSmooth.

Lemma list_union_ok : set_union_spec list_union.
Proof.
  intros a b. unfold list_union. split.
  - apply NoDup_nodup.
  - intros x. rewrite nodup_In. apply in_app_iff.
Qed.

Lemma unit_scores_get (d : dict) (l : string) :
  unit_scores d -> 0 <= dict_get d l 0 <= 1.
Proof.
  intros U. unfold dict_get.
  induction U as [|[k v] d H U IH]; simpl; [lra |].
  destruct (String.eqb k l); [exact H | exact IH].
Qed.

Lemma unit_scores_tabulate (f : string -> R) (labels : list string) :
  (forall l, In l labels -> 0 <= f l <= 1) ->
  unit_scores (map (fun l => (l, f l)) labels).
Proof.
  intros H. unfold unit_scores. apply Forall_forall. intros [k v] I.
  apply in_map_iff in I. destruct I as [l [E I]]. inversion E; subst.
  apply H, I.
Qed.

Lemma fuse_value_unit (text model : dict) (a b : R) (l : string) :
  unit_scores text -> unit_scores model ->
  0 <= fuse_value text model a b l <= 1.
Proof.
  intros Ut Um. unfold fuse_value.
  destruct (fuse_weights_spec a b) as [total [tw [mw [W [P [Ht [Hm E]]]]]]].
  rewrite W.
  pose proof (unit_scores_get text l Ut) as Gt.
  pose proof (unit_scores_get model l Um) as Gm.
  assert (N : 0 <= dict_get text l 0 * tw + dict_get model l 0 * mw <= total) by nra.
  split.
  - apply Rmult_le_pos; [lra | left; now apply Rinv_0_lt_compat].
  - apply Rmult_le_reg_r with total; [exact P |].
    unfold Rdiv. rewrite Rmult_assoc, Rinv_l by lra. lra.
Qed.

Lemma clamp_decay_range (decay : R) : 0 <= clamp_decay decay <= 0.99.
Proof. unfold clamp_decay. py_order. Qed.

Lemma smooth_value_unit (previous current : dict) (decay : R) (l : string) :
  unit_scores previous -> unit_scores current ->
  0 <= smooth_value previous current decay l <= 1.
Proof.
  intros Up Uc. unfold smooth_value.
  pose proof (clamp_decay_range decay).
  pose proof (unit_scores_get previous l Up).
  pose proof (unit_scores_get current l Uc).
  nra.
Qed.

Lemma max_ai_score_nonneg (hits : list OcrHit) (keyword_gain : R) :
  0 <= max_ai_score hits keyword_gain.
Proof.
  unfold max_ai_score.
  destruct (dict_values (ai_text_scores hits keyword_gain)) as [|v vs] eqn:E; [lra |].
  pose proof (py_max_list_In vs v) as I. rewrite <- E in I.
  unfold dict_values, ai_text_scores in I. rewrite map_map in I.
  apply in_map_iff in I. destruct I as [l [<- _]]. cbn [snd].
  apply saturate_range.
Qed.

Lemma text_scores_unit (hits : list OcrHit) (keyword_gain : R) :
  unit_scores (fst (score_text_hits hits keyword_gain)).
Proof.
  rewrite score_text_hits_eq. unfold unit_scores. apply Forall_app. split.
  - apply unit_scores_tabulate. intros l _.
    pose proof (saturate_range (hits_raw l hits) keyword_gain). lra.
  - constructor; [| constructor]. cbn [snd].
    pose proof (max_ai_score_nonneg hits keyword_gain). py_order.
Qed.

Lemma zero_scores_unit : unit_scores (zero_scores (AI_LABELS ++ [NOT_AI_LABEL])).
Proof.
  rewrite zero_scores_tabulate
    by apply (NoDup_nodup string_dec (AI_LABELS ++ [NOT_AI_LABEL])).
  apply unit_scores_tabulate. intros; lra.
Qed.

Section LoopFacts.

Variable set_union : list string -> list string -> list string.
Hypothesis set_union_ok : set_union_spec set_union.

Lemma fused_keys (text model : dict) (a b : R) (l : string) :
  In l (dict_keys (map (fun l => (l, fuse_value text model a b l))
                       (set_union (dict_keys text) (dict_keys model))))
  <-> In l (dict_keys text) \/ In l (dict_keys model).
Proof. rewrite dict_keys_tabulate. apply set_union_ok. Qed.

Lemma fuse_scores_unit (text model : dict) (a b : R) :
  unit_scores text -> unit_scores model ->
  exists fused,
    fuse_scores set_union text model a b = Some fused /\ unit_scores fused.
Proof.
  intros Ut Um. rewrite (fuse_scores_eq set_union set_union_ok).
  eexists. split; [reflexivity |].
  apply unit_scores_tabulate. intros l _. now apply fuse_value_unit.
Qed.

Lemma smooth_scores_unit (previous current : dict) (decay : R) :
  unit_scores previous -> unit_scores current ->
  unit_scores (smooth_scores set_union previous current decay).
Proof.
  intros Up Uc. rewrite (smooth_scores_eq set_union set_union_ok).
  apply unit_scores_tabulate. intros l _. now apply smooth_value_unit.
Qed.

(** What one iteration leaves in the state and in its result. *)
Lemma iteration_fields (args : Args) (st : LoopState) (inp : FrameInput) :
  exists st' r,
    iteration set_union args st inp = Some (st', r)
    /\ fuse_scores set_union (frame_text_scores args st inp) (in_model_scores inp)
                   (text_weight args) (model_weight args)
       = Some (map (fun l => (l, fuse_value (frame_text_scores args st inp)
                                            (in_model_scores inp)
                                            (text_weight args) (model_weight args) l))
                   (set_union (dict_keys (frame_text_scores args st inp))
                              (dict_keys (in_model_scores inp))))
    /\ smoothed_scores st'
       = smooth_scores set_union (smoothed_scores st)
           (map (fun l => (l, fuse_value (frame_text_scores args st inp)
                                         (in_model_scores inp)
                                         (text_weight args) (model_weight args) l))
                (set_union (dict_keys (frame_text_scores args st inp))
                           (dict_keys (in_model_scores inp))))
           (ema_decay args)
    /\ last_text_scores st' = frame_text_scores args st inp
    /\ frame_index st' = (frame_index st + 1)%Z
    /\ (high_mode_until st', current_fps st')
       = fps_control args (ai_peak (smoothed_scores st')) (in_now inp)
                     (high_mode_until st, current_fps st)
    /\ res_text_scores r = frame_text_scores args st inp
    /\ res_smoothed_scores r = smoothed_scores st'
    /\ res_ai_max r = ai_peak (smoothed_scores st')
    /\ (predicted_label r, predicted_conf r)
       = decide_label (smoothed_scores st') (label_threshold args)
    /\ res_fps r = current_fps st'.
Proof.
  unfold iteration. rewrite (fuse_scores_eq set_union set_union_ok).
  eexists. eexists. split; [reflexivity |]. cbn [smoothed_scores last_text_scores
    frame_index high_mode_until current_fps res_text_scores res_smoothed_scores
    res_ai_max predicted_label predicted_conf res_fps].
  repeat split; try reflexivity; symmetry; apply surjective_pairing.
Qed.

(** The loop never fails, whatever the arguments and the frames. *)
Lemma run_total (args : Args) (frames : list FrameInput) (st : LoopState) :
  exists st' results,
    run set_union args st frames = Some (st', results)
    /\ List.length results = List.length frames.
Proof.
  revert st; induction frames as [|inp rest IH]; intros st; simpl.
  - exists st, []. now split.
  - destruct (iteration_fields args st inp) as [st1 [r [E _]]]. rewrite E.
    destruct (IH st1) as [st2 [rs [E2 L]]]. rewrite E2.
    exists st2, (r :: rs). split; [reflexivity | simpl; now rewrite L].
Qed.

Lemma frame_text_scores_unit (args : Args) (st : LoopState) (inp : FrameInput) :
  unit_scores (last_text_scores st) ->
  unit_scores (frame_text_scores args st inp).
Proof.
  intros U. unfold frame_text_scores.
  destruct (run_ocr_this_frame args st inp); [apply text_scores_unit | exact U].
Qed.

Lemma run_unit (args : Args) (frames : list FrameInput) (st : LoopState) :
  unit_scores (smoothed_scores st) ->
  unit_scores (last_text_scores st) ->
  Forall (fun f => unit_scores (in_model_scores f)) frames ->
  exists st' results,
    run set_union args st frames = Some (st', results)
    /\ unit_scores (smoothed_scores st')
    /\ Forall (fun r => unit_scores (res_smoothed_scores r)) results.
Proof.
  revert st; induction frames as [|inp rest IH]; intros st Us Ut Um; simpl.
  - exists st, []. repeat split; auto.
  - inversion Um as [|? ? Um1 Um2]; subst.
    destruct (iteration_fields args st inp)
      as [st1 [r [E [_ [S [T [_ [_ [_ [Rs _]]]]]]]]]].
    rewrite E.
    assert (Us1 : unit_scores (smoothed_scores st1)).
    { rewrite S. apply smooth_scores_unit; [exact Us |].
      apply unit_scores_tabulate. intros l _.
      apply fuse_value_unit; [now apply frame_text_scores_unit | exact Um1]. }
    assert (Ut1 : unit_scores (last_text_scores st1)).
    { rewrite T. now apply frame_text_scores_unit. }
    destruct (IH st1 Us1 Ut1 Um2) as [st2 [rs [E2 [U2 F2]]]]. rewrite E2.
    exists st2, (r :: rs). repeat split; auto.
    constructor; [now rewrite Rs | exact F2].
Qed.

End LoopFacts.

(** ** The claims on [fuse_scores] and [smooth_scores] *)

(** C8.  With both weights at or below zero [fuse_scores] does not divide
    by zero: it returns a vector, the one it returns for the weights
    (1, 0); its keys are the union of the two key sets and every label of
    the union is mapped to the text vector's value, 0 where the text
    vector has none. *)
Theorem fuse_zero_weight_guard
    (set_union : list string -> list string -> list string)
    (text_scores model_scores : dict) (text_weight model_weight : R) :
  set_union_spec set_union ->
  text_weight <= 0 -> model_weight <= 0 ->
  exists fused,
    fuse_scores set_union text_scores model_scores text_weight model_weight
    = Some fused
    /\ fuse_scores set_union text_scores model_scores 1 0 = Some fused
    /\ (forall l, In l (dict_keys fused)
                  <-> In l (dict_keys text_scores) \/ In l (dict_keys model_scores))
    /\ (forall l, In l (dict_keys text_scores) \/ In l (dict_keys model_scores) ->
                  dict_lookup fused l = Some (dict_get text_scores l 0)).
Proof.
  intros Hsu Ht Hm.
  rewrite !(fuse_scores_eq set_union Hsu).
  assert (V : forall l, fuse_value text_scores model_scores text_weight model_weight l
                        = dict_get text_scores l 0).
  { intros l. unfold fuse_value. rewrite fuse_weights_nonpositive by assumption.
    field. }
  assert (V1 : forall l, fuse_value text_scores model_scores 1 0 l
                         = dict_get text_scores l 0).
  { intros l. unfold fuse_value. rewrite fuse_weights_text_only. field. }
  eexists. split; [reflexivity | split; [| split]].
  - f_equal. apply map_ext. intros l. now rewrite V, V1.
  - intros l. now apply fused_keys.
  - intros l I. rewrite dict_lookup_tabulate by (now apply Hsu). now rewrite V.
Qed.

Lemma fuse_zero_weight_guard_witness :
  exists fused,
    fuse_scores list_union [("ai_ui"%string, 0.4)] [("ai_ui"%string, 0.9)] 0 (-1)
    = Some fused
    /\ fuse_scores list_union [("ai_ui"%string, 0.4)] [("ai_ui"%string, 0.9)] 1 0
       = Some fused
    /\ (forall l, In l (dict_keys fused)
                  <-> In l (dict_keys [("ai_ui"%string, 0.4)])
                      \/ In l (dict_keys [("ai_ui"%string, 0.9)]))
    /\ (forall l, In l (dict_keys [("ai_ui"%string, 0.4)])
                  \/ In l (dict_keys [("ai_ui"%string, 0.9)]) ->
                  dict_lookup fused l = Some (dict_get [("ai_ui"%string, 0.4)] l 0)).
Proof.
  apply (fuse_zero_weight_guard list_union [("ai_ui"%string, 0.4)]
                                [("ai_ui"%string, 0.9)] 0 (-1)).
  - exact list_union_ok.
  - lra.
  - lra.
Defined.

Lemma dict_get_tabulate_union
    (set_union : list string -> list string -> list string)
    (f : string -> R) (a b : list string) (l : string) :
  set_union_spec set_union ->
  (~ In l a -> ~ In l b -> f l = 0) ->
  dict_get (map (fun l => (l, f l)) (set_union a b)) l 0 = f l.
Proof.
  intros Hsu Z. unfold dict_get.
  rewrite (tabulate_union_lookup set_union Hsu).
  destruct (in_dec string_dec l (a ++ b)) as [I | N]; [reflexivity |].
  symmetry. apply Z; intros I; apply N; apply in_or_app; tauto.
Qed.

Lemma dict_get_absent (d : dict) (l : string) :
  ~ In l (dict_keys d) -> dict_get d l 0 = 0.
Proof.
  intros N. unfold dict_get. apply dict_lookup_None in N. now rewrite N.
Qed.

Lemma dict_lookup_present (d : dict) (l : string) :
  In l (dict_keys d) -> dict_lookup d l = Some (dict_get d l 0).
Proof.
  intros I. unfold dict_get. destruct (dict_lookup d l) eqn:E; [reflexivity |].
  apply dict_lookup_None in E. contradiction.
Qed.

(** C4, as the code has it.  For the weights (1, 0) [fuse_scores] returns
    a vector over the union of the two key sets that maps every label to
    the text vector's value (0 where the text vector has no such key); it
    is the text vector, as a mapping, exactly when every key of the model
    vector is a key of the text vector.  The same holds for the weights
    (0, 1) with the two vectors exchanged. *)
Theorem fuse_extreme_weights
    (set_union : list string -> list string -> list string)
    (text_scores model_scores : dict) :
  set_union_spec set_union ->
  exists by_text by_model,
    fuse_scores set_union text_scores model_scores 1 0 = Some by_text
    /\ fuse_scores set_union text_scores model_scores 0 1 = Some by_model
    /\ (forall l, In l (dict_keys by_text)
                  <-> In l (dict_keys text_scores) \/ In l (dict_keys model_scores))
    /\ (forall l, In l (dict_keys by_model)
                  <-> In l (dict_keys text_scores) \/ In l (dict_keys model_scores))
    /\ (forall l, dict_get by_text l 0 = dict_get text_scores l 0)
    /\ (forall l, dict_get by_model l 0 = dict_get model_scores l 0)
    /\ (same_mapping by_text text_scores
        <-> forall l, In l (dict_keys model_scores) -> In l (dict_keys text_scores))
    /\ (same_mapping by_model model_scores
        <-> forall l, In l (dict_keys text_scores) -> In l (dict_keys model_scores)).
Proof.
  intros Hsu. rewrite !(fuse_scores_eq set_union Hsu).
  assert (Vt : forall l, fuse_value text_scores model_scores 1 0 l
                         = dict_get text_scores l 0).
  { intros l. unfold fuse_value. rewrite fuse_weights_text_only. field. }
  assert (Vm : forall l, fuse_value text_scores model_scores 0 1 l
                         = dict_get model_scores l 0).
  { intros l. unfold fuse_value. rewrite fuse_weights_model_only. field. }
  eexists. eexists. split; [reflexivity | split; [reflexivity |]].
  split; [intros l; now apply fused_keys |].
  split; [intros l; now apply fused_keys |].
  split.
  { intros l. rewrite dict_get_tabulate_union by
      (try exact Hsu; intros N _; rewrite Vt; now apply dict_get_absent).
    apply Vt. }
  split.
  { intros l. rewrite dict_get_tabulate_union by
      (try exact Hsu; intros _ N; rewrite Vm; now apply dict_get_absent).
    apply Vm. }
  split; split.
  - intros S l I.
    assert (P : In l (dict_keys text_scores) \/ In l (dict_keys model_scores))
      by now right.
    specialize (S l). rewrite dict_lookup_tabulate in S by (now apply Hsu).
    symmetry in S. now apply dict_lookup_Some_In in S.
  - intros Sub l. rewrite (tabulate_union_lookup set_union Hsu).
    destruct (in_dec string_dec l (dict_keys text_scores ++ dict_keys model_scores))
      as [I | N].
    + assert (It : In l (dict_keys text_scores))
        by (apply in_app_or in I; destruct I; auto).
      rewrite Vt. symmetry. now apply dict_lookup_present.
    + symmetry. apply dict_lookup_None. intros I. apply N, in_or_app. now left.
  - intros S l I.
    assert (P : In l (dict_keys text_scores) \/ In l (dict_keys model_scores))
      by now left.
    specialize (S l). rewrite dict_lookup_tabulate in S by (now apply Hsu).
    symmetry in S. now apply dict_lookup_Some_In in S.
  - intros Sub l. rewrite (tabulate_union_lookup set_union Hsu).
    destruct (in_dec string_dec l (dict_keys text_scores ++ dict_keys model_scores))
      as [I | N].
    + assert (Im : In l (dict_keys model_scores))
        by (apply in_app_or in I; destruct I; auto).
      rewrite Vm. symmetry. now apply dict_lookup_present.
    + symmetry. apply dict_lookup_None. intros I. apply N, in_or_app. now right.
Qed.

Lemma fuse_extreme_weights_witness :
  exists by_text by_model,
    fuse_scores list_union [("ai_ui"%string, 0.4)] [("class_0"%string, 1)] 1 0
    = Some by_text
    /\ fuse_scores list_union [("ai_ui"%string, 0.4)] [("class_0"%string, 1)] 0 1
       = Some by_model
    /\ (forall l, In l (dict_keys by_text)
                  <-> In l (dict_keys [("ai_ui"%string, 0.4)])
                      \/ In l (dict_keys [("class_0"%string, 1)]))
    /\ (forall l, In l (dict_keys by_model)
                  <-> In l (dict_keys [("ai_ui"%string, 0.4)])
                      \/ In l (dict_keys [("class_0"%string, 1)]))
    /\ (forall l, dict_get by_text l 0 = dict_get [("ai_ui"%string, 0.4)] l 0)
    /\ (forall l, dict_get by_model l 0 = dict_get [("class_0"%string, 1)] l 0)
    /\ (same_mapping by_text [("ai_ui"%string, 0.4)]
        <-> forall l, In l (dict_keys [("class_0"%string, 1)]) ->
                      In l (dict_keys [("ai_ui"%string, 0.4)]))
    /\ (same_mapping by_model [("class_0"%string, 1)]
        <-> forall l, In l (dict_keys [("ai_ui"%string, 0.4)]) ->
                      In l (dict_keys [("class_0"%string, 1)])).
Proof.
  apply (fuse_extreme_weights list_union [("ai_ui"%string, 0.4)]
                              [("class_0"%string, 1)]).
  exact list_union_ok.
Defined.

(** C4, as the claim words it, fails: fused with the weights (1, 0), a
    text vector and a model vector that has a key of its own give a
    vector with that key added, which is not the text vector. *)
Lemma fuse_text_weight_keeps_model_keys :
  exists fused,
    fuse_scores list_union [("ai_ui"%string, 0.4)] [("class_0"%string, 1)] 1 0
    = Some fused
    /\ dict_keys fused = ["ai_ui"%string; "class_0"%string]
    /\ dict_lookup fused "class_0" = Some 0
    /\ dict_lookup [("ai_ui"%string, 0.4)] "class_0" = None
    /\ fused <> [("ai_ui"%string, 0.4)].
Proof.
  rewrite (fuse_scores_eq list_union list_union_ok).
  eexists. split; [reflexivity |].
  assert (K : list_union (dict_keys [("ai_ui"%string, 0.4)])
                         (dict_keys [("class_0"%string, 1)])
              = ["ai_ui"%string; "class_0"%string]) by reflexivity.
  rewrite K. split; [reflexivity | split; [| split; [reflexivity |]]].
  - cbn [map dict_lookup String.eqb Ascii.eqb Bool.eqb]. f_equal.
    unfold fuse_value. rewrite fuse_weights_text_only.
    unfold dict_get. cbn [dict_lookup String.eqb Ascii.eqb Bool.eqb]. field.
  - intros E. discriminate E.
Qed.

(** C10.  When every value of the input vectors lies in [0, 1],
    [fuse_scores] with non-negative weights returns a vector whose values
    lie in [0, 1] (with any weights, since it clamps them at zero first),
    and so does [smooth_scores] for every decay; and when
    every model vector the loop is given has its values in [0, 1], the
    loop runs through all its frames and the smoothed vector it carries
    has its values in [0, 1] after every iteration. *)
Theorem unit_range_preserved
    (set_union : list string -> list string -> list string)
    (text_scores model_scores previous current : dict)
    (text_weight model_weight decay : R)
    (args : Args) (frames : list FrameInput) :
  set_union_spec set_union ->
  unit_scores text_scores -> unit_scores model_scores ->
  unit_scores previous -> unit_scores current ->
  Forall (fun f => unit_scores (in_model_scores f)) frames ->
  (exists fused,
      fuse_scores set_union text_scores model_scores text_weight model_weight
      = Some fused
      /\ unit_scores fused)
  /\ 0 <= clamp_decay decay <= 0.99
  /\ unit_scores (smooth_scores set_union previous current decay)
  /\ (exists st results,
        run set_union args (initial_state args) frames = Some (st, results)
        /\ unit_scores (smoothed_scores st)
        /\ Forall (fun r => unit_scores (res_smoothed_scores r)) results).
Proof.
  intros Hsu Ut Um Up Uc Uf.
  split; [now apply fuse_scores_unit |].
  split; [apply clamp_decay_range |].
  split; [now apply smooth_scores_unit |].
  apply (run_unit set_union Hsu); [constructor | apply zero_scores_unit | exact Uf].
Qed.

Lemma unit_range_preserved_witness :
  (exists fused,
      fuse_scores list_union [("ai_ui"%string, 0.4)] [("ai_ui"%string, 0.9)]
                  0.75 0.25
      = Some fused
      /\ unit_scores fused)
  /\ 0 <= clamp_decay 0.65 <= 0.99
  /\ unit_scores (smooth_scores list_union [] [("ai_ui"%string, 0.4)] 0.65)
  /\ (exists st results,
        run list_union default_args (initial_state default_args)
            [mkFrameInput 100 [] [("ai_ui"%string, 0.9)] 100]
        = Some (st, results)
        /\ unit_scores (smoothed_scores st)
        /\ Forall (fun r => unit_scores (res_smoothed_scores r)) results).
Proof.
  apply (unit_range_preserved list_union [("ai_ui"%string, 0.4)]
           [("ai_ui"%string, 0.9)] [] [("ai_ui"%string, 0.4)] 0.75 0.25 0.65
           default_args [mkFrameInput 100 [] [("ai_ui"%string, 0.9)] 100]).
  - exact list_union_ok.
  - repeat constructor; cbn [snd]; lra.
  - repeat constructor; cbn [snd]; lra.
  - constructor.
  - repeat constructor; cbn [snd]; lra.
  - repeat constructor; cbn [snd in_model_scores]; lra.
Defined.

(** ** The frame-rate state *)

(** C9, as the code has it.  Before the first iteration [high_mode_until]
    is 0 and [current_fps] is [max(1.0, base_fps)]: it is [base_fps]
    exactly when [base_fps] is at least 1. *)
Theorem initial_frame_rate_state (args : Args) :
  high_mode_until (initial_state args) = 0
  /\ current_fps (initial_state args) = Rmax 1 (base_fps args)
  /\ (current_fps (initial_state args) = base_fps args <-> 1 <= base_fps args).
Proof.
  cbn [initial_state high_mode_until current_fps].
  split; [reflexivity | split; [apply py_max_Rmax |]].
  split; intros H; revert H; py_order.
Qed.

(** C9, as the claim words it, fails: with [--base-fps 0.5] the loop
    starts at 1 frame per second, not at 0.5. *)
Lemma initial_fps_below_one :
  current_fps (initial_state (mkArgs 0.5 8 0.20 0.12 3 0.20 1 5 0.70 0.65 0.75 0.25))
  = 1
  /\ current_fps (initial_state (mkArgs 0.5 8 0.20 0.12 3 0.20 1 5 0.70 0.65 0.75 0.25))
     <> base_fps (mkArgs 0.5 8 0.20 0.12 3 0.20 1 5 0.70 0.65 0.75 0.25).
Proof.
  cbn [initial_state current_fps base_fps].
  replace (py_max 1 0.5) with 1 by py_order.
  split; [reflexivity | lra].
Qed.

Lemma fps_control_armed (args : Args) (ai_max now : R) (st : R * R) :
  high_fps_trigger args <= ai_max ->
  fst (fps_control args ai_max now st) = now + py_max 0 (high_fps_hold_seconds args).
Proof.
  intros H. unfold fps_control. cbn [fst].
  apply Rleb_true in H. now rewrite H.
Qed.

Lemma fps_control_deadline (args : Args) (ai_max now T : R) (st : R * R) :
  T <= fst st -> T <= now + py_max 0 (high_fps_hold_seconds args) ->
  T <= fst (fps_control args ai_max now st).
Proof.
  intros H1 H2. unfold fps_control. cbn [fst].
  now destruct (Rleb (high_fps_trigger args) ai_max).
Qed.

Lemma fps_control_high (args : Args) (ai_max now : R) (st : R * R) :
  now < fst (fps_control args ai_max now st) ->
  snd (fps_control args ai_max now st) = py_max (base_fps args) (high_fps args).
Proof.
  unfold fps_control. cbn [fst snd]. intros H.
  apply Rltb_true in H. now rewrite H.
Qed.

Section Hysteresis.

Variable set_union : list string -> list string -> list string.
Hypothesis set_union_ok : set_union_spec set_union.

(** One more frame: the run is the iteration followed by the run over the
    rest. *)
Lemma run_cons (args : Args) (st st' : LoopState) (inp : FrameInput)
    (rest : list FrameInput) (results : list FrameResult) :
  run set_union args st (inp :: rest) = Some (st', results) ->
  exists st1 r rs,
    iteration set_union args st inp = Some (st1, r)
    /\ run set_union args st1 rest = Some (st', rs)
    /\ results = r :: rs.
Proof.
  cbn [run].
  destruct (iteration set_union args st inp) as [[st1 r] |] eqn:E1; [| discriminate].
  destruct (run set_union args st1 rest) as [[st2 rs] |] eqn:E2; [| discriminate].
  intros E. inversion E; subst. exists st1, r, rs. auto.
Qed.

Lemma iteration_fps (args : Args) (st st1 : LoopState) (inp : FrameInput)
    (r : FrameResult) :
  iteration set_union args st inp = Some (st1, r) ->
  res_ai_max r = ai_peak (res_smoothed_scores r)
  /\ high_mode_until st1
     = fst (fps_control args (res_ai_max r) (in_now inp)
                        (high_mode_until st, current_fps st))
  /\ res_fps r
     = snd (fps_control args (res_ai_max r) (in_now inp)
                        (high_mode_until st, current_fps st)).
Proof.
  intros E.
  destruct (iteration_fields set_union set_union_ok args st inp)
    as [st1' [r' [E' [_ [_ [_ [_ [F [_ [Rs [Ra [_ Rf]]]]]]]]]]]].
  rewrite E in E'. inversion E'; subst st1' r'.
  rewrite Ra, Rs, Rf. rewrite <- F. cbn [fst snd]. auto.
Qed.

(** While the deadline [high_mode_until] is at [T] or later and no frame
    can re-arm it to an earlier time, every frame read before [T] runs at
    the high rate. *)
Lemma hold_window (args : Args) (T : R) (frames : list FrameInput) :
  forall (st st' : LoopState) (results : list FrameResult) (j : nat)
         (fj : FrameInput) (rj : FrameResult),
    run set_union args st frames = Some (st', results) ->
    T <= high_mode_until st ->
    Forall (fun f => T <= in_now f + py_max 0 (high_fps_hold_seconds args)) frames ->
    nth_error frames j = Some fj ->
    nth_error results j = Some rj ->
    in_now fj < T ->
    res_fps rj = py_max (base_fps args) (high_fps args).
Proof.
  induction frames as [|inp rest IH]; intros st st' results j fj rj Hrun HT Hall Hf Hr Hnow.
  - destruct j; discriminate Hf.
  - apply run_cons in Hrun. destruct Hrun as [st1 [r [rs [E [Erest ->]]]]].
    destruct (iteration_fps args st st1 inp r E) as [_ [Hm Hfps]].
    inversion Hall as [|? ? Hinp Hrest]; subst.
    assert (HT1 : T <= high_mode_until st1).
    { rewrite Hm. apply fps_control_deadline; [exact HT | exact Hinp]. }
    destruct j as [|j].
    + simpl in Hf, Hr. inversion Hf; inversion Hr; subst.
      rewrite Hfps. apply fps_control_high. rewrite <- Hm. lra.
    + simpl in Hf, Hr. eapply IH; eauto.
Qed.

Lemma hold_after_trigger (args : Args) (frames : list FrameInput) :
  forall (st st' : LoopState) (results : list FrameResult) (i j : nat)
         (fi fj : FrameInput) (ri rj : FrameResult),
    run set_union args st frames = Some (st', results) ->
    0 <= high_fps_hold_seconds args ->
    StronglySorted Rle (map in_now frames) ->
    (i <= j)%nat ->
    nth_error frames i = Some fi -> nth_error frames j = Some fj ->
    nth_error results i = Some ri -> nth_error results j = Some rj ->
    high_fps_trigger args <= res_ai_max ri ->
    in_now fj < in_now fi + high_fps_hold_seconds args ->
    res_fps rj = py_max (base_fps args) (high_fps args).
Proof.
  induction frames as [|inp rest IH];
    intros st st' results i j fi fj ri rj Hrun Hh Hs Hij Hfi Hfj Hri Hrj Htr Hnow.
  - destruct i; discriminate Hfi.
  - apply run_cons in Hrun. destruct Hrun as [st1 [r [rs [E [Erest ->]]]]].
    destruct (iteration_fps args st st1 inp r E) as [_ [Hm Hfps]].
    simpl in Hs. apply StronglySorted_inv in Hs. destruct Hs as [Hs Hle].
    assert (Hp : py_max 0 (high_fps_hold_seconds args) = high_fps_hold_seconds args)
      by py_order.
    destruct i as [|i].
    + simpl in Hfi, Hri. inversion Hfi; inversion Hri; subst fi ri.
      assert (Harm : high_mode_until st1 = in_now inp + high_fps_hold_seconds args).
      { rewrite Hm, fps_control_armed by exact Htr. now rewrite Hp. }
      destruct j as [|j].
      * simpl in Hfj, Hrj. inversion Hfj; inversion Hrj; subst fj rj.
        rewrite Hfps. apply fps_control_high. rewrite <- Hm, Harm. exact Hnow.
      * simpl in Hfj, Hrj.
        apply (hold_window args (in_now inp + high_fps_hold_seconds args) rest
                           st1 st' rs j fj rj); auto.
        -- rewrite Harm. lra.
        -- rewrite Hp. apply Forall_forall. intros f If.
           rewrite Forall_forall in Hle.
           specialize (Hle (in_now f) (in_map in_now rest f If)). lra.
    + destruct j as [|j]; [lia |].
      simpl in Hfi, Hfj, Hri, Hrj.
      apply (IH st1 st' rs i j fi fj ri rj); auto. lia.
Qed.

End Hysteresis.

(** C1.  Take any run of the loop from its initial state whose readings
    of the clock do not go backwards, with a hold time of at least zero.
    The run yields a result for every frame; and if the smoothed AI peak
    of frame [i], read at time [t], reaches the trigger, then every frame
    from [i] on that is read before [t + high_fps_hold_seconds] runs at
    [max(base_fps, high_fps)], whatever the AI peak has become. *)
Theorem hysteresis_hold
    (set_union : list string -> list string -> list string)
    (args : Args) (frames : list FrameInput) (i j : nat) (fi fj : FrameInput) :
  set_union_spec set_union ->
  0 <= high_fps_hold_seconds args ->
  StronglySorted Rle (map in_now frames) ->
  (i <= j)%nat ->
  nth_error frames i = Some fi ->
  nth_error frames j = Some fj ->
  exists st results ri rj,
    run set_union args (initial_state args) frames = Some (st, results)
    /\ nth_error results i = Some ri
    /\ nth_error results j = Some rj
    /\ res_ai_max ri = ai_peak (res_smoothed_scores ri)
    /\ (high_fps_trigger args <= res_ai_max ri ->
        in_now fj < in_now fi + high_fps_hold_seconds args ->
        res_fps rj = Rmax (base_fps args) (high_fps args)).
Proof.
  intros Hsu Hh Hs Hij Hfi Hfj.
  destruct (run_total set_union Hsu args frames (initial_state args))
    as [st [results [Hrun Hlen]]].
  assert (Li : (i < List.length results)%nat)
    by (rewrite Hlen; apply nth_error_Some; congruence).
  assert (Lj : (j < List.length results)%nat)
    by (rewrite Hlen; apply nth_error_Some; congruence).
  destruct (nth_error results i) as [ri|] eqn:Hri;
    [| apply nth_error_None in Hri; lia].
  destruct (nth_error results j) as [rj|] eqn:Hrj;
    [| apply nth_error_None in Hrj; lia].
  exists st, results, ri, rj.
  split; [exact Hrun | split; [exact Hri | split; [exact Hrj | split]]].
  - clear - Hsu Hrun Hri. revert Hrun Hri. generalize (initial_state args).
    revert results i. induction frames as [|inp rest IH]; intros results i st0 Hrun Hri.
    + simpl in Hrun. inversion Hrun; subst. destruct i; discriminate Hri.
    + apply (run_cons set_union) in Hrun.
      destruct Hrun as [st1 [r [rs [E [Erest ->]]]]].
      destruct i as [|i]; simpl in Hri.
      * inversion Hri; subst.
        now destruct (iteration_fps set_union Hsu args st0 st1 inp ri E).
      * apply (IH rs i st1 Erest Hri).
  - intros Htr Hnow. rewrite <- py_max_Rmax.
    apply (hold_after_trigger set_union Hsu args frames (initial_state args) st
                              results i j fi fj ri rj); auto.
Qed.

(** ** The idle run *)

Lemma idle_text_get (l : string) :
  dict_get idle_text_scores l 0 = if String.eqb l NOT_AI_LABEL then 1 else 0.
Proof.
  unfold dict_get, idle_text_scores. rewrite dict_lookup_app.
  destruct (in_dec string_dec l AI_LABELS) as [I | N].
  - rewrite (dict_lookup_tabulate (fun _ => 0)) by exact I.
    destruct (String.eqb l NOT_AI_LABEL) eqn:E; [| reflexivity].
    apply String.eqb_eq in E. subst l. now apply NOT_AI_LABEL_not_AI in I.
  - assert (L : dict_lookup (map (fun l => (l, 0)) AI_LABELS) l = None)
      by (apply dict_lookup_None; now rewrite dict_keys_tabulate).
    rewrite L. cbn [dict_lookup]. rewrite String.eqb_sym.
    now destruct (String.eqb l NOT_AI_LABEL).
Qed.

Lemma idle_text_keys : dict_keys idle_text_scores = AI_LABELS ++ [NOT_AI_LABEL].
Proof.
  unfold idle_text_scores. now rewrite dict_keys_app, dict_keys_tabulate.
Qed.

Lemma run_ocr_first_frame (args : Args) (st : LoopState) (inp : FrameInput) :
  frame_index st = 0%Z -> run_ocr_this_frame args st inp = true.
Proof.
  intros H. unfold run_ocr_this_frame. rewrite H. reflexivity.
Qed.

Lemma idle_frame_text (args : Args) (k : nat) (st : LoopState) (inp : FrameInput) :
  idle_state args k st -> idle_frame inp ->
  frame_text_scores args st inp = idle_text_scores.
Proof.
  intros [Hi [Ht _]] [Ho _]. unfold frame_text_scores.
  destruct k as [|k].
  - rewrite run_ocr_first_frame by exact Hi. rewrite Ho. apply text_scores_empty.
  - destruct (run_ocr_this_frame args st inp).
    + rewrite Ho. apply text_scores_empty.
    + apply Ht. discriminate.
Qed.

Lemma idle_fuse_value (tw mw : R) (l : string) :
  fuse_value idle_text_scores [] tw mw l
  = if String.eqb l NOT_AI_LABEL then text_share tw mw else 0.
Proof.
  unfold fuse_value, text_share.
  destruct (fuse_weights_spec tw mw) as [total [a [b [W [P _]]]]]. rewrite W.
  rewrite idle_text_get.
  replace (dict_get [] l 0) with 0 by reflexivity.
  destruct (String.eqb l NOT_AI_LABEL); field; lra.
Qed.

Lemma ai_peak_zero (d : dict) :
  (forall l, In l AI_LABELS -> dict_get d l 0 = 0) -> ai_peak d = 0.
Proof.
  intros Z. unfold ai_peak.
  destruct (map (fun label => dict_get d label 0) AI_LABELS) as [|v vs] eqn:E; auto.
  assert (A : forall x, In x (v :: vs) -> x = 0).
  { intros x I. rewrite <- E in I. apply in_map_iff in I.
    destruct I as [l [<- I]]. now apply Z. }
  rewrite (A v) by now left.
  apply py_max_list_const. intros x I. apply A. now right.
Qed.

Lemma NOT_AI_LABEL_neq (l : string) :
  In l AI_LABELS -> String.eqb l NOT_AI_LABEL = false.
Proof.
  intros I. apply String.eqb_neq. intros ->. now apply NOT_AI_LABEL_not_AI in I.
Qed.

Section IdleRun.

Variable set_union : list string -> list string -> list string.
Hypothesis set_union_ok : set_union_spec set_union.

(** One idle iteration: the state after it and what it decides. *)
Lemma idle_iteration (args : Args) (k : nat) (st : LoopState) (inp : FrameInput) :
  0 < label_threshold args ->
  0 < high_fps_trigger args ->
  0 <= high_fps_return_threshold args ->
  idle_state args k st -> idle_frame inp ->
  exists st1 r,
    iteration set_union args st inp = Some (st1, r)
    /\ idle_state args (S k) st1
    /\ predicted_label r = NOT_AI_LABEL
    /\ predicted_conf r
       = text_share (text_weight args) (model_weight args)
         * (1 - clamp_decay (ema_decay args) ^ (S k))
    /\ res_ai_max r = 0
    /\ res_fps r = base_fps args.
Proof.
  intros Hthr Htrig Hret Hst Hin.
  pose proof (idle_frame_text args k st inp Hst Hin) as Ht.
  destruct Hst as [Hi [_ [Hai [Hnot Hhm]]]].
  destruct Hin as [_ [Hmodel Hnow]].
  destruct (iteration_fields set_union set_union_ok args st inp)
    as [st1 [r [E [_ [Hs [T [I [F [_ [_ [Ra [D Rf]]]]]]]]]]]].
  rewrite Ht, Hmodel in Hs.
  set (fused := map (fun l => (l, fuse_value idle_text_scores []
                                  (text_weight args) (model_weight args) l))
                    (set_union (dict_keys idle_text_scores) (dict_keys []))) in Hs.
  assert (Gf : forall l, dict_get fused l 0
                         = if String.eqb l NOT_AI_LABEL
                           then text_share (text_weight args) (model_weight args)
                           else 0).
  { intros l. unfold fused.
    rewrite (dict_get_tabulate_union set_union
               (fun l => fuse_value idle_text_scores [] (text_weight args)
                                    (model_weight args) l)
               _ _ l set_union_ok).
    - apply idle_fuse_value.
    - intros N _. rewrite idle_fuse_value.
      destruct (String.eqb l NOT_AI_LABEL) eqn:Q; [| reflexivity].
      apply String.eqb_eq in Q. subst l. elim N.
      rewrite idle_text_keys. apply in_or_app. right. now left. }
  assert (Kf : forall l, In l (AI_LABELS ++ [NOT_AI_LABEL]) -> In l (dict_keys fused)).
  { intros l Il. unfold fused. rewrite dict_keys_tabulate.
    apply set_union_ok. left. now rewrite idle_text_keys. }
  rewrite (smooth_scores_eq set_union set_union_ok) in Hs.
  assert (Gs : forall l, dict_get (smoothed_scores st1) l 0
                         = smooth_value (smoothed_scores st) fused (ema_decay args) l).
  { intros l. rewrite Hs.
    apply (dict_get_tabulate_union set_union); [exact set_union_ok |].
    intros N1 N2. unfold smooth_value.
    rewrite (dict_get_absent _ _ N1), (dict_get_absent _ _ N2). lra. }
  assert (Ks : forall l, In l (AI_LABELS ++ [NOT_AI_LABEL]) ->
                         In l (dict_keys (smoothed_scores st1))).
  { intros l Il. rewrite Hs, dict_keys_tabulate. apply set_union_ok. right. now apply Kf. }
  assert (Ai : forall l, In l AI_LABELS -> dict_get (smoothed_scores st1) l 0 = 0).
  { intros l Il. rewrite Gs. unfold smooth_value.
    rewrite (Hai l Il), Gf, (NOT_AI_LABEL_neq l Il). lra. }
  assert (Nt : dict_get (smoothed_scores st1) NOT_AI_LABEL 0
               = text_share (text_weight args) (model_weight args)
                 * (1 - clamp_decay (ema_decay args) ^ (S k))).
  { rewrite Gs. unfold smooth_value. rewrite Hnot, Gf, String.eqb_refl.
    simpl pow. ring. }
  assert (Pk : ai_peak (smoothed_scores st1) = 0) by now apply ai_peak_zero.
  rewrite Pk in F, Ra.
  assert (Fc : fps_control args 0 (in_now inp) (high_mode_until st, current_fps st)
               = (0, base_fps args)).
  { unfold fps_control. cbn [fst snd]. rewrite Hhm.
    replace (Rleb (high_fps_trigger args) 0) with false
      by (symmetry; apply Rleb_false; lra).
    replace (Rltb (in_now inp) 0) with false
      by (symmetry; apply Rltb_false; lra).
    replace (Rleb 0 (high_fps_return_threshold args)) with true
      by (symmetry; apply Rleb_true; lra).
    reflexivity. }
  rewrite Fc in F.
  assert (Fh : high_mode_until st1 = 0) by now apply (f_equal fst) in F.
  assert (Fcur : current_fps st1 = base_fps args) by now apply (f_equal snd) in F.
  exists st1, r. split; [exact E |].
  split.
  { unfold idle_state. split; [rewrite I, Hi; lia |].
    split; [intros _; now rewrite T |].
    split; [exact Ai | split; [exact Nt | exact Fh]]. }
  assert (Dl : decide_label (smoothed_scores st1) (label_threshold args)
               = (NOT_AI_LABEL,
                  text_share (text_weight args) (model_weight args)
                  * (1 - clamp_decay (ema_decay args) ^ (S k)))).
  { destruct (decide_label_cases (smoothed_scores st1) (label_threshold args))
      as [[Hno _] | [best [bs [Bk [Bai [Bl [_ [[Hge _] | [_ Hd]]]]]]]]].
    - exfalso. apply (Hno "ai_ui"%string).
      + apply Ks. apply in_or_app. left. apply mem_In. reflexivity.
      + apply mem_In. reflexivity.
    - exfalso. pose proof (Ai best Bai) as Z. unfold dict_get in Z.
      rewrite Bl in Z. lra.
    - rewrite Hd. f_equal.
      rewrite (dict_lookup_present (smoothed_scores st1) NOT_AI_LABEL)
        by (apply Ks; apply in_or_app; right; now left).
      exact Nt. }
  rewrite Dl in D.
  split; [now apply (f_equal fst) in D |].
  split; [now apply (f_equal snd) in D |].
  split; [exact Ra |].
  rewrite Rf. exact Fcur.
Qed.

Lemma idle_run_results (args : Args) (frames : list FrameInput) :
  0 < label_threshold args ->
  0 < high_fps_trigger args ->
  0 <= high_fps_return_threshold args ->
  forall (k : nat) (st : LoopState),
    idle_state args k st -> Forall idle_frame frames ->
    exists st' results,
      run set_union args st frames = Some (st', results)
      /\ forall n r, nth_error results n = Some r ->
           predicted_label r = NOT_AI_LABEL
           /\ predicted_conf r
              = text_share (text_weight args) (model_weight args)
                * (1 - clamp_decay (ema_decay args) ^ (S (k + n)))
           /\ res_ai_max r = 0
           /\ res_fps r = base_fps args.
Proof.
  intros Hthr Htrig Hret.
  induction frames as [|inp rest IH]; intros k st Hst Hall.
  - exists st, []. split; [reflexivity |]. intros [|n] r H; discriminate H.
  - inversion Hall as [|? ? Hinp Hrest]; subst.
    destruct (idle_iteration args k st inp Hthr Htrig Hret Hst Hinp)
      as [st1 [r [E [Hst1 [Hl [Hc [Ha Hf]]]]]]].
    destruct (IH (S k) st1 Hst1 Hrest) as [st2 [rs [E2 Hrs]]].
    exists st2, (r :: rs). split; [cbn [run]; now rewrite E, E2 |].
    intros [|n] r0 H; simpl in H.
    + inversion H; subst r0. rewrite Nat.add_0_r. auto.
    + destruct (Hrs n r0 H) as [A [B [C D]]].
      replace (k + S n)%nat with (S k + n)%nat by lia. auto.
Qed.

End IdleRun.

Lemma idle_initial_state (args : Args) : idle_state args 0 (initial_state args).
Proof.
  unfold idle_state. cbn [initial_state frame_index last_text_scores
                          smoothed_scores high_mode_until].
  split; [reflexivity | split; [intros H; now elim H |]].
  split; [intros l _; reflexivity | split; [| reflexivity]].
  unfold dict_get. cbn [dict_lookup pow]. lra.
Qed.

Lemma text_share_range (tw mw : R) : 0 <= text_share tw mw <= 1.
Proof.
  unfold text_share.
  destruct (fuse_weights_spec tw mw) as [total [a [b [W [P [Ha [Hb E]]]]]]].
  rewrite W. split.
  - apply Rmult_le_pos; [exact Ha | left; now apply Rinv_0_lt_compat].
  - apply Rmult_le_reg_r with total; [exact P |].
    unfold Rdiv. rewrite Rmult_assoc, Rinv_l by lra. lra.
Qed.

Lemma decay_power_range (decay : R) (n : nat) : 0 <= clamp_decay decay ^ n <= 1.
Proof.
  pose proof (clamp_decay_range decay) as [L U]. split.
  - now apply pow_le.
  - rewrite <- (pow1 n). apply pow_incr. lra.
Qed.

(** C3, as the code has it.  From the initial state, with a positive
    label threshold (0.2 in the scenario), a positive trigger, a return
    threshold of at least zero, and frames that have no OCR hit and no
    model and are read at times that are not negative, the loop runs
    through all its frames; every iteration decides [not_ai_ui]; its
    confidence is the smoothed [not_ai_ui] score, which after [n + 1]
    iterations is [w * (1 - d^(n+1))], with [w] the share of the text
    weight and [d] the clamped decay, a value in [0, 1]; and
    [current_fps] is [base_fps] after every iteration. *)
Theorem idle_run_decisions
    (set_union : list string -> list string -> list string)
    (args : Args) (frames : list FrameInput) :
  set_union_spec set_union ->
  0 < label_threshold args ->
  0 < high_fps_trigger args ->
  0 <= high_fps_return_threshold args ->
  Forall idle_frame frames ->
  exists st results,
    run set_union args (initial_state args) frames = Some (st, results)
    /\ List.length results = List.length frames
    /\ forall n r, nth_error results n = Some r ->
         predicted_label r = NOT_AI_LABEL
         /\ predicted_conf r
            = text_share (text_weight args) (model_weight args)
              * (1 - clamp_decay (ema_decay args) ^ (S n))
         /\ 0 <= predicted_conf r <= 1
         /\ res_fps r = base_fps args.
Proof.
  intros Hsu Hthr Htrig Hret Hall.
  destruct (idle_run_results set_union Hsu args frames Hthr Htrig Hret 0
              (initial_state args) (idle_initial_state args) Hall)
    as [st [results [E H]]].
  exists st, results. split; [exact E |].
  split.
  { destruct (run_total set_union Hsu args frames (initial_state args))
      as [st' [rs [E' L]]].
    rewrite E in E'. inversion E'; subst. exact L. }
  intros n r Hn. destruct (H n r Hn) as [A [B [_ D]]]. simpl plus in B.
  split; [exact A | split; [exact B | split; [| exact D]]].
  rewrite B.
  pose proof (text_share_range (text_weight args) (model_weight args)).
  pose proof (decay_power_range (ema_decay args) (S n)).
  nra.
Qed.

Lemma idle_run_decisions_witness :
  exists st results,
    run list_union default_args (initial_state default_args)
        [mkFrameInput 100 [] [] 100; mkFrameInput 100.25 [] [] 100.25]
    = Some (st, results)
    /\ List.length results
       = List.length [mkFrameInput 100 [] [] 100; mkFrameInput 100.25 [] [] 100.25]
    /\ forall n r, nth_error results n = Some r ->
         predicted_label r = NOT_AI_LABEL
         /\ predicted_conf r
            = text_share (text_weight default_args) (model_weight default_args)
              * (1 - clamp_decay (ema_decay default_args) ^ (S n))
         /\ 0 <= predicted_conf r <= 1
         /\ res_fps r = base_fps default_args.
Proof.
  apply (idle_run_decisions list_union default_args
           [mkFrameInput 100 [] [] 100; mkFrameInput 100.25 [] [] 100.25]).
  - exact list_union_ok.
  - cbn [default_args label_threshold]. lra.
  - cbn [default_args high_fps_trigger]. lra.
  - cbn [default_args high_fps_return_threshold]. lra.
  - repeat constructor; cbn [in_now]; lra.
Defined.

Lemma fuse_weights_positive (a b : R) :
  0 <= a -> 0 <= b -> 0 < a + b -> fuse_weights a b = (a + b, a, b).
Proof.
  intros Ha Hb Hab. unfold fuse_weights.
  replace (py_max 0 a) with a by py_order.
  replace (py_max 0 b) with b by py_order.
  destruct (Rleb (a + b) 0) eqn:E; [apply Rleb_true in E; lra | reflexivity].
Qed.

(** C3, as the claim words it, fails: with the default arguments the
    first idle frame is decided [not_ai_ui] with confidence 0.2625, the
    smoothed score 0.75 * (1 - 0.65), not with confidence 1. *)
Lemma idle_confidence_below_one :
  exists st r,
    run list_union default_args (initial_state default_args)
        [mkFrameInput 100 [] [] 100]
    = Some (st, [r])
    /\ predicted_label r = NOT_AI_LABEL
    /\ predicted_conf r = 0.2625
    /\ predicted_conf r <> 1.
Proof.
  assert (Hthr : 0 < label_threshold default_args)
    by (cbn [default_args label_threshold]; lra).
  assert (Htrig : 0 < high_fps_trigger default_args)
    by (cbn [default_args high_fps_trigger]; lra).
  assert (Hret : 0 <= high_fps_return_threshold default_args)
    by (cbn [default_args high_fps_return_threshold]; lra).
  assert (Hidle : idle_frame (mkFrameInput 100 [] [] 100))
    by (repeat split; cbn [in_now]; lra).
  destruct (idle_iteration list_union list_union_ok default_args 0
              (initial_state default_args) (mkFrameInput 100 [] [] 100)
              Hthr Htrig Hret (idle_initial_state default_args) Hidle)
    as [st1 [r [E [_ [Hl [Hc _]]]]]].
  exists st1, r. cbn [run]. rewrite E.
  assert (V : predicted_conf r = 0.2625).
  { rewrite Hc. cbn [default_args text_weight model_weight ema_decay].
    unfold text_share. rewrite fuse_weights_positive by lra.
    unfold clamp_decay.
    replace (py_max 0.65 0) with 0.65 by py_order.
    replace (py_min 0.65 0.99) with 0.65 by py_order.
    cbv beta iota zeta. simpl pow. lra. }
  split; [reflexivity | split; [exact Hl | split; [exact V | rewrite V; lra]]].
Qed.

(** ** The smoothing recurrence and the hold scenario *)

Lemma fuse_value_absent (text model : dict) (a b : R) (l : string) :
  ~ In l (dict_keys text) -> ~ In l (dict_keys model) ->
  fuse_value text model a b l = 0.
Proof.
  intros Nt Nm. unfold fuse_value.
  destruct (fuse_weights_spec a b) as [total [tw [mw [W [P _]]]]]. rewrite W.
  rewrite (dict_get_absent _ _ Nt), (dict_get_absent _ _ Nm). field. lra.
Qed.

Lemma ai_peak_ext (d e : dict) :
  (forall l, dict_get d l 0 = dict_get e l 0) -> ai_peak d = ai_peak e.
Proof.
  intros H. unfold ai_peak.
  now rewrite (map_ext (fun l => dict_get d l 0) (fun l => dict_get e l 0) H).
Qed.

Section Recurrence.

Variable set_union : list string -> list string -> list string.
Hypothesis set_union_ok : set_union_spec set_union.

(** Every label's smoothed score after an iteration is the moving
    average of its previous smoothed score and its fused score. *)
Lemma iteration_smoothed_get (args : Args) (st st1 : LoopState)
    (inp : FrameInput) (r : FrameResult) (l : string) :
  iteration set_union args st inp = Some (st1, r) ->
  dict_get (smoothed_scores st1) l 0
  = dict_get (smoothed_scores st) l 0 * clamp_decay (ema_decay args)
    + fuse_value (frame_text_scores args st inp) (in_model_scores inp)
                 (text_weight args) (model_weight args) l
      * (1 - clamp_decay (ema_decay args)).
Proof.
  intros E.
  destruct (iteration_fields set_union set_union_ok args st inp)
    as [st1' [r' [E' [_ [Hs _]]]]].
  rewrite E in E'. inversion E'; subst st1' r'. clear E'.
  set (text := frame_text_scores args st inp) in *.
  set (model := in_model_scores inp) in *.
  set (fused := map (fun l => (l, fuse_value text model (text_weight args)
                                             (model_weight args) l))
                    (set_union (dict_keys text) (dict_keys model))) in Hs.
  assert (Gf : dict_get fused l 0
               = fuse_value text model (text_weight args) (model_weight args) l).
  { unfold fused.
    apply (dict_get_tabulate_union set_union
             (fun l => fuse_value text model (text_weight args)
                                  (model_weight args) l)
             _ _ l set_union_ok).
    apply fuse_value_absent. }
  rewrite Hs, (smooth_scores_eq set_union set_union_ok).
  rewrite (dict_get_tabulate_union set_union
             (fun l => smooth_value (smoothed_scores st) fused (ema_decay args) l)
             _ _ l set_union_ok).
  - unfold smooth_value. now rewrite Gf.
  - intros N1 N2. unfold smooth_value.
    rewrite (dict_get_absent _ _ N1), (dict_get_absent _ _ N2). lra.
Qed.

(** With the text weight at 0, the model weight at 1 and no smoothing,
    the AI peak of an iteration is the model's. *)
Lemma model_only_iteration (st : LoopState) (inp : FrameInput) :
  exists st1 r,
    iteration set_union model_only_args st inp = Some (st1, r)
    /\ res_ai_max r = ai_peak (in_model_scores inp)
    /\ high_mode_until st1
       = fst (fps_control model_only_args (ai_peak (in_model_scores inp))
                          (in_now inp) (high_mode_until st, current_fps st))
    /\ current_fps st1
       = snd (fps_control model_only_args (ai_peak (in_model_scores inp))
                          (in_now inp) (high_mode_until st, current_fps st))
    /\ res_fps r = current_fps st1.
Proof.
  destruct (iteration_fields set_union set_union_ok model_only_args st inp)
    as [st1 [r [E [_ [_ [_ [_ [F [_ [_ [Ra [_ Rf]]]]]]]]]]]].
  exists st1, r. split; [exact E |].
  assert (P : ai_peak (smoothed_scores st1) = ai_peak (in_model_scores inp)).
  { apply ai_peak_ext. intros l.
    rewrite (iteration_smoothed_get model_only_args st st1 inp r l E).
    cbn [model_only_args ema_decay text_weight model_weight].
    unfold clamp_decay, fuse_value. rewrite fuse_weights_model_only.
    replace (py_max 0 0) with 0 by py_order.
    replace (py_min 0 0.99) with 0 by py_order.
    field. }
  rewrite P in F, Ra.
  split; [exact Ra |].
  split; [now rewrite <- F | split; [now rewrite <- F | exact Rf]].
Qed.

End Recurrence.

Lemma ai_peak_single (v : R) : 0 <= v -> ai_peak [("ai_ui"%string, v)] = v.
Proof.
  intros H. unfold ai_peak, AI_LABELS, dict_get.
  cbn [map dict_lookup String.eqb Ascii.eqb Bool.eqb].
  unfold py_max_list. cbn [fold_left].
  repeat replace (py_max 0 0) with 0 by py_order.
  py_order.
Qed.

(** The third scenario of the specification, on the code: the AI peak
    reaches the trigger at time 0, and with the peak back at 0 the loop
    still runs at the high rate at time 2.9 and is back at the base rate
    at time 3.1. *)
Example hold_scenario :
  exists st r0 r1 r2,
    run list_union model_only_args (initial_state model_only_args) hold_frames
    = Some (st, [r0; r1; r2])
    /\ res_ai_max r0 = 0.9 /\ res_fps r0 = 8
    /\ res_ai_max r1 = 0 /\ res_fps r1 = 8
    /\ res_ai_max r2 = 0 /\ res_fps r2 = 4.
Proof.
  unfold hold_frames.
  destruct (model_only_iteration list_union list_union_ok
              (initial_state model_only_args)
              (mkFrameInput 0 [] [("ai_ui"%string, 0.9)] 0))
    as [st1 [r0 [E0 [A0 [H0 [C0 F0]]]]]].
  destruct (model_only_iteration list_union list_union_ok st1
              (mkFrameInput 2.9 [] [("ai_ui"%string, 0)] 2.9))
    as [st2 [r1 [E1 [A1 [H1 [C1 F1]]]]]].
  destruct (model_only_iteration list_union list_union_ok st2
              (mkFrameInput 3.1 [] [("ai_ui"%string, 0)] 3.1))
    as [st3 [r2 [E2 [A2 [H2 [C2 F2]]]]]].
  cbn [in_model_scores in_now] in *.
  rewrite ai_peak_single in * by lra.
  exists st3, r0, r1, r2. cbn [run]. rewrite E0, E1, E2.
  split; [reflexivity |].
  unfold fps_control in H0, C0, H1, C1, H2, C2.
  cbn [fst snd model_only_args base_fps high_fps high_fps_trigger
       high_fps_return_threshold high_fps_hold_seconds initial_state
       high_mode_until current_fps] in H0, C0.
  cbn [fst snd model_only_args base_fps high_fps high_fps_trigger
       high_fps_return_threshold high_fps_hold_seconds] in H1, C1, H2, C2.
  replace (py_max 0 3) with 3 in * by py_order.
  replace (py_max 4 8) with 8 in * by py_order.
  replace (Rleb 0.20 0.9) with true in * by (symmetry; apply Rleb_true; lra).
  replace (Rleb 0.20 0) with false in * by (symmetry; apply Rleb_false; lra).
  replace (Rleb 0 0.12) with true in * by (symmetry; apply Rleb_true; lra).
  replace (Rltb 0 (0 + 3)) with true in * by (symmetry; apply Rltb_true; lra).
  rewrite H0 in H1, C1.
  replace (Rltb 2.9 (0 + 3)) with true in * by (symmetry; apply Rltb_true; lra).
  rewrite H1 in H2, C2.
  replace (Rltb 3.1 (0 + 3)) with false in * by (symmetry; apply Rltb_false; lra).
  rewrite F0, F1, F2, C0, C1, C2. repeat split; assumption || reflexivity.
Qed.

(** The hold, on that run: frame 0 reaches the trigger at time 0, frame
    1 is read at time 2.9, before the hold ends, with its AI peak back
    at 0, and still runs at the high rate. *)
Lemma hysteresis_hold_witness :
  exists st results ri rj,
    run list_union model_only_args (initial_state model_only_args) hold_frames
    = Some (st, results)
    /\ nth_error results 0 = Some ri
    /\ nth_error results 1 = Some rj
    /\ res_ai_max ri = ai_peak (res_smoothed_scores ri)
    /\ high_fps_trigger model_only_args <= res_ai_max ri
    /\ res_ai_max rj = 0
    /\ res_fps rj = Rmax (base_fps model_only_args) (high_fps model_only_args).
Proof.
  destruct (hysteresis_hold list_union model_only_args hold_frames 0 1
              (mkFrameInput 0 [] [("ai_ui"%string, 0.9)] 0)
              (mkFrameInput 2.9 [] [("ai_ui"%string, 0)] 2.9)
              list_union_ok)
    as [st [results [ri [rj [Hrun [Hi [Hj [Ha Hold]]]]]]]].
  - cbn [model_only_args high_fps_hold_seconds]. lra.
  - unfold hold_frames. cbn [map in_now]. repeat constructor; lra.
  - lia.
  - reflexivity.
  - reflexivity.
  - destruct hold_scenario as [st' [r0 [r1 [r2 [Hrun' [A0 [_ [A1 _]]]]]]]].
    rewrite Hrun' in Hrun. inversion Hrun; subst st results.
    cbn [nth_error] in Hi, Hj. inversion Hi; subst ri. inversion Hj; subst rj.
    assert (Trigger : high_fps_trigger model_only_args <= res_ai_max r0).
    { rewrite A0. cbn [model_only_args high_fps_trigger]. lra. }
    exists st', [r0; r1; r2], r0, r1.
    split; [exact Hrun' | split; [reflexivity | split; [reflexivity |]]].
    split; [exact Ha | split; [exact Trigger | split; [exact A1 |]]].
    apply Hold; [exact Trigger |].
    cbn [in_now model_only_args high_fps_hold_seconds]. lra.
Defined.

(** ** [normalize_text] *)

Ltac ascii_cases c := destruct c as [[] [] [] [] [] [] [] []].

Lemma to_lower_not_upper (c : ascii) : is_upper (to_lower c) = false.
Proof. ascii_cases c; reflexivity. Qed.

Lemma alnum_not_upper (c : ascii) :
  is_alnum c = true -> is_upper c = false -> is_digit c || is_lower c = true.
Proof. unfold is_alnum. destruct (is_digit c), (is_lower c), (is_upper c); auto. Qed.

Lemma alnum_not_space (c : ascii) : is_alnum c = true -> Ascii.eqb c " " = false.
Proof. ascii_cases c; vm_compute; congruence. Qed.

Lemma word_char_facts (c : ascii) :
  is_digit c || is_lower c = true ->
  is_space c = false /\ is_alnum c = true /\ to_lower c = c
  /\ Ascii.eqb c " " = false.
Proof. ascii_cases c; vm_compute; intros H; try discriminate H; auto. Qed.

Lemma space_char_facts (c : ascii) :
  Ascii.eqb c " " = true ->
  c = " "%char.
Proof. apply Ascii.eqb_eq. Qed.

Lemma no_upper_lower (s : string) : no_upper (lower s) = true.
Proof.
  induction s as [|c s IH]; simpl; [reflexivity |].
  now rewrite to_lower_not_upper, IH.
Qed.

Lemma no_upper_lstrip (s : string) : no_upper s = true -> no_upper (lstrip s) = true.
Proof.
  induction s as [|c s IH]; simpl; [auto |].
  intros H. apply andb_true_iff in H. destruct H as [H1 H2].
  destruct (is_space c); [auto |]. simpl. now rewrite H1, H2.
Qed.

Lemma no_upper_rstrip (s : string) : no_upper s = true -> no_upper (rstrip s) = true.
Proof.
  induction s as [|c s IH]; simpl; [auto |].
  intros H. apply andb_true_iff in H. destruct H as [H1 H2].
  specialize (IH H2). destruct (rstrip s) as [|c' r].
  - destruct (is_space c); simpl; [reflexivity | now rewrite H1].
  - cbn [no_upper] in *. now rewrite H1, IH.
Qed.

Lemma spaced_alnum_sub (s : string) (in_run : bool) :
  no_upper s = true -> spaced in_run (alnum_sub in_run s) = true.
Proof.
  revert in_run; induction s as [|c s IH]; intros in_run H; [reflexivity |].
  cbn [no_upper] in H. apply andb_true_iff in H. destruct H as [H1 H2].
  apply negb_true_iff in H1. cbn [alnum_sub].
  destruct (is_alnum c) eqn:A.
  - cbn [spaced]. rewrite (alnum_not_space c A), (alnum_not_upper c A H1).
    now rewrite IH.
  - destruct in_run; [now apply IH |].
    cbn [spaced]. rewrite Ascii.eqb_refl. cbn [negb andb]. now apply IH.
Qed.

Lemma spaced_lstrip (s : string) (p : bool) :
  spaced p s = true -> spaced true (lstrip s) = true.
Proof.
  revert p; induction s as [|c s IH]; intros p H; [reflexivity |].
  cbn [spaced] in H. cbn [lstrip].
  destruct (Ascii.eqb c " ") eqn:E.
  - apply Ascii.eqb_eq in E. subst c.
    apply andb_true_iff in H. destruct H as [_ H].
    change (is_space " ") with true. cbn iota. now apply (IH true).
  - apply andb_true_iff in H. destruct H as [W H].
    destruct (word_char_facts c W) as [Sp _]. rewrite Sp.
    cbn [spaced]. now rewrite E, W, H.
Qed.

Lemma spaced_rstrip (s : string) (p : bool) :
  spaced p s = true -> spaced p (rstrip s) = true.
Proof.
  revert p; induction s as [|c s IH]; intros p H; [reflexivity |].
  cbn [spaced] in H. cbn [rstrip].
  destruct (Ascii.eqb c " ") eqn:E.
  - apply andb_true_iff in H. destruct H as [Hp H].
    specialize (IH true H). destruct (rstrip s) as [|c' r].
    + apply Ascii.eqb_eq in E. subst c. reflexivity.
    + cbn [spaced] in *. now rewrite E, Hp, IH.
  - apply andb_true_iff in H. destruct H as [W H].
    specialize (IH false H). destruct (rstrip s) as [|c' r].
    + destruct (word_char_facts c W) as [Sp _]. rewrite Sp.
      cbn [spaced]. now rewrite E, W.
    + cbn [spaced] in *. now rewrite E, W, IH.
Qed.

Lemma rstrip_no_trailing_space (s : string) : ends_with_space (rstrip s) = false.
Proof.
  induction s as [|c s IH]; [reflexivity |].
  cbn [rstrip]. destruct (rstrip s) as [|c' r] eqn:R.
  - destruct (is_space c) eqn:Sp; [reflexivity |].
    cbn [ends_with_space]. destruct (Ascii.eqb c " ") eqn:E; [| reflexivity].
    apply Ascii.eqb_eq in E. subst c. discriminate Sp.
  - exact IH.
Qed.

Lemma normalize_text_shape (value : string) :
  is_normalized (normalize_text value) = true.
Proof.
  unfold is_normalized, normalize_text, strip.
  rewrite rstrip_no_trailing_space.
  rewrite (spaced_rstrip _ true); [reflexivity |].
  apply (spaced_lstrip _ false). apply spaced_alnum_sub.
  apply no_upper_rstrip, no_upper_lstrip, no_upper_lower.
Qed.

Lemma spaced_lower (s : string) (p : bool) : spaced p s = true -> lower s = s.
Proof.
  revert p; induction s as [|c s IH]; intros p H; [reflexivity |].
  cbn [spaced] in H. cbn [lower].
  destruct (Ascii.eqb c " ") eqn:E.
  - apply Ascii.eqb_eq in E. subst c.
    apply andb_true_iff in H. destruct H as [_ H].
    now rewrite (IH true H).
  - apply andb_true_iff in H. destruct H as [W H].
    destruct (word_char_facts c W) as [_ [_ [L _]]].
    now rewrite L, (IH false H).
Qed.

Lemma spaced_lstrip_id (s : string) : spaced true s = true -> lstrip s = s.
Proof.
  destruct s as [|c s]; [reflexivity |]. cbn [spaced lstrip].
  destruct (Ascii.eqb c " "); [discriminate |].
  intros H. apply andb_true_iff in H. destruct H as [W _].
  destruct (word_char_facts c W) as [Sp _]. now rewrite Sp.
Qed.

Lemma spaced_rstrip_id (s : string) (p : bool) :
  spaced p s = true -> ends_with_space s = false -> rstrip s = s.
Proof.
  revert p; induction s as [|c s IH]; intros p H T; [reflexivity |].
  cbn [rstrip]. cbn [spaced] in H.
  destruct s as [|c' s'].
  - cbn [rstrip]. cbn [ends_with_space] in T. rewrite T in H.
    apply andb_true_iff in H. destruct H as [W _].
    destruct (word_char_facts c W) as [Sp _]. now rewrite Sp.
  - assert (R : rstrip (String c' s') = String c' s').
    { destruct (Ascii.eqb c " ");
        apply andb_true_iff in H; destruct H as [_ H];
        [apply (IH true) | apply (IH false)]; auto. }
    now rewrite R.
Qed.

Lemma spaced_alnum_sub_id (s : string) (p : bool) :
  spaced p s = true -> alnum_sub p s = s.
Proof.
  revert p; induction s as [|c s IH]; intros p H; [reflexivity |].
  cbn [spaced] in H. cbn [alnum_sub].
  destruct (Ascii.eqb c " ") eqn:E.
  - apply Ascii.eqb_eq in E. subst c.
    apply andb_true_iff in H. destruct H as [Hp H].
    apply negb_true_iff in Hp. subst p.
    change (is_alnum " ") with false. cbn iota. now rewrite (IH true H).
  - apply andb_true_iff in H. destruct H as [W H].
    destruct (word_char_facts c W) as [_ [A _]]. rewrite A.
    now rewrite (IH false H).
Qed.

Lemma spaced_weaken (s : string) : spaced true s = true -> spaced false s = true.
Proof.
  destruct s as [|c s]; [reflexivity |]. cbn [spaced].
  destruct (Ascii.eqb c " "); [discriminate | auto].
Qed.

Lemma normalize_text_fixed (s : string) :
  is_normalized s = true -> normalize_text s = s.
Proof.
  unfold is_normalized. intros H. apply andb_true_iff in H.
  destruct H as [Sp T]. apply negb_true_iff in T.
  unfold normalize_text, strip.
  rewrite (spaced_lower s true Sp), (spaced_lstrip_id s Sp).
  rewrite (spaced_rstrip_id s true Sp T).
  rewrite (spaced_alnum_sub_id s false (spaced_weaken s Sp)).
  now rewrite (spaced_lstrip_id s Sp), (spaced_rstrip_id s true Sp T).
Qed.

(** X1.  For every text of the model, that is every text whose code
    points are below 256, [normalize_text] returns words of digits and
    letters [a] to [z] with one space between two words and no space at
    either end; and a text of that shape is returned as it is, so
    normalizing twice is normalizing once.  (Beyond code point 255 the
    shape is another: the code keeps U+0131 and U+017F, which the
    pattern takes for letters.) *)
Theorem normalize_text_normal_form (value : string) :
  is_normalized (normalize_text value) = true
  /\ normalize_text (normalize_text value) = normalize_text value
  /\ (forall s, is_normalized s = true -> normalize_text s = s).
Proof.
  split; [apply normalize_text_shape | split].
  - apply normalize_text_fixed, normalize_text_shape.
  - apply normalize_text_fixed.
Qed.

(** ** Hits without a keyword, and the matched hits *)

Lemma match_keyword_not_found (hit : OcrHit) (normalized label keyword : string)
    (st : dict * option MatchedHit) :
  keyword_found normalized keyword = false ->
  match_keyword hit normalized label st keyword = st.
Proof.
  unfold keyword_found, match_keyword.
  destruct (is_empty (normalize_text keyword)); [reflexivity |].
  cbn [negb andb]. now intros ->.
Qed.

Lemma match_keyword_snd (hit : OcrHit) (normalized label keyword : string)
    (st : dict * option MatchedHit) :
  snd (match_keyword hit normalized label st keyword)
  = if keyword_found normalized keyword
    then pick_best (snd st) (match_entry hit label keyword)
    else snd st.
Proof.
  unfold keyword_found, match_keyword.
  destruct (is_empty (normalize_text keyword)); [reflexivity |].
  cbn [negb andb].
  destruct (contains normalized (normalize_text keyword)); reflexivity.
Qed.

Lemma match_label_snd (hit : OcrHit) (normalized : string)
    (item : string * list string) (st : dict * option MatchedHit) :
  snd (match_label hit normalized st item)
  = fold_left pick_best
      (map (match_entry hit (fst item))
           (filter (keyword_found normalized) (snd item)))
      (snd st).
Proof.
  unfold match_label. destruct item as [label keywords]. cbn [fst snd].
  revert st; induction keywords as [|k ks IH]; intros st; [reflexivity |].
  cbn [fold_left filter]. rewrite IH, match_keyword_snd.
  destruct (keyword_found normalized k); reflexivity.
Qed.

Lemma match_table_snd (hit : OcrHit) (normalized : string)
    (table : list (string * list string)) (st : dict * option MatchedHit) :
  snd (fold_left (match_label hit normalized) table st)
  = fold_left pick_best (hit_candidates hit normalized table) (snd st).
Proof.
  unfold hit_candidates.
  revert st; induction table as [|item table IH]; intros st; [reflexivity |].
  cbn [fold_left flat_map]. rewrite IH, match_label_snd.
  now rewrite fold_left_app.
Qed.

Lemma match_table_fst_no_candidate (hit : OcrHit) (normalized : string)
    (table : list (string * list string)) (st : dict * option MatchedHit) :
  existsb (fun item => existsb (keyword_found normalized) (snd item)) table = false ->
  fold_left (match_label hit normalized) table st = st.
Proof.
  revert st; induction table as [|[label keywords] table IH]; intros st H;
    [reflexivity |].
  cbn [existsb snd] in H. apply orb_false_iff in H. destruct H as [H1 H2].
  cbn [fold_left]. rewrite IH by exact H2.
  unfold match_label. cbn [fst snd]. clear IH H2.
  revert st; induction keywords as [|k ks IHk]; intros st; [reflexivity |].
  cbn [existsb] in H1. apply orb_false_iff in H1. destruct H1 as [Hk Hks].
  cbn [fold_left]. rewrite match_keyword_not_found by exact Hk. now apply IHk.
Qed.

Lemma score_hit_ignored (st : dict * list MatchedHit) (hit : OcrHit) :
  mentions_keyword hit = false -> score_hit st hit = st.
Proof.
  unfold mentions_keyword, score_hit.
  destruct (is_empty (normalize_text (ocr_text hit))); [reflexivity |].
  cbn [negb andb]. intros H.
  rewrite match_table_fst_no_candidate by exact H.
  cbn [fst snd]. now destruct st.
Qed.

(** X2.  A hit whose text is empty after normalization, or holds no
    keyword, counts for nothing: taken out of the list, it leaves both
    the text scores and the matched hits as they were. *)
Theorem score_text_hits_ignores_plain_hits
    (pre post : list OcrHit) (hit : OcrHit) (keyword_gain : R) :
  mentions_keyword hit = false ->
  score_text_hits (pre ++ hit :: post) keyword_gain
  = score_text_hits (pre ++ post) keyword_gain.
Proof.
  intros H. unfold score_text_hits.
  rewrite !fold_left_app. cbn [fold_left].
  now rewrite score_hit_ignored by exact H.
Qed.

Lemma score_text_hits_ignores_plain_hits_witness :
  score_text_hits
    ([mkOcrHit "ChatGPT" 0.9 (0, 0, 10, 10)%Z]
       ++ mkOcrHit "File  Edit  View" 0.8 (0, 20, 10, 30)%Z
       :: [mkOcrHit "ask claude" 0.7 (0, 40, 10, 50)%Z]) 0.7
  = score_text_hits
      ([mkOcrHit "ChatGPT" 0.9 (0, 0, 10, 10)%Z]
         ++ [mkOcrHit "ask claude" 0.7 (0, 40, 10, 50)%Z]) 0.7.
Proof.
  apply (score_text_hits_ignores_plain_hits
           [mkOcrHit "ChatGPT" 0.9 (0, 0, 10, 10)%Z]
           [mkOcrHit "ask claude" 0.7 (0, 40, 10, 50)%Z]
           (mkOcrHit "File  Edit  View" 0.8 (0, 20, 10, 30)%Z) 0.7).
  vm_compute. reflexivity.
Defined.

Lemma fold_score_hit_plain (hits : list OcrHit) (st : dict * list MatchedHit) :
  Forall (fun hit => mentions_keyword hit = false) hits ->
  fold_left score_hit hits st = st.
Proof.
  intros H. revert st. induction H as [|hit hits Hh _ IH]; intros st; [reflexivity |].
  cbn [fold_left]. rewrite score_hit_ignored by exact Hh. apply IH.
Qed.

(** X3.  When no hit of the list holds a keyword, [score_text_hits]
    returns what it returns for the empty list: every AI label at 0,
    [not_ai_ui] at 1 and no matched hit; and [decide_label] then answers
    [not_ai_ui] with confidence 1 for every positive threshold. *)
Theorem score_text_hits_without_keyword (hits : list OcrHit)
    (keyword_gain label_threshold : R) :
  Forall (fun hit => mentions_keyword hit = false) hits ->
  0 < label_threshold ->
  score_text_hits hits keyword_gain = (idle_text_scores, [])
  /\ decide_label (fst (score_text_hits hits keyword_gain)) label_threshold
     = (NOT_AI_LABEL, 1).
Proof.
  intros H Hthr.
  assert (E : score_text_hits hits keyword_gain = (idle_text_scores, [])).
  { assert (E0 : score_text_hits hits keyword_gain = score_text_hits [] keyword_gain).
    { unfold score_text_hits. now rewrite (fold_score_hit_plain hits _ H). }
    rewrite E0. rewrite (surjective_pairing (score_text_hits [] keyword_gain)).
    f_equal. apply text_scores_empty. }
  split; [exact E |]. rewrite E. cbn [fst].
  destruct (decide_label_cases idle_text_scores label_threshold)
    as [[Hno _] | [best [bs [Bk [Bai [Bl [_ [[Hge _] | [_ Hd]]]]]]]]].
  - exfalso. apply (Hno "ai_ui"%string).
    + rewrite idle_text_keys. apply in_or_app. left. apply mem_In. reflexivity.
    + apply mem_In. reflexivity.
  - exfalso. pose proof (idle_text_get best) as G. unfold dict_get in G.
    rewrite Bl, (NOT_AI_LABEL_neq best Bai) in G. lra.
  - rewrite Hd. reflexivity.
Qed.

Lemma score_text_hits_without_keyword_witness :
  score_text_hits [mkOcrHit "File  Edit  View" 0.8 (0, 20, 10, 30)%Z;
                   mkOcrHit "--" 0.5 (0, 40, 10, 50)%Z] 0.7
  = (idle_text_scores, [])
  /\ decide_label
       (fst (score_text_hits [mkOcrHit "File  Edit  View" 0.8 (0, 20, 10, 30)%Z;
                              mkOcrHit "--" 0.5 (0, 40, 10, 50)%Z] 0.7)) 0.2
     = (NOT_AI_LABEL, 1).
Proof.
  apply (score_text_hits_without_keyword
           [mkOcrHit "File  Edit  View" 0.8 (0, 20, 10, 30)%Z;
            mkOcrHit "--" 0.5 (0, 40, 10, 50)%Z] 0.7 0.2).
  - repeat constructor.
  - lra.
Defined.

Lemma fold_pick_some (cands : list MatchedHit) (b : MatchedHit) :
  exists m,
    fold_left pick_best cands (Some b) = Some m
    /\ In m (b :: cands)
    /\ forall e, In e (b :: cands) -> mh_score e <= mh_score m.
Proof.
  revert b; induction cands as [|c cs IH]; intros b.
  - exists b. split; [reflexivity | split; [now left |]].
    intros e [<- | []]. lra.
  - cbn [fold_left pick_best].
    destruct (Rltb (mh_score b) (mh_score c)) eqn:E.
    + apply Rltb_true in E. destruct (IH c) as [m [F [I U]]].
      exists m. split; [exact F | split; [now right |]].
      intros e [<- | Ie]; [| now apply U].
      pose proof (U c (or_introl eq_refl)). lra.
    + apply Rltb_false in E. destruct (IH b) as [m [F [I U]]].
      exists m. split; [exact F | split].
      * destruct I as [<- | I]; [now left | now right; right].
      * intros e [<- | [<- | Ie]].
        -- apply U. now left.
        -- pose proof (U b (or_introl eq_refl)). lra.
        -- apply U. now right.
Qed.

Lemma fold_pick_none (cands : list MatchedHit) :
  (cands = [] /\ fold_left pick_best cands None = None)
  \/ (exists m,
        fold_left pick_best cands None = Some m
        /\ In m cands
        /\ forall e, In e cands -> mh_score e <= mh_score m).
Proof.
  destruct cands as [|c cs]; [left; now split | right].
  cbn [fold_left pick_best]. apply fold_pick_some.
Qed.

Lemma hit_candidates_In (hit : OcrHit) (normalized : string)
    (table : list (string * list string)) (e : MatchedHit) :
  In e (hit_candidates hit normalized table)
  <-> exists label keywords keyword,
        In (label, keywords) table /\ In keyword keywords
        /\ keyword_found normalized keyword = true
        /\ e = match_entry hit label keyword.
Proof.
  unfold hit_candidates. rewrite in_flat_map. split.
  - intros [[label keywords] [It Ie]]. cbn [fst snd] in Ie.
    apply in_map_iff in Ie. destruct Ie as [keyword [<- Ik]].
    apply filter_In in Ik. destruct Ik as [Ik Fk].
    now exists label, keywords, keyword.
  - intros [label [keywords [keyword [It [Ik [Fk ->]]]]]].
    exists (label, keywords). split; [exact It |]. cbn [fst snd].
    apply in_map. apply filter_In. now split.
Qed.

Lemma hit_candidates_nil (hit : OcrHit) (normalized : string)
    (table : list (string * list string)) :
  existsb (fun item => existsb (keyword_found normalized) (snd item)) table = false
  <-> hit_candidates hit normalized table = [].
Proof.
  unfold hit_candidates.
  induction table as [|[label keywords] table IH]; [now split |].
  cbn [existsb flat_map fst snd]. rewrite orb_false_iff, IH. split.
  - intros [H1 H2]. rewrite H2, app_nil_r.
    induction keywords as [|k ks IHk]; [reflexivity |].
    cbn [existsb] in H1. apply orb_false_iff in H1. destruct H1 as [Hk Hks].
    cbn [filter]. rewrite Hk. now apply IHk.
  - intros H. apply app_eq_nil in H. destruct H as [H1 H2]. split; [| exact H2].
    induction keywords as [|k ks IHk]; [reflexivity |].
    cbn [existsb filter] in *. destruct (keyword_found normalized k).
    + discriminate H1.
    + cbn [orb]. now apply IHk.
Qed.

Lemma best_match_None (hit : OcrHit) :
  best_match hit = None <-> mentions_keyword hit = false.
Proof.
  unfold best_match, mentions_keyword.
  destruct (is_empty (normalize_text (ocr_text hit))); [now split |].
  cbn [negb andb]. rewrite (hit_candidates_nil hit). split.
  - intros H. destruct (fold_pick_none (hit_candidates hit
                          (normalize_text (ocr_text hit)) LABEL_KEYWORDS))
      as [[E _] | [m [F _]]]; [exact E | congruence].
  - now intros ->.
Qed.

Lemma score_hit_snd (st : dict * list MatchedHit) (hit : OcrHit) :
  snd (score_hit st hit)
  = snd st ++ match best_match hit with Some m => [m] | None => [] end.
Proof.
  unfold score_hit, best_match.
  destruct (is_empty (normalize_text (ocr_text hit))); [now rewrite app_nil_r |].
  cbn [snd]. rewrite match_table_snd. cbn [snd].
  destruct (fold_left pick_best _ None); [reflexivity | now rewrite app_nil_r].
Qed.

Lemma fold_score_hit_snd (hits : list OcrHit) (st : dict * list MatchedHit) :
  snd (fold_left score_hit hits st)
  = snd st ++ flat_map (fun hit => match best_match hit with
                                   | Some m => [m]
                                   | None => []
                                   end) hits.
Proof.
  revert st; induction hits as [|hit hits IH]; intros st.
  - cbn. now rewrite app_nil_r.
  - cbn [fold_left flat_map]. rewrite IH, score_hit_snd. now rewrite app_assoc.
Qed.

Lemma matched_eq (hits : list OcrHit) (keyword_gain : R) :
  snd (score_text_hits hits keyword_gain)
  = flat_map (fun hit => match best_match hit with
                         | Some m => [m]
                         | None => []
                         end) hits.
Proof.
  unfold score_text_hits. cbn [snd]. now rewrite fold_score_hit_snd.
Qed.

Lemma best_match_Some (hit : OcrHit) (m : MatchedHit) :
  best_match hit = Some m ->
  exists label keywords keyword,
    In (label, keywords) LABEL_KEYWORDS /\ In keyword keywords
    /\ keyword_found (normalize_text (ocr_text hit)) keyword = true
    /\ m = match_entry hit label keyword
    /\ forall label' keywords' keyword',
         In (label', keywords') LABEL_KEYWORDS -> In keyword' keywords' ->
         keyword_found (normalize_text (ocr_text hit)) keyword' = true ->
         mh_score (match_entry hit label' keyword') <= mh_score m.
Proof.
  unfold best_match.
  destruct (is_empty (normalize_text (ocr_text hit))); [discriminate |].
  intros H.
  destruct (fold_pick_none (hit_candidates hit (normalize_text (ocr_text hit))
                                           LABEL_KEYWORDS))
    as [[_ N] | [m' [F [I U]]]]; [congruence |].
  rewrite F in H. inversion H; subst m'.
  apply hit_candidates_In in I.
  destruct I as [label [keywords [keyword [It [Ik [Fk E]]]]]].
  exists label, keywords, keyword.
  split; [exact It | split; [exact Ik | split; [exact Fk | split; [exact E |]]]].
  intros label' keywords' keyword' It' Ik' Fk'. apply U.
  apply hit_candidates_In. now exists label', keywords', keyword'.
Qed.

(** X4.  The matched hits are the hits that hold a keyword, one entry for
    each, in the order of the hits, with the hit's own text, confidence
    and box. *)
Theorem matched_hits_follow_hits (hits : list OcrHit) (keyword_gain : R) :
  map (fun m => (mh_text m, mh_confidence m, mh_bbox m))
      (snd (score_text_hits hits keyword_gain))
  = map (fun hit => (ocr_text hit, ocr_confidence hit, ocr_bbox hit))
        (filter mentions_keyword hits).
Proof.
  rewrite matched_eq.
  induction hits as [|hit hits IH]; [reflexivity |].
  cbn [flat_map filter]. rewrite map_app, IH.
  destruct (best_match hit) as [m|] eqn:B.
  - assert (M : mentions_keyword hit = true).
    { destruct (mentions_keyword hit) eqn:M; [reflexivity |].
      apply best_match_None in M. congruence. }
    rewrite M.
    destruct (best_match_Some hit m B) as [label [kws [kw [_ [_ [_ [-> _]]]]]]].
    reflexivity.
  - apply best_match_None in B. now rewrite B.
Qed.

Lemma keyword_weight_range (key_norm : string) :
  0.35 <= keyword_weight key_norm <= 1.
Proof.
  unfold keyword_weight.
  pose proof (pos_INR (String.length key_norm)).
  assert (0 <= INR (String.length key_norm) / 16) by lra.
  py_order.
Qed.

(** X5.  Every matched hit is a true best match: its label is an AI
    label and its keyword one of that label's keywords; the keyword,
    normalized, occurs in the normalized text; its score is the
    confidence times the keyword's weight, a weight between 0.35 and 1;
    and no keyword of the table found in the same text scores higher. *)
Theorem matched_hit_is_best_match (hits : list OcrHit) (keyword_gain : R)
    (m : MatchedHit) :
  In m (snd (score_text_hits hits keyword_gain)) ->
  In (mh_label m) AI_LABELS
  /\ (exists keywords,
        In (mh_label m, keywords) LABEL_KEYWORDS /\ In (mh_keyword m) keywords)
  /\ keyword_found (normalize_text (mh_text m)) (mh_keyword m) = true
  /\ mh_score m = mh_confidence m * keyword_weight (normalize_text (mh_keyword m))
  /\ 0.35 <= keyword_weight (normalize_text (mh_keyword m)) <= 1
  /\ (forall label keywords keyword,
        In (label, keywords) LABEL_KEYWORDS -> In keyword keywords ->
        keyword_found (normalize_text (mh_text m)) keyword = true ->
        mh_confidence m * keyword_weight (normalize_text keyword) <= mh_score m).
Proof.
  rewrite matched_eq. intros I. apply in_flat_map in I.
  destruct I as [hit [_ I]].
  destruct (best_match hit) as [m'|] eqn:B; [| destruct I].
  destruct I as [<- | []].
  destruct (best_match_Some hit m' B)
    as [label [kws [kw [It [Ik [Fk [-> U]]]]]]].
  cbn [match_entry mh_label mh_keyword mh_text mh_score mh_confidence].
  split.
  { change AI_LABELS with (map fst LABEL_KEYWORDS).
    apply (in_map fst LABEL_KEYWORDS (label, kws) It). }
  split; [now exists kws |].
  split; [exact Fk | split; [reflexivity | split; [apply keyword_weight_range |]]].
  intros label' kws' kw' It' Ik' Fk'. apply (U label' kws' kw' It' Ik' Fk').
Qed.

Lemma matched_hit_is_best_match_witness :
  let m := match_entry (mkOcrHit "Ask ChatGPT" 0.9 (0, 0, 10, 10)%Z)
                       "chatgpt_ui" "chatgpt" in
  In (mh_label m) AI_LABELS
  /\ (exists keywords,
        In (mh_label m, keywords) LABEL_KEYWORDS /\ In (mh_keyword m) keywords)
  /\ keyword_found (normalize_text (mh_text m)) (mh_keyword m) = true
  /\ mh_score m = mh_confidence m * keyword_weight (normalize_text (mh_keyword m))
  /\ 0.35 <= keyword_weight (normalize_text (mh_keyword m)) <= 1
  /\ (forall label keywords keyword,
        In (label, keywords) LABEL_KEYWORDS -> In keyword keywords ->
        keyword_found (normalize_text (mh_text m)) keyword = true ->
        mh_confidence m * keyword_weight (normalize_text keyword) <= mh_score m).
Proof.
  intros m.
  apply (matched_hit_is_best_match
           [mkOcrHit "Ask ChatGPT" 0.9 (0, 0, 10, 10)%Z] 0.7 m).
  rewrite matched_eq. cbn [flat_map]. rewrite app_nil_r.
  assert (B : best_match (mkOcrHit "Ask ChatGPT" 0.9 (0, 0, 10, 10)%Z) = Some m).
  { unfold best_match. cbn [ocr_text].
    change (normalize_text "Ask ChatGPT") with "ask chatgpt"%string.
    cbn [is_empty].
    change (hit_candidates (mkOcrHit "Ask ChatGPT" 0.9 (0, 0, 10, 10)%Z)
                           "ask chatgpt" LABEL_KEYWORDS)
      with [m].
    reflexivity. }
  rewrite B. now left.
Defined.

(** ** More on [smooth_scores], [fuse_scores] and [decide_label] *)

Section VectorFacts.

Variable set_union : list string -> list string -> list string.
Hypothesis set_union_ok : set_union_spec set_union.

Lemma smooth_scores_get (previous current : dict) (decay : R) (l : string) :
  dict_get (smooth_scores set_union previous current decay) l 0
  = smooth_value previous current decay l.
Proof.
  rewrite (smooth_scores_eq set_union set_union_ok).
  apply (dict_get_tabulate_union set_union
           (fun l => smooth_value previous current decay l) _ _ l set_union_ok).
  intros N1 N2. unfold smooth_value.
  rewrite (dict_get_absent _ _ N1), (dict_get_absent _ _ N2). lra.
Qed.

Lemma smooth_scores_keys (previous current : dict) (decay : R) (l : string) :
  In l (dict_keys (smooth_scores set_union previous current decay))
  <-> In l (dict_keys previous) \/ In l (dict_keys current).
Proof.
  rewrite (smooth_scores_eq set_union set_union_ok), dict_keys_tabulate.
  apply set_union_ok.
Qed.

Lemma fuse_scores_get (text model : dict) (a b : R) :
  exists fused,
    fuse_scores set_union text model a b = Some fused
    /\ (forall l, dict_get fused l 0 = fuse_value text model a b l)
    /\ (forall l, In l (dict_keys fused)
                  <-> In l (dict_keys text) \/ In l (dict_keys model))
    /\ NoDup (dict_keys fused).
Proof.
  rewrite (fuse_scores_eq set_union set_union_ok).
  eexists. split; [reflexivity | split; [| split]].
  - intros l.
    apply (dict_get_tabulate_union set_union
             (fun l => fuse_value text model a b l) _ _ l set_union_ok).
    apply fuse_value_absent.
  - intros l. now apply fused_keys.
  - rewrite dict_keys_tabulate. apply set_union_ok.
Qed.

Lemma smooth_repeat_gap (n : nat) (previous current : dict) (decay : R) (l : string) :
  dict_get (smooth_repeat set_union n previous current decay) l 0
  - dict_get current l 0
  = clamp_decay decay ^ n * (dict_get previous l 0 - dict_get current l 0).
Proof.
  induction n as [|n IH]; cbn [smooth_repeat pow]; [lra |].
  rewrite smooth_scores_get. unfold smooth_value.
  replace (dict_get (smooth_repeat set_union n previous current decay) l 0)
    with (dict_get current l 0
          + clamp_decay decay ^ n * (dict_get previous l 0 - dict_get current l 0))
    by lra.
  ring.
Qed.

End VectorFacts.

(** X6.  With a decay of zero or less [smooth_scores] forgets the
    previous vector: every label gets its current score, 0 if the current
    vector has none; the keys of the previous vector stay as keys. *)
Theorem smooth_scores_without_memory
    (set_union : list string -> list string -> list string)
    (previous current : dict) (decay : R) :
  set_union_spec set_union ->
  decay <= 0 ->
  (forall l, dict_get (smooth_scores set_union previous current decay) l 0
             = dict_get current l 0)
  /\ (forall l, In l (dict_keys (smooth_scores set_union previous current decay))
                <-> In l (dict_keys previous) \/ In l (dict_keys current))
  /\ NoDup (dict_keys (smooth_scores set_union previous current decay)).
Proof.
  intros Hsu Hd. split; [| split].
  - intros l. rewrite (smooth_scores_get set_union Hsu). unfold smooth_value.
    replace (clamp_decay decay) with 0 by (unfold clamp_decay; py_order). lra.
  - intros l. now apply smooth_scores_keys.
  - rewrite (smooth_scores_eq set_union Hsu), dict_keys_tabulate. apply Hsu.
Qed.

Lemma smooth_scores_without_memory_witness :
  (forall l, dict_get (smooth_scores list_union [("ai_ui"%string, 0.9)]
                                     [("claude_ui"%string, 0.4)] 0) l 0
             = dict_get [("claude_ui"%string, 0.4)] l 0)
  /\ (forall l, In l (dict_keys (smooth_scores list_union [("ai_ui"%string, 0.9)]
                                               [("claude_ui"%string, 0.4)] 0))
                <-> In l (dict_keys [("ai_ui"%string, 0.9)])
                    \/ In l (dict_keys [("claude_ui"%string, 0.4)]))
  /\ NoDup (dict_keys (smooth_scores list_union [("ai_ui"%string, 0.9)]
                                     [("claude_ui"%string, 0.4)] 0)).
Proof.
  apply (smooth_scores_without_memory list_union [("ai_ui"%string, 0.9)]
                                      [("claude_ui"%string, 0.4)] 0).
  - exact list_union_ok.
  - lra.
Defined.

(** X7.  Smoothing the same current vector again and again closes the
    gap geometrically: after [n] steps every label is away from its
    current score by the first gap times the [n]-th power of the clamped
    decay, so by at most [0.99^n] times the first gap, whatever the decay
    asked for. *)
Theorem smooth_scores_converges
    (set_union : list string -> list string -> list string)
    (n : nat) (previous current : dict) (decay : R) (label : string) :
  set_union_spec set_union ->
  dict_get (smooth_repeat set_union n previous current decay) label 0
  - dict_get current label 0
  = clamp_decay decay ^ n * (dict_get previous label 0 - dict_get current label 0)
  /\ Rabs (dict_get (smooth_repeat set_union n previous current decay) label 0
           - dict_get current label 0)
     <= 0.99 ^ n * Rabs (dict_get previous label 0 - dict_get current label 0).
Proof.
  intros Hsu. pose proof (smooth_repeat_gap set_union Hsu n previous current
                                            decay label) as G.
  split; [exact G |]. rewrite G, Rabs_mult.
  apply Rmult_le_compat_r; [apply Rabs_pos |].
  pose proof (clamp_decay_range decay) as [L U].
  rewrite Rabs_right by (apply Rle_ge, pow_le, L).
  apply pow_incr. split; assumption.
Qed.

Lemma smooth_scores_converges_witness :
  dict_get (smooth_repeat list_union 3 [] [("ai_ui"%string, 0.9)] 0.65) "ai_ui" 0
  - dict_get [("ai_ui"%string, 0.9)] "ai_ui" 0
  = clamp_decay 0.65 ^ 3 * (dict_get [] "ai_ui" 0
                            - dict_get [("ai_ui"%string, 0.9)] "ai_ui" 0)
  /\ Rabs (dict_get (smooth_repeat list_union 3 [] [("ai_ui"%string, 0.9)] 0.65)
                    "ai_ui" 0
           - dict_get [("ai_ui"%string, 0.9)] "ai_ui" 0)
     <= 0.99 ^ 3 * Rabs (dict_get [] "ai_ui" 0
                         - dict_get [("ai_ui"%string, 0.9)] "ai_ui" 0).
Proof.
  apply (smooth_scores_converges list_union 3 [] [("ai_ui"%string, 0.9)] 0.65
                                 "ai_ui").
  exact list_union_ok.
Defined.

Lemma fuse_value_between (text model : dict) (a b : R) (l : string) :
  Rmin (dict_get text l 0) (dict_get model l 0)
  <= fuse_value text model a b l
  <= Rmax (dict_get text l 0) (dict_get model l 0).
Proof.
  unfold fuse_value.
  destruct (fuse_weights_spec a b) as [total [tw [mw [W [P [Ht [Hm E]]]]]]].
  rewrite W.
  set (t := dict_get text l 0). set (m := dict_get model l 0).
  pose proof (Rmin_l t m). pose proof (Rmin_r t m).
  pose proof (Rmax_l t m). pose proof (Rmax_r t m).
  assert (Lo : Rmin t m * total <= t * tw + m * mw) by nra.
  assert (Hi : t * tw + m * mw <= Rmax t m * total) by nra.
  assert (I : 0 < / total) by now apply Rinv_0_lt_compat.
  split.
  - apply Rmult_le_reg_r with total; [exact P |].
    unfold Rdiv. rewrite Rmult_assoc, Rinv_l by lra. lra.
  - apply Rmult_le_reg_r with total; [exact P |].
    unfold Rdiv. rewrite Rmult_assoc, Rinv_l by lra. lra.
Qed.

(** X8.  [fuse_scores] never divides by zero, whatever the weights: it
    returns a vector over the union of the two key sets, each key once,
    and the fused score of a label lies between its text score and its
    model score (0 standing for a missing one). *)
Theorem fuse_scores_is_a_mean
    (set_union : list string -> list string -> list string)
    (text_scores model_scores : dict) (text_weight model_weight : R) :
  set_union_spec set_union ->
  exists fused,
    fuse_scores set_union text_scores model_scores text_weight model_weight
    = Some fused
    /\ NoDup (dict_keys fused)
    /\ (forall l, In l (dict_keys fused)
                  <-> In l (dict_keys text_scores) \/ In l (dict_keys model_scores))
    /\ (forall l,
          Rmin (dict_get text_scores l 0) (dict_get model_scores l 0)
          <= dict_get fused l 0
          <= Rmax (dict_get text_scores l 0) (dict_get model_scores l 0)).
Proof.
  intros Hsu.
  destruct (fuse_scores_get set_union Hsu text_scores model_scores
                            text_weight model_weight) as [fused [E [G [K N]]]].
  exists fused. split; [exact E | split; [exact N | split; [exact K |]]].
  intros l. rewrite G. apply fuse_value_between.
Qed.

Lemma fuse_scores_is_a_mean_witness :
  exists fused,
    fuse_scores list_union [("ai_ui"%string, 0.4)] [("ai_ui"%string, 0.9)] 0 0
    = Some fused
    /\ NoDup (dict_keys fused)
    /\ (forall l, In l (dict_keys fused)
                  <-> In l (dict_keys [("ai_ui"%string, 0.4)])
                      \/ In l (dict_keys [("ai_ui"%string, 0.9)]))
    /\ (forall l,
          Rmin (dict_get [("ai_ui"%string, 0.4)] l 0)
               (dict_get [("ai_ui"%string, 0.9)] l 0)
          <= dict_get fused l 0
          <= Rmax (dict_get [("ai_ui"%string, 0.4)] l 0)
                  (dict_get [("ai_ui"%string, 0.9)] l 0)).
Proof.
  apply (fuse_scores_is_a_mean list_union [("ai_ui"%string, 0.4)]
                               [("ai_ui"%string, 0.9)] 0 0).
  exact list_union_ok.
Defined.

Lemma fuse_value_scaled (text model : dict) (a b k : R) (l : string) :
  0 < k -> fuse_value text model (k * a) (k * b) l = fuse_value text model a b l.
Proof.
  intros Hk. unfold fuse_value, fuse_weights.
  assert (Ma : py_max 0 (k * a) = k * py_max 0 a).
  { destruct (py_max_cases 0 a) as [[Ha ->] | [Ha ->]].
    - assert (0 < k * a) by nra. py_order.
    - assert (k * a <= 0) by nra. replace (k * 0) with 0 by lra. py_order. }
  assert (Mb : py_max 0 (k * b) = k * py_max 0 b).
  { destruct (py_max_cases 0 b) as [[Hb ->] | [Hb ->]].
    - assert (0 < k * b) by nra. py_order.
    - assert (k * b <= 0) by nra. replace (k * 0) with 0 by lra. py_order. }
  rewrite Ma, Mb.
  set (ta := py_max 0 a). set (tb := py_max 0 b).
  destruct (Rleb (ta + tb) 0) eqn:E.
  - apply Rleb_true in E.
    replace (Rleb (k * ta + k * tb) 0) with true
      by (symmetry; apply Rleb_true; nra).
    reflexivity.
  - apply Rleb_false in E.
    replace (Rleb (k * ta + k * tb) 0) with false
      by (symmetry; apply Rleb_false; nra).
    field. repeat split; nra.
Qed.

Lemma fuse_weights_clamped (a b : R) :
  fuse_weights (Rmax 0 a) (Rmax 0 b) = fuse_weights a b.
Proof.
  unfold fuse_weights. rewrite <- !py_max_Rmax.
  replace (py_max 0 (py_max 0 a)) with (py_max 0 a) by py_order.
  replace (py_max 0 (py_max 0 b)) with (py_max 0 b) by py_order.
  reflexivity.
Qed.

(** X9.  Only the ratio of the weights counts in [fuse_scores]: scaling
    both by the same positive factor changes nothing in the result; and
    a negative weight counts as a weight of zero. *)
Theorem fuse_scores_weight_ratio
    (set_union : list string -> list string -> list string)
    (text_scores model_scores : dict) (text_weight model_weight k : R) :
  set_union_spec set_union ->
  0 < k ->
  fuse_scores set_union text_scores model_scores (k * text_weight) (k * model_weight)
  = fuse_scores set_union text_scores model_scores text_weight model_weight
  /\ fuse_scores set_union text_scores model_scores
                 (Rmax 0 text_weight) (Rmax 0 model_weight)
     = fuse_scores set_union text_scores model_scores text_weight model_weight.
Proof.
  intros Hsu Hk. rewrite !(fuse_scores_eq set_union Hsu). split.
  - f_equal. apply map_ext. intros l. now rewrite fuse_value_scaled.
  - f_equal. apply map_ext. intros l. unfold fuse_value.
    now rewrite fuse_weights_clamped.
Qed.

Lemma fuse_scores_weight_ratio_witness :
  fuse_scores list_union [("ai_ui"%string, 0.4)] [("ai_ui"%string, 0.9)]
              (4 * 0.75) (4 * 0.25)
  = fuse_scores list_union [("ai_ui"%string, 0.4)] [("ai_ui"%string, 0.9)] 0.75 0.25
  /\ fuse_scores list_union [("ai_ui"%string, 0.4)] [("ai_ui"%string, 0.9)]
                 (Rmax 0 0.75) (Rmax 0 0.25)
     = fuse_scores list_union [("ai_ui"%string, 0.4)] [("ai_ui"%string, 0.9)]
                   0.75 0.25.
Proof.
  apply (fuse_scores_weight_ratio list_union [("ai_ui"%string, 0.4)]
                                  [("ai_ui"%string, 0.9)] 0.75 0.25 4).
  - exact list_union_ok.
  - lra.
Defined.

Lemma decide_label_threshold (scores : dict) (t t' : R) :
  fst (decide_label scores t) <> NOT_AI_LABEL -> t' <= t ->
  decide_label scores t' = decide_label scores t.
Proof.
  unfold decide_label.
  destruct (dict_keys (filter (fun kv => mem (fst kv) AI_LABELS) scores))
    as [|k ks]; [reflexivity |].
  cbv zeta.
  set (best_score := dict_get _ _ 0).
  destruct (Rleb t best_score) eqn:E; cbn [fst].
  - intros _ H. apply Rleb_true in E.
    replace (Rleb t' best_score) with true by (symmetry; apply Rleb_true; lra).
    reflexivity.
  - intros H. now elim H.
Qed.

(** X10.  Lowering the threshold never takes an AI decision back: when
    [decide_label] answers with an AI label at some threshold, it gives
    the same label and confidence at every lower threshold. *)
Theorem decide_label_keeps_ai_below (scores : dict) (threshold lower : R) :
  fst (decide_label scores threshold) <> NOT_AI_LABEL ->
  lower <= threshold ->
  decide_label scores lower = decide_label scores threshold.
Proof. apply decide_label_threshold. Qed.

Lemma decide_label_keeps_ai_below_witness :
  decide_label [("claude_ui"%string, 0.5); (NOT_AI_LABEL, 0.5)] 0.1
  = decide_label [("claude_ui"%string, 0.5); (NOT_AI_LABEL, 0.5)] 0.2.
Proof.
  apply (decide_label_keeps_ai_below
           [("claude_ui"%string, 0.5); (NOT_AI_LABEL, 0.5)] 0.2 0.1).
  - unfold decide_label.
    change (filter (fun kv => mem (fst kv) AI_LABELS)
                   [("claude_ui"%string, 0.5); (NOT_AI_LABEL, 0.5)])
      with [("claude_ui"%string, 0.5)].
    cbn [dict_keys map fst py_max_by fold_left]. unfold dict_get.
    cbn [dict_lookup]. rewrite String.eqb_refl.
    replace (Rleb 0.2 0.5) with true by (symmetry; apply Rleb_true; lra).
    cbn [fst]. unfold NOT_AI_LABEL. discriminate.
  - lra.
Defined.

Lemma ai_peak_In (d : dict) :
  exists l, In l AI_LABELS /\ ai_peak d = dict_get d l 0.
Proof.
  unfold ai_peak.
  destruct (map (fun label => dict_get d label 0) AI_LABELS) as [|v vs] eqn:E;
    [discriminate E |].
  pose proof (py_max_list_In vs v) as I. rewrite <- E in I.
  apply in_map_iff in I. destruct I as [l [El Il]]. now exists l.
Qed.

Lemma ai_peak_upper (d : dict) (l : string) :
  In l AI_LABELS -> dict_get d l 0 <= ai_peak d.
Proof.
  intros I. unfold ai_peak.
  destruct (map (fun label => dict_get d label 0) AI_LABELS) as [|v vs] eqn:E;
    [discriminate E |].
  apply py_max_list_upper. rewrite <- E.
  now apply (in_map (fun label => dict_get d label 0)).
Qed.

Lemma ai_peak_unit (d : dict) : unit_scores d -> 0 <= ai_peak d <= 1.
Proof.
  intros U. destruct (ai_peak_In d) as [l [_ ->]]. now apply unit_scores_get.
Qed.

Lemma unit_scores_lookup (d : dict) (l : string) (v : R) :
  unit_scores d -> dict_lookup d l = Some v -> 0 <= v <= 1.
Proof.
  intros U L. pose proof (unit_scores_get d l U) as G.
  unfold dict_get in G. now rewrite L in G.
Qed.

(** What [decide_label] returns on a vector with values in [0, 1]. *)
Lemma decide_label_well_formed (scores : dict) (label_threshold : R) :
  In (fst (decide_label scores label_threshold)) (AI_LABELS ++ [NOT_AI_LABEL])
  /\ (unit_scores scores ->
      0 <= snd (decide_label scores label_threshold) <= 1
      /\ (fst (decide_label scores label_threshold) <> NOT_AI_LABEL ->
          label_threshold <= snd (decide_label scores label_threshold)
          /\ snd (decide_label scores label_threshold) = ai_peak scores)).
Proof.
  destruct (decide_label_cases scores label_threshold)
    as [[_ E] | [best [bs [Bk [Bai [Bl [Bmax [[Hge E] | [Hlt E]]]]]]]]];
    rewrite E; cbn [fst snd].
  - split; [apply in_or_app; right; now left |].
    intros _. split; [lra | intros H; now elim H].
  - split; [apply in_or_app; now left |].
    intros U. split; [now apply (unit_scores_lookup scores best) |].
    intros _. split; [exact Hge |].
    pose proof (unit_scores_lookup scores best bs U Bl) as Rb.
    apply Rle_antisym.
    + pose proof (ai_peak_upper scores best Bai) as P.
      unfold dict_get in P. now rewrite Bl in P.
    + destruct (ai_peak_In scores) as [l [Il ->]].
      destruct (in_dec string_dec l (dict_keys scores)) as [K | N].
      * now apply Bmax.
      * rewrite (dict_get_absent scores l N). lra.
  - split; [apply in_or_app; right; now left |].
    intros U. split; [| intros H; now elim H].
    pose proof (unit_scores_lookup scores best bs U Bl) as Rb.
    destruct (dict_lookup scores NOT_AI_LABEL) as [v|] eqn:L.
    + now apply (unit_scores_lookup scores NOT_AI_LABEL).
    + unfold Rmax. destruct (Rle_dec 0 (1 - bs)); lra.
Qed.

Section RunInvariants.

Variable set_union : list string -> list string -> list string.
Hypothesis set_union_ok : set_union_spec set_union.

(** A property of the state that every iteration keeps, and that gives
    each result a property of its own, holds along the whole run. *)
Lemma run_invariant (args : Args) (Inv : LoopState -> Prop)
    (Q : FrameInput -> Prop) (P : FrameInput -> FrameResult -> Prop) :
  (forall st inp st1 r,
      Inv st -> Q inp -> iteration set_union args st inp = Some (st1, r) ->
      Inv st1 /\ P inp r) ->
  forall frames st,
    Inv st -> Forall Q frames ->
    exists st' results,
      run set_union args st frames = Some (st', results)
      /\ Inv st' /\ Forall2 P frames results.
Proof.
  intros Step. induction frames as [|inp rest IH]; intros st Hst Hq.
  - exists st, []. repeat split; auto.
  - inversion Hq as [|? ? Hq1 Hq2]; subst.
    destruct (iteration_fields set_union set_union_ok args st inp)
      as [st1 [r [E _]]].
    destruct (Step st inp st1 r Hst Hq1 E) as [Hst1 Hp].
    destruct (IH st1 Hst1 Hq2) as [st2 [rs [E2 [Hst2 F]]]].
    exists st2, (r :: rs). cbn [run]. rewrite E, E2.
    repeat split; auto.
Qed.

Lemma iteration_unit (args : Args) (st st1 : LoopState) (inp : FrameInput)
    (r : FrameResult) :
  unit_scores (smoothed_scores st) /\ unit_scores (last_text_scores st) ->
  unit_scores (in_model_scores inp) ->
  iteration set_union args st inp = Some (st1, r) ->
  unit_scores (smoothed_scores st1) /\ unit_scores (last_text_scores st1).
Proof.
  intros [Us Ut] Um E.
  destruct (iteration_fields set_union set_union_ok args st inp)
    as [st1' [r' [E' [_ [Hs [T _]]]]]].
  rewrite E in E'. inversion E'; subst st1' r'. split.
  - rewrite Hs. apply (smooth_scores_unit set_union set_union_ok); [exact Us |].
    apply unit_scores_tabulate. intros l _.
    apply fuse_value_unit; [now apply frame_text_scores_unit | exact Um].
  - rewrite T. now apply frame_text_scores_unit.
Qed.

Lemma iteration_decision (args : Args) (st st1 : LoopState) (inp : FrameInput)
    (r : FrameResult) :
  iteration set_union args st inp = Some (st1, r) ->
  res_smoothed_scores r = smoothed_scores st1
  /\ res_ai_max r = ai_peak (smoothed_scores st1)
  /\ predicted_label r
     = fst (decide_label (smoothed_scores st1) (label_threshold args))
  /\ predicted_conf r
     = snd (decide_label (smoothed_scores st1) (label_threshold args))
  /\ res_fps r = current_fps st1
  /\ current_fps st1
     = snd (fps_control args (ai_peak (smoothed_scores st1)) (in_now inp)
                        (high_mode_until st, current_fps st)).
Proof.
  intros E.
  destruct (iteration_fields set_union set_union_ok args st inp)
    as [st1' [r' [E' [_ [_ [_ [_ [F [_ [Rs [Ra [D Rf]]]]]]]]]]]].
  rewrite E in E'. inversion E'; subst st1' r'.
  split; [exact Rs | split; [exact Ra |]].
  split; [now apply (f_equal fst) in D |].
  split; [now apply (f_equal snd) in D |].
  split; [exact Rf | now apply (f_equal snd) in F].
Qed.

End RunInvariants.

Lemma Forall2_results (P : FrameResult -> Prop) (frames : list FrameInput)
    (results : list FrameResult) :
  Forall2 (fun _ r => P r) frames results -> Forall P results.
Proof.
  intros F. induction F as [|f r fs rs H _ IH]; constructor; [exact H | exact IH].
Qed.

(** X11.  The loop takes the hits [parse_ocr_hits] returned and the
    vector [predict] returned as they come; whether those calls return
    is not the matter here.  Along any run of the scoring steps whose
    model vectors have their values in [0, 1], every decision made is
    well formed: the label is one of the closed label set and the
    confidence lies in [0, 1]; and when the label is an AI label, its
    confidence is at least the label threshold and is the very AI peak
    that drives the frame rate on that frame. *)
Theorem decisions_are_well_formed
    (set_union : list string -> list string -> list string)
    (args : Args) (frames : list FrameInput)
    (st : LoopState) (results : list FrameResult) :
  set_union_spec set_union ->
  Forall (fun f => unit_scores (in_model_scores f)) frames ->
  run set_union args (initial_state args) frames = Some (st, results) ->
  Forall (fun r =>
            In (predicted_label r) (AI_LABELS ++ [NOT_AI_LABEL])
            /\ 0 <= predicted_conf r <= 1
            /\ (predicted_label r <> NOT_AI_LABEL ->
                label_threshold args <= predicted_conf r
                /\ predicted_conf r = res_ai_max r))
         results.
Proof.
  intros Hsu Hm Hrun.
  assert (Step : forall st inp st1 r,
             unit_scores (smoothed_scores st) /\ unit_scores (last_text_scores st) ->
             unit_scores (in_model_scores inp) ->
             iteration set_union args st inp = Some (st1, r) ->
             (unit_scores (smoothed_scores st1)
              /\ unit_scores (last_text_scores st1))
             /\ (In (predicted_label r) (AI_LABELS ++ [NOT_AI_LABEL])
                 /\ 0 <= predicted_conf r <= 1
                 /\ (predicted_label r <> NOT_AI_LABEL ->
                     label_threshold args <= predicted_conf r
                     /\ predicted_conf r = res_ai_max r))).
  { intros st0 inp st1 r Hinv Hq E.
    pose proof (iteration_unit set_union Hsu args st0 st1 inp r Hinv Hq E) as Hinv1.
    split; [exact Hinv1 |].
    destruct (iteration_decision set_union Hsu args st0 st1 inp r E)
      as [_ [Ra [Dl [Dc _]]]].
    destruct (decide_label_well_formed (smoothed_scores st1) (label_threshold args))
      as [W1 W2].
    destruct (W2 (proj1 Hinv1)) as [W3 W4].
    rewrite Dl, Dc, Ra. auto. }
  destruct (run_invariant set_union Hsu args _ _
              (fun _ r =>
                 In (predicted_label r) (AI_LABELS ++ [NOT_AI_LABEL])
                 /\ 0 <= predicted_conf r <= 1
                 /\ (predicted_label r <> NOT_AI_LABEL ->
                     label_threshold args <= predicted_conf r
                     /\ predicted_conf r = res_ai_max r))
              Step frames (initial_state args)
              (conj (Forall_nil _) zero_scores_unit) Hm)
    as [st' [results' [E [_ F]]]].
  rewrite Hrun in E. inversion E; subst st' results'.
  exact (Forall2_results _ frames results F).
Qed.

Lemma decisions_are_well_formed_witness :
  exists st results,
    run list_union default_args (initial_state default_args)
        [mkFrameInput 100 [] [("ai_ui"%string, 0.9)] 100]
    = Some (st, results)
    /\ Forall (fun r =>
                 In (predicted_label r) (AI_LABELS ++ [NOT_AI_LABEL])
                 /\ 0 <= predicted_conf r <= 1
                 /\ (predicted_label r <> NOT_AI_LABEL ->
                     label_threshold default_args <= predicted_conf r
                     /\ predicted_conf r = res_ai_max r))
              results.
Proof.
  destruct (run_total list_union list_union_ok default_args
              [mkFrameInput 100 [] [("ai_ui"%string, 0.9)] 100]
              (initial_state default_args)) as [st [results [E _]]].
  exists st, results. split; [exact E |].
  apply (decisions_are_well_formed list_union default_args
           [mkFrameInput 100 [] [("ai_ui"%string, 0.9)] 100] st results).
  - exact list_union_ok.
  - repeat constructor; cbn [snd in_model_scores]; lra.
  - exact E.
Defined.

(** X12.  The target frame rate only ever takes three values: after every
    iteration of any run [current_fps] is [base_fps], or
    [max(base_fps, high_fps)], or still the [max(1.0, base_fps)] it
    started with. *)
Theorem current_fps_values
    (set_union : list string -> list string -> list string)
    (args : Args) (frames : list FrameInput) :
  set_union_spec set_union ->
  exists st results,
    run set_union args (initial_state args) frames = Some (st, results)
    /\ Forall (fun r =>
                 res_fps r = base_fps args
                 \/ res_fps r = Rmax (base_fps args) (high_fps args)
                 \/ res_fps r = Rmax 1 (base_fps args))
              results.
Proof.
  intros Hsu.
  assert (Step : forall st inp st1 r,
             (current_fps st = base_fps args
              \/ current_fps st = Rmax (base_fps args) (high_fps args)
              \/ current_fps st = Rmax 1 (base_fps args)) ->
             True ->
             iteration set_union args st inp = Some (st1, r) ->
             (current_fps st1 = base_fps args
              \/ current_fps st1 = Rmax (base_fps args) (high_fps args)
              \/ current_fps st1 = Rmax 1 (base_fps args))
             /\ (res_fps r = base_fps args
                 \/ res_fps r = Rmax (base_fps args) (high_fps args)
                 \/ res_fps r = Rmax 1 (base_fps args))).
  { intros st inp st1 r Hinv _ E.
    destruct (iteration_decision set_union Hsu args st st1 inp r E)
      as [_ [_ [_ [_ [Rf Cf]]]]].
    assert (V : current_fps st1 = base_fps args
                \/ current_fps st1 = Rmax (base_fps args) (high_fps args)
                \/ current_fps st1 = Rmax 1 (base_fps args)).
    { rewrite Cf. unfold fps_control. cbn [fst snd].
      destruct (Rltb _ _); [right; left; apply py_max_Rmax |].
      destruct (Rleb _ (high_fps_return_threshold args)); [now left | exact Hinv]. }
    split; [exact V | now rewrite Rf]. }
  assert (Init : current_fps (initial_state args) = base_fps args
                 \/ current_fps (initial_state args)
                    = Rmax (base_fps args) (high_fps args)
                 \/ current_fps (initial_state args) = Rmax 1 (base_fps args)).
  { right; right. cbn [initial_state current_fps]. apply py_max_Rmax. }
  assert (Any : Forall (fun _ : FrameInput => True) frames)
    by (clear; induction frames; constructor; auto).
  destruct (run_invariant set_union Hsu args _ _
              (fun _ r => res_fps r = base_fps args
                          \/ res_fps r = Rmax (base_fps args) (high_fps args)
                          \/ res_fps r = Rmax 1 (base_fps args))
              Step frames (initial_state args) Init Any)
    as [st [results [E [_ F]]]].
  exists st, results. split; [exact E |].
  exact (Forall2_results _ frames results F).
Qed.

Lemma In_firstn_nth_error (f : FrameInput) (k : nat) (frames : list FrameInput) :
  In f (firstn k frames) ->
  exists m, (m < k)%nat /\ nth_error frames m = Some f.
Proof.
  revert frames; induction k as [|k IH]; intros frames I; [destruct I |].
  destruct frames as [|f0 rest]; [destruct I |].
  cbn [firstn] in I. destruct I as [<- | I].
  - exists 0%nat. split; [lia | reflexivity].
  - destruct (IH rest I) as [m [L E]]. exists (S m). split; [lia | exact E].
Qed.

Section TextOrigin.

Variable set_union : list string -> list string -> list string.
Hypothesis set_union_ok : set_union_spec set_union.

Lemma text_scores_origin (args : Args) (frames : list FrameInput) :
  forall (st st' : LoopState) (earlier : list FrameInput)
         (results : list FrameResult),
    (frame_index st = 0%Z
     \/ exists f, In f earlier
                  /\ last_text_scores st
                     = fst (score_text_hits (in_ocr_hits f) (keyword_gain args))) ->
    (0 <= frame_index st)%Z ->
    run set_union args st frames = Some (st', results) ->
    forall n r, nth_error results n = Some r ->
      exists f, In f (earlier ++ firstn (S n) frames)
                /\ res_text_scores r
                   = fst (score_text_hits (in_ocr_hits f) (keyword_gain args)).
Proof.
  induction frames as [|inp rest IH]; intros st st' earlier results Hinv Hpos Hrun n r Hn.
  - cbn [run] in Hrun. inversion Hrun; subst. destruct n; discriminate Hn.
  - apply (run_cons set_union) in Hrun.
    destruct Hrun as [st1 [r0 [rs [E [Erest ->]]]]].
    destruct (iteration_fields set_union set_union_ok args st inp)
      as [st1' [r0' [E' [_ [_ [T [I [_ [Rt _]]]]]]]]].
    rewrite E in E'. inversion E'; subst st1' r0'. clear E'.
    assert (O : exists f, In f (earlier ++ [inp])
                          /\ frame_text_scores args st inp
                             = fst (score_text_hits (in_ocr_hits f)
                                                    (keyword_gain args))).
    { unfold frame_text_scores.
      destruct (run_ocr_this_frame args st inp) eqn:Ro.
      - exists inp. split; [apply in_or_app; right; now left | reflexivity].
      - destruct Hinv as [H0 | [f [If Ef]]].
        + rewrite (run_ocr_first_frame args st inp H0) in Ro. discriminate Ro.
        + exists f. split; [apply in_or_app; now left | exact Ef]. }
    destruct n as [|n]; cbn [nth_error] in Hn.
    + inversion Hn; subst r0. rewrite Rt. cbn [firstn]. exact O.
    + destruct (IH st1 st' (earlier ++ [inp]) rs) with (n := n) (r := r)
        as [f [If Ef]].
      * right. rewrite T. exact O.
      * rewrite I. lia.
      * exact Erest.
      * exact Hn.
      * exists f. split; [| exact Ef].
        rewrite <- app_assoc in If. exact If.
Qed.

End TextOrigin.

(** X13.  The text vector a frame is fused with always comes from an OCR
    pass: in any run from the initial state it is what [score_text_hits]
    returned for that frame or for an earlier one, never the all-zero
    vector the loop starts with; so its keys are the closed label set. *)
Theorem text_scores_come_from_ocr
    (set_union : list string -> list string -> list string)
    (args : Args) (frames : list FrameInput) :
  set_union_spec set_union ->
  exists st results,
    run set_union args (initial_state args) frames = Some (st, results)
    /\ forall n r, nth_error results n = Some r ->
         dict_keys (res_text_scores r) = AI_LABELS ++ [NOT_AI_LABEL]
         /\ exists m f,
              (m <= n)%nat /\ nth_error frames m = Some f
              /\ res_text_scores r
                 = fst (score_text_hits (in_ocr_hits f) (keyword_gain args)).
Proof.
  intros Hsu.
  destruct (run_total set_union Hsu args frames (initial_state args))
    as [st [results [E _]]].
  exists st, results. split; [exact E |]. intros n r Hn.
  destruct (text_scores_origin set_union Hsu args frames (initial_state args) st
                               [] results (or_introl eq_refl)
                               ltac:(cbn [initial_state frame_index]; lia)
                               E n r Hn)
    as [f [If Ef]].
  cbn [app] in If. apply In_firstn_nth_error in If. destruct If as [m [L Em]].
  split; [rewrite Ef; apply text_scores_keys |].
  exists m, f. split; [lia | split; [exact Em | exact Ef]].
Qed.

Lemma text_scores_come_from_ocr_witness :
  exists st results,
    run list_union default_args (initial_state default_args)
        [mkFrameInput 100 [] [] 100; mkFrameInput 100.25 [] [] 100.25]
    = Some (st, results)
    /\ forall n r, nth_error results n = Some r ->
         dict_keys (res_text_scores r) = AI_LABELS ++ [NOT_AI_LABEL]
         /\ exists m f,
              (m <= n)%nat
              /\ nth_error [mkFrameInput 100 [] [] 100;
                            mkFrameInput 100.25 [] [] 100.25] m = Some f
              /\ res_text_scores r
                 = fst (score_text_hits (in_ocr_hits f)
                                        (keyword_gain default_args)).
Proof.
  apply (text_scores_come_from_ocr list_union default_args
           [mkFrameInput 100 [] [] 100; mkFrameInput 100.25 [] [] 100.25]).
  exact list_union_ok.
Defined.

Lemma current_fps_values_witness :
  exists st results,
    run list_union default_args (initial_state default_args)
        [mkFrameInput 100 [] [] 100]
    = Some (st, results)
    /\ Forall (fun r =>
                 res_fps r = base_fps default_args
                 \/ res_fps r = Rmax (base_fps default_args) (high_fps default_args)
                 \/ res_fps r = Rmax 1 (base_fps default_args))
              results.
Proof.
  apply (current_fps_values list_union default_args [mkFrameInput 100 [] [] 100]).
  exact list_union_ok.
Defined.

(** X14.  The pause at the end of an iteration never fails on a division
    by zero, whatever the frame rate: it is never negative, it is at most
    one second when the iteration took no negative time, and there is no
    pause at all once the iteration has used up its period. *)
Theorem sleep_time_bounds (current_fps elapsed : R) :
  exists pause,
    sleep_time current_fps elapsed = Some pause
    /\ 0 <= pause
    /\ (0 <= elapsed -> pause <= 1)
    /\ (1 / Rmax 1 current_fps <= elapsed -> pause = 0).
Proof.
  unfold sleep_time. rewrite <- py_max_Rmax.
  assert (P : 1 <= py_max 1 current_fps) by py_order.
  rewrite py_div_nonzero by lra.
  eexists. split; [reflexivity |].
  assert (I : 0 < 1 / py_max 1 current_fps <= 1).
  { split.
    - apply Rdiv_lt_0_compat; lra.
    - apply Rmult_le_reg_r with (py_max 1 current_fps); [lra |].
      unfold Rdiv. rewrite Rmult_assoc, Rinv_l by lra. lra. }
  set (period := 1 / py_max 1 current_fps) in *.
  split; [py_order | split; intros H; py_order].
Qed.

(** ** How text scores combine *)

Lemma hits_raw_nonneg (l : string) (hits : list OcrHit) :
  Forall (fun hit => 0 <= ocr_confidence hit) hits -> 0 <= hits_raw l hits.
Proof.
  intros H. induction H as [|hit hits Hh _ IH]; cbn [hits_raw]; [lra |].
  pose proof (hit_raw_nonneg l hit Hh). lra.
Qed.

(** X15.  Evidence from two hit lists combines like independent chances:
    for hits of non-negative confidence, the text score [s] of an AI
    label over the two lists put together satisfies
    [1 - s = (1 - s1) * (1 - s2)], with [s1] and [s2] the scores over each
    list alone; so it is at least each of them. *)
Theorem text_scores_combine (hits1 hits2 : list OcrHit) (keyword_gain : R)
    (label : string) :
  In label AI_LABELS ->
  Forall (fun hit => 0 <= ocr_confidence hit) hits1 ->
  Forall (fun hit => 0 <= ocr_confidence hit) hits2 ->
  let score := fun hs => dict_get (fst (score_text_hits hs keyword_gain)) label 0 in
  1 - score (hits1 ++ hits2) = (1 - score hits1) * (1 - score hits2)
  /\ score hits1 <= score (hits1 ++ hits2)
  /\ score hits2 <= score (hits1 ++ hits2).
Proof.
  intros I H1 H2 score. subst score. cbv beta.
  rewrite !text_score_ai by exact I. rewrite hits_raw_app.
  pose proof (hits_raw_nonneg label hits1 H1) as P1.
  pose proof (hits_raw_nonneg label hits2 H2) as P2.
  assert (E : 1 - saturate (hits_raw label hits1 + hits_raw label hits2) keyword_gain
              = (1 - saturate (hits_raw label hits1) keyword_gain)
                * (1 - saturate (hits_raw label hits2) keyword_gain)).
  { unfold saturate.
    replace (py_max 0 (hits_raw label hits1 + hits_raw label hits2))
      with (hits_raw label hits1 + hits_raw label hits2) by py_order.
    replace (py_max 0 (hits_raw label hits1)) with (hits_raw label hits1)
      by py_order.
    replace (py_max 0 (hits_raw label hits2)) with (hits_raw label hits2)
      by py_order.
    replace (- (hits_raw label hits1 + hits_raw label hits2)
             * py_max 0.05 keyword_gain)
      with (- hits_raw label hits1 * py_max 0.05 keyword_gain
            + - hits_raw label hits2 * py_max 0.05 keyword_gain) by ring.
    rewrite exp_plus. ring. }
  split; [exact E |].
  split; apply saturate_monotone; lra.
Qed.

Lemma text_scores_combine_witness :
  let score := fun hs => dict_get (fst (score_text_hits hs 0.7)) "chatgpt_ui" 0 in
  1 - score ([mkOcrHit "ChatGPT" 0.9 (0, 0, 10, 10)%Z]
               ++ [mkOcrHit "openai" 0.5 (0, 20, 10, 30)%Z])
  = (1 - score [mkOcrHit "ChatGPT" 0.9 (0, 0, 10, 10)%Z])
    * (1 - score [mkOcrHit "openai" 0.5 (0, 20, 10, 30)%Z])
  /\ score [mkOcrHit "ChatGPT" 0.9 (0, 0, 10, 10)%Z]
     <= score ([mkOcrHit "ChatGPT" 0.9 (0, 0, 10, 10)%Z]
                 ++ [mkOcrHit "openai" 0.5 (0, 20, 10, 30)%Z])
  /\ score [mkOcrHit "openai" 0.5 (0, 20, 10, 30)%Z]
     <= score ([mkOcrHit "ChatGPT" 0.9 (0, 0, 10, 10)%Z]
                 ++ [mkOcrHit "openai" 0.5 (0, 20, 10, 30)%Z]).
Proof.
  apply (text_scores_combine [mkOcrHit "ChatGPT" 0.9 (0, 0, 10, 10)%Z]
                             [mkOcrHit "openai" 0.5 (0, 20, 10, 30)%Z] 0.7
                             "chatgpt_ui").
  - apply mem_In. reflexivity.
  - repeat constructor; cbn [ocr_confidence]; lra.
  - repeat constructor; cbn [ocr_confidence]; lra.
Defined.

Lemma saturate_gain_floor (raw keyword_gain : R) :
  keyword_gain <= 0.05 -> saturate raw keyword_gain = saturate raw 0.05.
Proof.
  intros H. unfold saturate.
  replace (py_max 0.05 keyword_gain) with 0.05 by py_order.
  replace (py_max 0.05 0.05) with 0.05 by py_order.
  reflexivity.
Qed.

(** X16.  The keyword gain has a floor: any gain of 0.05 or less, zero
    and negative gains included, gives exactly the result of a gain of
    0.05, so the scores never stop growing with the evidence. *)
Theorem keyword_gain_floor (hits : list OcrHit) (keyword_gain : R) :
  keyword_gain <= 0.05 ->
  score_text_hits hits keyword_gain = score_text_hits hits 0.05.
Proof.
  intros H.
  rewrite (surjective_pairing (score_text_hits hits keyword_gain)).
  rewrite (surjective_pairing (score_text_hits hits 0.05)).
  rewrite !matched_eq, !score_text_hits_eq.
  assert (A : ai_text_scores hits keyword_gain = ai_text_scores hits 0.05).
  { unfold ai_text_scores. apply map_ext. intros l.
    now rewrite saturate_gain_floor. }
  unfold max_ai_score. now rewrite A.
Qed.

Lemma keyword_gain_floor_witness :
  score_text_hits [mkOcrHit "ChatGPT" 0.9 (0, 0, 10, 10)%Z] (-1)
  = score_text_hits [mkOcrHit "ChatGPT" 0.9 (0, 0, 10, 10)%Z] 0.05.
Proof.
  apply (keyword_gain_floor [mkOcrHit "ChatGPT" 0.9 (0, 0, 10, 10)%Z] (-1)).
  lra.
Defined.

(** ** [parse_ocr_hits] *)

Lemma rstrip_idempotent (s : string) : rstrip (rstrip s) = rstrip s.
Proof.
  induction s as [|c s IH]; [reflexivity |].
  cbn [rstrip]. destruct (rstrip s) as [|c' r] eqn:R.
  - destruct (is_space c) eqn:Sp; [reflexivity |].
    cbn [rstrip]. now rewrite Sp.
  - cbn [rstrip] in *. rewrite IH. reflexivity.
Qed.

Lemma rstrip_head (c : ascii) (s : string) :
  is_space c = false -> exists r, rstrip (String c s) = String c r.
Proof.
  intros Sp. cbn [rstrip]. destruct (rstrip s) as [|c' r].
  - rewrite Sp. now exists EmptyString.
  - now exists (String c' r).
Qed.

Lemma lstrip_head (s : string) :
  lstrip s = EmptyString
  \/ exists c r, lstrip s = String c r /\ is_space c = false.
Proof.
  induction s as [|c s IH]; [now left |].
  cbn [lstrip]. destruct (is_space c) eqn:Sp; [exact IH |].
  right. now exists c, s.
Qed.

Lemma strip_idempotent (s : string) : strip (strip s) = strip s.
Proof.
  unfold strip. destruct (lstrip_head s) as [E | [c [r [E Sp]]]]; rewrite E.
  - reflexivity.
  - destruct (rstrip_head c r Sp) as [r' E']. rewrite E'.
    cbn [lstrip]. rewrite Sp, <- E'. apply rstrip_idempotent.
Qed.

Lemma fold_min_le (xs : list Z) (x : Z) : (fold_left Z.min xs x <= x)%Z.
Proof.
  revert x; induction xs as [|y ys IH]; intros x; cbn [fold_left]; [lia |].
  specialize (IH (Z.min x y)). lia.
Qed.

Lemma fold_max_ge (xs : list Z) (x : Z) : (x <= fold_left Z.max xs x)%Z.
Proof.
  revert x; induction xs as [|y ys IH]; intros x; cbn [fold_left]; [lia |].
  specialize (IH (Z.max x y)). lia.
Qed.

Lemma z_min_max (xs : list Z) (lo hi : Z) :
  z_min xs = Some lo -> z_max xs = Some hi -> (lo <= hi)%Z.
Proof.
  destruct xs as [|x rest]; [discriminate |]. cbn [z_min z_max].
  intros L H. inversion L; inversion H; subst.
  pose proof (fold_min_le rest x). pose proof (fold_max_ge rest x). lia.
Qed.

Lemma is_empty_false (s : string) : is_empty s = false <-> s <> EmptyString.
Proof. destruct s; split; intros H; try easy; now elim H. Qed.

(** What one item does to the hits gathered so far. *)
Lemma parse_item_cases (hits : list OcrHit) (item : RawItem) :
  (parse_item hits item = None /\ item_raises item)
  \/ (parse_item hits item = Some hits /\ ~ item_raises item)
  \/ (exists hit, parse_item hits item = Some (hits ++ [hit])
                  /\ well_formed_hit hit /\ ~ item_raises item).
Proof.
  destruct item as [|bbox_raw text_raw conf_raw].
  - right; left. split; [reflexivity |].
    intros [b [t [c [E _]]]]. discriminate E.
  - cbn [parse_item]. destruct (is_empty (strip text_raw)) eqn:Et.
    + right; left. split; [reflexivity |].
      intros [b [t [c [E [N _]]]]]. inversion E; subst.
      apply is_empty_false in N. congruence.
    + destruct (confidence_of conf_raw) as [confidence|] eqn:Ec.
      * destruct bbox_raw as [points|].
        -- destruct points as [|[x y] rest].
           ++ left. split; [reflexivity |].
              exists (Some []), text_raw, conf_raw.
              split; [reflexivity | split; [now apply is_empty_false | now right]].
           ++ right; right. cbn [map fst snd z_min z_max].
              eexists. split; [reflexivity | split].
              ** unfold well_formed_hit. cbn [ocr_text ocr_confidence ocr_bbox].
                 split; [now apply is_empty_false |].
                 split; [apply strip_idempotent |].
                 split; [py_order |].
                 pose proof (fold_min_le (map fst rest) x).
                 pose proof (fold_max_ge (map fst rest) x).
                 pose proof (fold_min_le (map snd rest) y).
                 pose proof (fold_max_ge (map snd rest) y).
                 lia.
              ** intros [b [t [c [E [_ [Hc | Hb]]]]]]; inversion E; subst;
                   congruence.
        -- right; left. split; [reflexivity |].
           intros [b [t [c [E [_ [Hc | Hb]]]]]]; inversion E; subst; congruence.
      * left. split; [reflexivity |].
        exists bbox_raw, text_raw, conf_raw.
        split; [reflexivity | split; [now apply is_empty_false | now left]].
Qed.

Lemma parse_fold_None (raw : list RawItem) :
  fold_left (fun acc item => match acc with
                             | None => None
                             | Some hits => parse_item hits item
                             end) raw None = None.
Proof. induction raw as [|item raw IH]; [reflexivity | exact IH]. Qed.

Lemma parse_fold (raw : list RawItem) (hits : list OcrHit) :
  Forall well_formed_hit hits ->
  (fold_left (fun acc item => match acc with
                              | None => None
                              | Some hits => parse_item hits item
                              end) raw (Some hits) = None
   /\ Exists item_raises raw)
  \/ (exists out,
        fold_left (fun acc item => match acc with
                                   | None => None
                                   | Some hits => parse_item hits item
                                   end) raw (Some hits) = Some out
        /\ Forall well_formed_hit out
        /\ (List.length out <= List.length hits + List.length raw)%nat
        /\ ~ Exists item_raises raw).
Proof.
  revert hits; induction raw as [|item raw IH]; intros hits W.
  - right. exists hits. cbn [fold_left List.length].
    split; [reflexivity | split; [exact W | split; [lia |]]].
    intros E. inversion E.
  - cbn [fold_left].
    destruct (parse_item_cases hits item)
      as [[E P] | [[E P] | [hit [E [Wh P]]]]]; rewrite E.
    + left. split; [apply parse_fold_None | now apply Exists_cons_hd].
    + destruct (IH hits W) as [[F X] | [out [F [Wo [L X]]]]].
      * left. split; [exact F | now apply Exists_cons_tl].
      * right. exists out. split; [exact F | split; [exact Wo | split]].
        -- cbn [List.length]. lia.
        -- intros Ex. inversion Ex; subst; contradiction.
    + assert (W' : Forall well_formed_hit (hits ++ [hit])).
      { apply Forall_app. split; [exact W | now constructor]. }
      destruct (IH (hits ++ [hit]) W') as [[F X] | [out [F [Wo [L X]]]]].
      * left. split; [exact F | now apply Exists_cons_tl].
      * right. exists out. split; [exact F | split; [exact Wo | split]].
        -- rewrite length_app in L. cbn [List.length] in *. lia.
        -- intros Ex. inversion Ex; subst; contradiction.
Qed.

(** X17.  Every hit [parse_ocr_hits] returns is well formed: its text is
    not empty and has no white space at its ends (none of the
    characters [str.strip] removes), its confidence lies in [0, 1] and
    its box has its left and top at or before its right and bottom; and
    there are never more hits than raw items. *)
Theorem parse_ocr_hits_well_formed (raw : list RawItem) (hits : list OcrHit) :
  parse_ocr_hits raw = Some hits ->
  Forall well_formed_hit hits
  /\ Forall (fun hit => 0 <= ocr_confidence hit) hits
  /\ (List.length hits <= List.length raw)%nat.
Proof.
  unfold parse_ocr_hits. intros E.
  destruct (parse_fold raw [] (Forall_nil _)) as [[F _] | [out [F [W [L _]]]]].
  - congruence.
  - rewrite F in E. inversion E; subst out.
    split; [exact W | split; [| exact L]].
    apply Forall_impl with (P := well_formed_hit); [| exact W].
    intros hit [_ [_ [[C _] _]]]. exact C.
Qed.

Lemma parse_ocr_hits_well_formed_witness :
  Forall well_formed_hit [mkOcrHit "ChatGPT" 1 (3, 4, 40, 12)%Z;
                          mkOcrHit "Claude" 1 (0, 0, 9, 9)%Z]
  /\ Forall (fun hit => 0 <= ocr_confidence hit)
            [mkOcrHit "ChatGPT" 1 (3, 4, 40, 12)%Z;
             mkOcrHit "Claude" 1 (0, 0, 9, 9)%Z]
  /\ (List.length [mkOcrHit "ChatGPT" 1%R (3, 4, 40, 12)%Z;
                   mkOcrHit "Claude" 1%R (0, 0, 9, 9)%Z]
      <= List.length [RawMalformed;
                      RawDetection (Some [(3, 4); (40, 4); (40, 12); (3, 12)]%Z)
                                   " ChatGPT " (ConfFloat 1.5%R);
                      RawDetection None "broken" (ConfFloat 0.9%R);
                      RawDetection (Some [(0, 0)]%Z)
                                   (String (ascii_of_nat 160) " ") ConfOther;
                      RawDetection (Some [(0, 9); (9, 0)]%Z)
                                   (String (ascii_of_nat 160) "Claude")
                                   (ConfInt 7)])%nat.
Proof.
  apply (parse_ocr_hits_well_formed
           [RawMalformed;
            RawDetection (Some [(3, 4); (40, 4); (40, 12); (3, 12)]%Z)
                         " ChatGPT " (ConfFloat 1.5);
            RawDetection None "broken" (ConfFloat 0.9);
            RawDetection (Some [(0, 0)]%Z)
                         (String (ascii_of_nat 160) " ") ConfOther;
            RawDetection (Some [(0, 9); (9, 0)]%Z)
                         (String (ascii_of_nat 160) "Claude") (ConfInt 7)]).
  unfold parse_ocr_hits. cbn [fold_left parse_item].
  change (strip " ChatGPT ") with "ChatGPT"%string.
  change (strip "broken") with "broken"%string.
  change (strip (String (ascii_of_nat 160) " ")) with ""%string.
  change (strip (String (ascii_of_nat 160) "Claude")) with "Claude"%string.
  change (confidence_of (ConfInt 7)) with (Some 7).
  cbn [is_empty confidence_of map fst snd z_min z_max fold_left app].
  replace (py_min 1 1.5) with 1 by py_order.
  replace (py_min 1 7) with 1 by py_order.
  replace (py_max 0 1) with 1 by py_order.
  reflexivity.
Defined.

(** X18.  [parse_ocr_hits] skips malformed items, items whose text is
    blank and, when the confidence converts, items whose points do not;
    it raises exactly when some item with a text to keep has an integer
    confidence too large for a float ([OverflowError], outside the
    [try]) or a polygon without any point ([ValueError] of [min]). *)
Theorem parse_ocr_hits_failure (raw : list RawItem) :
  (parse_ocr_hits raw = None <-> Exists item_raises raw)
  /\ (forall hits, parse_ocr_hits (RawMalformed :: raw) = Some hits
                   <-> parse_ocr_hits raw = Some hits)
  /\ (forall conf_raw text_raw hits,
        confidence_of conf_raw <> None ->
        (parse_ocr_hits (RawDetection None text_raw conf_raw :: raw) = Some hits
         <-> parse_ocr_hits raw = Some hits))
  /\ (forall bbox_raw conf_raw text_raw hits,
        strip text_raw = EmptyString ->
        (parse_ocr_hits (RawDetection bbox_raw text_raw conf_raw :: raw) = Some hits
         <-> parse_ocr_hits raw = Some hits)).
Proof.
  split; [| split; [| split]].
  - unfold parse_ocr_hits.
    destruct (parse_fold raw [] (Forall_nil _)) as [[F X] | [out [F [_ [_ X]]]]];
      rewrite F; split; intros H; try easy.
  - intros hits. reflexivity.
  - intros conf_raw text_raw hits Hc. unfold parse_ocr_hits.
    cbn [fold_left parse_item].
    destruct (is_empty (strip text_raw)); [reflexivity |].
    destruct (confidence_of conf_raw); [reflexivity | now elim Hc].
  - intros bbox_raw conf_raw text_raw hits E. unfold parse_ocr_hits.
    cbn [fold_left parse_item]. rewrite E. reflexivity.
Qed.

(** ** [normalize_label] *)

Lemma to_lower_space (c : ascii) : is_space (to_lower c) = is_space c.
Proof. ascii_cases c; reflexivity. Qed.

Lemma to_lower_idempotent (c : ascii) : to_lower (to_lower c) = to_lower c.
Proof. ascii_cases c; reflexivity. Qed.

Lemma lower_idempotent (s : string) : lower (lower s) = lower s.
Proof.
  induction s as [|c s IH]; [reflexivity |].
  cbn [lower]. now rewrite to_lower_idempotent, IH.
Qed.

Lemma lower_lstrip (s : string) : lower (lstrip s) = lstrip (lower s).
Proof.
  induction s as [|c s IH]; [reflexivity |].
  cbn [lower lstrip]. rewrite to_lower_space.
  destruct (is_space c); [exact IH | reflexivity].
Qed.

Lemma lower_rstrip (s : string) : lower (rstrip s) = rstrip (lower s).
Proof.
  induction s as [|c s IH]; [reflexivity |].
  cbn [lower rstrip]. rewrite <- IH, to_lower_space.
  destruct (rstrip s) as [|c' r]; cbn [lower].
  - destruct (is_space c); reflexivity.
  - reflexivity.
Qed.

Lemma lower_strip (s : string) : lower (strip s) = strip (lower s).
Proof. unfold strip. now rewrite lower_rstrip, lower_lstrip. Qed.

Lemma lower_strip_idempotent (s : string) :
  lower (strip (lower (strip s))) = lower (strip s).
Proof.
  rewrite (lower_strip (lower (strip s))), lower_idempotent.
  now rewrite <- lower_strip, strip_idempotent.
Qed.

Lemma alias_lookup_In (mapping : list (string * string)) (raw canonical : string) :
  alias_lookup mapping raw = Some canonical -> In (raw, canonical) mapping.
Proof.
  induction mapping as [|[k v] rest IH]; cbn [alias_lookup]; [discriminate |].
  destruct (String.eqb k raw) eqn:E.
  - apply String.eqb_eq in E. intros H. inversion H; subst. now left.
  - intros H. right. now apply IH.
Qed.

(** Every canonical name of the mapping is one of the closed label set
    and is left as it is by [normalize_label]. *)
Lemma aliases_canonical :
  forallb (fun kv => mem (snd kv) (AI_LABELS ++ [NOT_AI_LABEL])
                     && String.eqb (normalize_label (snd kv)) (snd kv))
          LABEL_ALIASES = true.
Proof. vm_compute. reflexivity. Qed.

Lemma closed_labels_fixed :
  forallb (fun l => String.eqb (normalize_label l) l)
          (AI_LABELS ++ [NOT_AI_LABEL]) = true.
Proof. vm_compute. reflexivity. Qed.

Lemma normalize_label_idempotent (value : string) :
  normalize_label (normalize_label value) = normalize_label value.
Proof.
  destruct (alias_lookup LABEL_ALIASES (lower (strip value))) as [c|] eqn:L.
  - assert (E : normalize_label value = c)
      by (unfold normalize_label; now rewrite L).
    rewrite E. apply alias_lookup_In in L.
    pose proof aliases_canonical as A. rewrite forallb_forall in A.
    specialize (A _ L). cbn [snd] in A. apply andb_true_iff in A.
    destruct A as [_ A]. now apply String.eqb_eq in A.
  - assert (E : normalize_label value = lower (strip value))
      by (unfold normalize_label; now rewrite L).
    rewrite E. unfold normalize_label.
    rewrite lower_strip_idempotent. now rewrite L.
Qed.

(** X19.  On the texts of the model, those whose code points are below
    256, [normalize_label] gives every label one canonical name: applied
    twice it gives what it gives once; it leaves every label of the
    closed label set as it is; every alias it knows lands in the closed
    label set; and it does not look at the case of the letters, accented
    capitals included, nor at the white space around the name, no-break
    space included: [value.lower()] and [value.strip()] have the label
    of [value]. *)
Theorem normalize_label_canonical (value : string) :
  normalize_label (normalize_label value) = normalize_label value
  /\ (forall l, In l (AI_LABELS ++ [NOT_AI_LABEL]) -> normalize_label l = l)
  /\ (forall canonical,
        alias_lookup LABEL_ALIASES (lower (strip value)) = Some canonical ->
        normalize_label value = canonical
        /\ In canonical (AI_LABELS ++ [NOT_AI_LABEL]))
  /\ normalize_label (lower value) = normalize_label value
  /\ normalize_label (strip value) = normalize_label value.
Proof.
  split; [apply normalize_label_idempotent | split; [| split; [| split]]].
  - intros l I. pose proof closed_labels_fixed as F.
    rewrite forallb_forall in F. now apply String.eqb_eq, F.
  - intros c L. split; [unfold normalize_label; now rewrite L |].
    apply alias_lookup_In in L.
    pose proof aliases_canonical as A. rewrite forallb_forall in A.
    specialize (A _ L). cbn [snd] in A. apply andb_true_iff in A.
    destruct A as [A _]. now apply mem_In.
  - unfold normalize_label.
    now rewrite <- lower_strip, lower_idempotent.
  - unfold normalize_label. now rewrite strip_idempotent.
Qed.

(** ** [predict] *)

Lemma dict_keys_set (d : dict) (k : string) (v : R) :
  dict_keys (dict_set d k v)
  = if mem k (dict_keys d) then dict_keys d else dict_keys d ++ [k].
Proof.
  induction d as [|[k' v'] d IH]; [reflexivity |].
  cbn [dict_set dict_keys map fst mem existsb].
  rewrite (String.eqb_sym k k').
  destruct (String.eqb k' k) eqn:E; cbn [orb map fst]; [reflexivity |].
  fold (dict_keys (dict_set d k v)). rewrite IH.
  fold (dict_keys d). fold (mem k (dict_keys d)).
  now destruct (mem k (dict_keys d)).
Qed.

Lemma dict_set_NoDup (d : dict) (k : string) (v : R) :
  NoDup (dict_keys d) -> NoDup (dict_keys (dict_set d k v)).
Proof.
  intros N. rewrite dict_keys_set. destruct (mem k (dict_keys d)) eqn:M; [exact N |].
  apply NoDup_app; [exact N | repeat constructor; auto |].
  intros x Ix [<- | []]. apply mem_In in Ix. congruence.
Qed.

Lemma dict_set_keys_In (d : dict) (k : string) (v : R) (x : string) :
  In x (dict_keys (dict_set d k v)) <-> x = k \/ In x (dict_keys d).
Proof.
  rewrite dict_keys_set. destruct (mem k (dict_keys d)) eqn:M.
  - apply mem_In in M. split; [now right | intros [-> | H]; assumption].
  - rewrite in_app_iff. cbn [In]. split; intros H; intuition.
Qed.

Lemma dict_set_unit (d : dict) (k : string) (v : R) :
  unit_scores d -> 0 <= v <= 1 -> unit_scores (dict_set d k v).
Proof.
  unfold unit_scores. intros U V.
  induction d as [|[k' v'] d IH]; cbn [dict_set].
  - constructor; [exact V | constructor].
  - inversion U as [|? ? H U']; subst.
    destruct (String.eqb k' k); constructor; auto.
Qed.

Lemma merge_scores_invariant (labels : list string) (probs : list R) :
  forall (index : nat) (score_map : dict),
    Forall (fun p => 0 <= p <= 1) probs ->
    unit_scores score_map ->
    NoDup (dict_keys score_map) ->
    (forall k, In k (dict_keys score_map) -> normalize_label k = k) ->
    unit_scores (merge_scores labels index probs score_map)
    /\ NoDup (dict_keys (merge_scores labels index probs score_map))
    /\ (forall k, In k (dict_keys (merge_scores labels index probs score_map)) ->
                  normalize_label k = k).
Proof.
  induction probs as [|p rest IH]; intros index score_map Hp U N C; [auto |].
  inversion Hp as [|? ? Hp1 Hp2]; subst. cbn [merge_scores].
  apply IH; [exact Hp2 | | |].
  - apply dict_set_unit; [exact U |].
    pose proof (unit_scores_get score_map
                  (normalize_label (label_at labels index)) U).
    py_order.
  - now apply dict_set_NoDup.
  - intros k I. apply dict_set_keys_In in I. destruct I as [-> | I].
    + apply normalize_label_idempotent.
    + now apply C.
Qed.

Lemma fold_plus_shift (xs : list R) (a : R) :
  fold_left Rplus xs a = a + fold_left Rplus xs 0.
Proof.
  revert a; induction xs as [|x xs IH]; intros a; cbn [fold_left]; [lra |].
  rewrite (IH (a + x)), (IH (0 + x)). lra.
Qed.

Lemma r_sum_cons (x : R) (xs : list R) : r_sum (x :: xs) = x + r_sum xs.
Proof. unfold r_sum. cbn [fold_left]. rewrite fold_plus_shift. lra. Qed.

Lemma r_sum_upper (xs : list R) (x : R) :
  Forall (fun y => 0 < y) xs -> In x xs -> 0 < x <= r_sum xs.
Proof.
  intros P. induction P as [|y ys Hy P IH]; intros I; [destruct I |].
  rewrite r_sum_cons.
  assert (S0 : 0 <= r_sum ys).
  { clear - P. induction P as [|z zs Hz _ IHz]; [unfold r_sum; cbn; lra |].
    rewrite r_sum_cons. lra. }
  destruct I as [<- | I]; [lra |]. specialize (IH I). lra.
Qed.

Lemma r_sum_scaled (xs : list R) (c : R) :
  r_sum (map (fun p => p / c) xs) = r_sum xs / c.
Proof.
  induction xs as [|x xs IH]; [unfold r_sum; cbn; unfold Rdiv; lra |].
  cbn [map]. rewrite !r_sum_cons, IH. unfold Rdiv. ring.
Qed.

Lemma softmax_probs_spec (x : R) (rest : list R) :
  Forall (fun p => 0 < p <= 1) (softmax_probs x rest)
  /\ r_sum (softmax_probs x rest) = 1
  /\ List.length (softmax_probs x rest) = S (List.length rest).
Proof.
  unfold softmax_probs.
  set (probs := map (fun logit => exp (logit - py_max_list x rest)) (x :: rest)).
  assert (P : Forall (fun y => 0 < y) probs).
  { apply Forall_forall. intros y I. apply in_map_iff in I.
    destruct I as [l [<- _]]. apply exp_pos. }
  assert (T : 0 < r_sum probs).
  { assert (I : In (exp (x - py_max_list x rest)) probs) by now left.
    pose proof (r_sum_upper probs _ P I). lra. }
  split; [| split].
  - apply Forall_forall. intros q I. apply in_map_iff in I.
    destruct I as [p [<- Ip]].
    destruct (r_sum_upper probs p P Ip) as [Pp Up]. split.
    + now apply Rdiv_lt_0_compat.
    + apply Rmult_le_reg_r with (r_sum probs); [exact T |].
      unfold Rdiv. rewrite Rmult_assoc, Rinv_l by lra. lra.
  - rewrite r_sum_scaled. field. lra.
  - unfold probs. now rewrite !length_map.
Qed.

Lemma sigmoid_range (x : R) : 0 < 1 / (1 + exp (- x)) < 1.
Proof.
  pose proof (exp_pos (- x)) as E. split.
  - apply Rdiv_lt_0_compat; lra.
  - apply Rmult_lt_reg_r with (1 + exp (- x)); [lra |].
    unfold Rdiv. rewrite Rmult_assoc, Rinv_l by lra. lra.
Qed.

Lemma exp_double_lower (a b y : R) :
  0 <= a -> a <= exp y -> b <= a * a -> b <= exp (2 * y).
Proof.
  intros A H B. replace (2 * y) with (y + y) by lra. rewrite exp_plus. nra.
Qed.

(** [exp 1] to four digits, by thirteen squarings of
    [1 + 1/8192 <= exp (1/8192)] and of [1 - 1/8192 <= exp (-1/8192)],
    each rounded down. *)
Lemma exp_1_bounds : 2.718 <= exp 1 <= 2.7185.
Proof.
  split.
  - assert (L0 : 1 + 1 / 8192 <= exp (1 / 8192)) by apply exp_ineq1_le.
    assert (L1 : 1.00024415552616 <= exp (1 / 4096)).
    { replace (1 / 4096) with (2 * (1 / 8192)) by lra.
      apply (exp_double_lower (1 + 1 / 8192)); [lra | exact L0 | lra]. }
    assert (L2 : 1.00048837066424 <= exp (1 / 2048)).
    { replace (1 / 2048) with (2 * (1 / 4096)) by lra.
      apply (exp_double_lower (1.00024415552616)); [lra | exact L1 | lra]. }
    assert (L3 : 1.00097697983438 <= exp (1 / 1024)).
    { replace (1 / 1024) with (2 * (1 / 2048)) by lra.
      apply (exp_double_lower (1.00048837066424)); [lra | exact L2 | lra]. }
    assert (L4 : 1.00195491415835 <= exp (1 / 512)).
    { replace (1 / 512) with (2 * (1 / 1024)) by lra.
      apply (exp_double_lower (1.00097697983438)); [lra | exact L3 | lra]. }
    assert (L5 : 1.00391365000606 <= exp (1 / 256)).
    { replace (1 / 256) with (2 * (1 / 512)) by lra.
      apply (exp_double_lower (1.00195491415835)); [lra | exact L4 | lra]. }
    assert (L6 : 1.00784261666848 <= exp (1 / 128)).
    { replace (1 / 128) with (2 * (1 / 256)) by lra.
      apply (exp_double_lower (1.00391365000606)); [lra | exact L5 | lra]. }
    assert (L7 : 1.01574673997316 <= exp (1 / 64)).
    { replace (1 / 64) with (2 * (1 / 128)) by lra.
      apply (exp_double_lower (1.00784261666848)); [lra | exact L6 | lra]. }
    assert (L8 : 1.03174143976610 <= exp (1 / 32)).
    { replace (1 / 32) with (2 * (1 / 64)) by lra.
      apply (exp_double_lower (1.01574673997316)); [lra | exact L7 | lra]. }
    assert (L9 : 1.06449039853062 <= exp (1 / 16)).
    { replace (1 / 16) with (2 * (1 / 32)) by lra.
      apply (exp_double_lower (1.03174143976610)); [lra | exact L8 | lra]. }
    assert (L10 : 1.13313980856387 <= exp (1 / 8)).
    { replace (1 / 8) with (2 * (1 / 16)) by lra.
      apply (exp_double_lower (1.06449039853062)); [lra | exact L9 | lra]. }
    assert (L11 : 1.28400582575216 <= exp (1 / 4)).
    { replace (1 / 4) with (2 * (1 / 8)) by lra.
      apply (exp_double_lower (1.13313980856387)); [lra | exact L10 | lra]. }
    assert (L12 : 1.64867096056548 <= exp (1 / 2)).
    { replace (1 / 2) with (2 * (1 / 4)) by lra.
      apply (exp_double_lower (1.28400582575216)); [lra | exact L11 | lra]. }
    assert (L13 : 2.71811593621190 <= exp (1 / 1)).
    { replace (1 / 1) with (2 * (1 / 2)) by lra.
      apply (exp_double_lower (1.64867096056548)); [lra | exact L12 | lra]. }
    replace (1 / 1) with 1 in L13 by lra. lra.
  - assert (U0 : 1 + - (1 / 8192) <= exp (- (1 / 8192))) by apply exp_ineq1_le.
    assert (U1 : 0.99975587427616 <= exp (- (1 / 4096))).
    { replace (- (1 / 4096)) with (2 * (- (1 / 8192))) by lra.
      apply (exp_double_lower (1 + - (1 / 8192))); [lra | exact U0 | lra]. }
    assert (U2 : 0.99951180814968 <= exp (- (1 / 2048))).
    { replace (- (1 / 2048)) with (2 * (- (1 / 4096))) by lra.
      apply (exp_double_lower (0.99975587427616)); [lra | exact U1 | lra]. }
    assert (U3 : 0.99902385463064 <= exp (- (1 / 1024))).
    { replace (- (1 / 1024)) with (2 * (- (1 / 2048))) by lra.
      apply (exp_double_lower (0.99951180814968)); [lra | exact U2 | lra]. }
    assert (U4 : 0.99804866212106 <= exp (- (1 / 512))).
    { replace (- (1 / 512)) with (2 * (- (1 / 1024))) by lra.
      apply (exp_double_lower (0.99902385463064)); [lra | exact U3 | lra]. }
    assert (U5 : 0.99610113196163 <= exp (- (1 / 256))).
    { replace (- (1 / 256)) with (2 * (- (1 / 512))) by lra.
      apply (exp_double_lower (0.99804866212106)); [lra | exact U4 | lra]. }
    assert (U6 : 0.99221746509524 <= exp (- (1 / 128))).
    { replace (- (1 / 128)) with (2 * (- (1 / 256))) by lra.
      apply (exp_double_lower (0.99610113196163)); [lra | exact U5 | lra]. }
    assert (U7 : 0.98449549804002 <= exp (- (1 / 64))).
    { replace (- (1 / 64)) with (2 * (- (1 / 128))) by lra.
      apply (exp_double_lower (0.99221746509524)); [lra | exact U6 | lra]. }
    assert (U8 : 0.96923138566106 <= exp (- (1 / 32))).
    { replace (- (1 / 32)) with (2 * (- (1 / 64))) by lra.
      apply (exp_double_lower (0.98449549804002)); [lra | exact U7 | lra]. }
    assert (U9 : 0.93940947895045 <= exp (- (1 / 16))).
    { replace (- (1 / 16)) with (2 * (- (1 / 32))) by lra.
      apply (exp_double_lower (0.96923138566106)); [lra | exact U8 | lra]. }
    assert (U10 : 0.88249016914195 <= exp (- (1 / 8))).
    { replace (- (1 / 8)) with (2 * (- (1 / 16))) by lra.
      apply (exp_double_lower (0.93940947895045)); [lra | exact U9 | lra]. }
    assert (U11 : 0.77878889863218 <= exp (- (1 / 4))).
    { replace (- (1 / 4)) with (2 * (- (1 / 8))) by lra.
      apply (exp_double_lower (0.88249016914195)); [lra | exact U10 | lra]. }
    assert (U12 : 0.60651214863272 <= exp (- (1 / 2))).
    { replace (- (1 / 2)) with (2 * (- (1 / 4))) by lra.
      apply (exp_double_lower (0.77878889863218)); [lra | exact U11 | lra]. }
    assert (U13 : 0.36785698643907 <= exp (- (1 / 1))).
    { replace (- (1 / 1)) with (2 * (- (1 / 2))) by lra.
      apply (exp_double_lower (0.60651214863272)); [lra | exact U12 | lra]. }
    replace (- (1 / 1)) with (- (1)) in U13 by lra.
    rewrite exp_Ropp in U13.
    pose proof (exp_pos 1) as P.
    assert (Q : exp 1 * / exp 1 = 1) by (apply Rinv_r; lra).
    nra.
Qed.

Lemma exp_nat (n : nat) : exp (INR n) = exp 1 ^ n.
Proof. rewrite <- exp_pow_nat. f_equal. lra. Qed.

Lemma binary64_max_bounds : 2.7185 ^ 709 < binary64_max < 2.718 ^ 710.
Proof.
  unfold binary64_max.
  assert (A : IZR (2 ^ 1024 - 2 ^ 971) = 2 ^ 1024 - 2 ^ 971).
  { rewrite minus_IZR, !pow_IZR. reflexivity. }
  rewrite A. split; lra.
Qed.

(** [math.exp] overflows between 709 and 710. *)
Lemma exp_709_710 : exp 709 < binary64_max < exp 710.
Proof.
  destruct exp_1_bounds as [L U]. destruct binary64_max_bounds as [A B].
  replace 709 with (INR 709) by (rewrite INR_IZR_INZ; reflexivity).
  replace 710 with (INR 710) by (rewrite INR_IZR_INZ; reflexivity).
  rewrite !exp_nat. pose proof (exp_pos 1) as P. split.
  - apply Rle_lt_trans with (2.7185 ^ 709); [| exact A].
    apply pow_incr. lra.
  - apply Rlt_le_trans with (2.718 ^ 710); [exact B |].
    apply pow_incr. lra.
Qed.

Lemma py_exp_cases (x : R) :
  (binary64_max < exp x /\ py_exp x = None)
  \/ (exp x <= binary64_max /\ py_exp x = Some (exp x)).
Proof.
  unfold py_exp. destruct (Rlt_dec binary64_max (exp x)) as [L | G].
  - left. split; [exact L |]. now rewrite (proj2 (Rltb_true _ _) L).
  - right. split; [lra |].
    now rewrite (proj2 (Rltb_false binary64_max (exp x)) ltac:(lra)).
Qed.

(** The single-logit branch of [predict]. *)
Lemma predict_single (labels : list string) (x : R) :
  (binary64_max < exp (- x) /\ predict_scores labels [x] = None)
  \/ (exp (- x) <= binary64_max
      /\ predict_scores labels [x]
         = Some [(NOT_AI_LABEL, 1 - 1 / (1 + exp (- x)));
                 ("ai_ui"%string, 1 / (1 + exp (- x)))]).
Proof.
  cbn [predict_scores].
  destruct (py_exp_cases (- x)) as [[L E] | [G E]]; rewrite E.
  - now left.
  - right. split; [exact G |].
    pose proof (exp_pos (- x)). now rewrite py_div_nonzero by lra.
Qed.

(** X20.  [predict] raises on an empty output ([ValueError] of [np.max])
    and on a single logit so far below zero that [math.exp] overflows
    ([OverflowError]): a single logit of -709 or more is safe, one of
    -710 or less raises.  When [predict] returns, the vector has every
    value in [0, 1], each key once, every key a canonical label; and for
    a single logit the two scores, [not_ai_ui] and [ai_ui], add up
    to 1. *)
Theorem predict_scores_well_formed (labels : list string) (logits : list R) :
  (predict_scores labels logits = None
   <-> logits = [] \/ exists x, logits = [x] /\ binary64_max < exp (- x))
  /\ (forall x, -709 <= x -> predict_scores labels [x] <> None)
  /\ (forall x, x <= -710 -> predict_scores labels [x] = None)
  /\ (forall scores, predict_scores labels logits = Some scores ->
        unit_scores scores
        /\ NoDup (dict_keys scores)
        /\ (forall k, In k (dict_keys scores) -> normalize_label k = k))
  /\ (forall x scores, logits = [x] -> predict_scores labels logits = Some scores ->
        dict_keys scores = [NOT_AI_LABEL; "ai_ui"%string]
        /\ dict_get scores NOT_AI_LABEL 0 + dict_get scores "ai_ui" 0 = 1).
Proof.
  split; [| split; [| split; [| split]]].
  - destruct logits as [|x [|y rest]].
    + split; [now left | reflexivity].
    + destruct (predict_single labels x) as [[L E] | [G E]]; rewrite E; split.
      * intros _. right. now exists x.
      * reflexivity.
      * discriminate.
      * intros [H | [x' [H L]]]; [discriminate H |]. inversion H; subst. lra.
    + cbn [predict_scores]. split; [discriminate |].
      intros [H | [x' [H _]]]; discriminate H.
  - intros x Hx. destruct (predict_single labels x) as [[L E] | [G E]];
      [| rewrite E; discriminate].
    exfalso. destruct exp_709_710 as [A _].
    assert (exp (- x) <= exp 709) by (apply exp_le; lra). lra.
  - intros x Hx. destruct (predict_single labels x) as [[L E] | [G E]];
      [exact E |].
    exfalso. destruct exp_709_710 as [_ B].
    assert (exp 710 <= exp (- x)) by (apply exp_le; lra). lra.
  - intros scores E. destruct logits as [|x [|y rest]].
    + discriminate E.
    + destruct (predict_single labels x) as [[_ E'] | [_ E']];
        rewrite E' in E; [discriminate E |].
      inversion E; subst scores. pose proof (sigmoid_range x) as S.
      split; [repeat constructor; cbn [snd]; lra | split].
      * cbn [dict_keys map fst]. repeat constructor; cbn [In]; try tauto.
        intros [Hk | []]. discriminate Hk.
      * intros k [<- | [<- | []]]; vm_compute; reflexivity.
    + cbn [predict_scores] in E.
      replace scores with (merge_scores labels 0 (softmax_probs x (y :: rest)) [])
        by congruence.
      destruct (softmax_probs_spec x (y :: rest)) as [P _].
      apply merge_scores_invariant.
      * apply Forall_impl with (P := fun p => 0 < p <= 1); [intros; lra | exact P].
      * constructor.
      * constructor.
      * intros k [].
  - intros x scores -> E.
    destruct (predict_single labels x) as [[_ E'] | [_ E']];
      rewrite E' in E; [discriminate E |].
    inversion E; subst scores. split; [reflexivity |].
    unfold dict_get. cbn [dict_lookup].
    rewrite String.eqb_refl.
    change (String.eqb NOT_AI_LABEL "ai_ui") with false. cbn iota.
    rewrite String.eqb_refl. lra.
Qed.

Lemma merge_scores_grows (labels : list string) (probs : list R) :
  forall (index : nat) (score_map : dict) (k : string),
    dict_get score_map k 0 <= dict_get (merge_scores labels index probs score_map) k 0.
Proof.
  induction probs as [|p rest IH]; intros index score_map k; cbn [merge_scores];
    [lra |].
  eapply Rle_trans; [| apply IH].
  destruct (string_dec (normalize_label (label_at labels index)) k) as [<- | N].
  - rewrite dict_get_set_same. py_order.
  - rewrite dict_get_set_other by exact N. lra.
Qed.

Lemma merge_scores_covers (labels : list string) (probs : list R) :
  forall (index i : nat) (score_map : dict) (p : R),
    nth_error probs i = Some p ->
    p <= dict_get (merge_scores labels index probs score_map)
                  (normalize_label (label_at labels (index + i))) 0.
Proof.
  induction probs as [|q rest IH]; intros index i score_map p H;
    [destruct i; discriminate H |].
  cbn [merge_scores]. destruct i as [|i]; cbn [nth_error] in H.
  - inversion H; subst q. rewrite Nat.add_0_r.
    eapply Rle_trans; [| apply merge_scores_grows].
    rewrite dict_get_set_same. py_order.
  - replace (index + S i)%nat with (S index + i)%nat by lia. now apply IH.
Qed.

Lemma merge_scores_origin (labels : list string) (probs : list R) :
  forall (index : nat) (score_map : dict) (k : string) (v : R),
    Forall (fun p => 0 < p) probs ->
    dict_lookup (merge_scores labels index probs score_map) k = Some v ->
    dict_lookup score_map k = Some v
    \/ exists i, nth_error probs i = Some v
                 /\ normalize_label (label_at labels (index + i)) = k.
Proof.
  induction probs as [|q rest IH]; intros index score_map k v P H; [now left |].
  inversion P as [|? ? Pq Prest]; subst. cbn [merge_scores] in H.
  destruct (IH _ _ _ _ Prest H) as [L | [i [Hi Hk]]].
  - destruct (string_dec (normalize_label (label_at labels index)) k) as [E | N].
    + rewrite E, dict_lookup_set_same in L. inversion L as [V].
      unfold dict_get in *. destruct (dict_lookup score_map k) as [old|] eqn:O.
      * destruct (py_max_cases old q) as [[_ M] | [_ M]]; rewrite M in *.
        -- right. exists 0%nat. rewrite Nat.add_0_r. now split.
        -- now left.
      * right. exists 0%nat. rewrite Nat.add_0_r. split; [| exact E].
        cbn [nth_error]. f_equal. py_order.
    + rewrite dict_lookup_set_other in L by exact N. now left.
  - right. exists (S i). split; [exact Hi |].
    now replace (index + S i)%nat with (S index + i)%nat by lia.
Qed.

(** X21.  With two logits or more, [predict] turns them into
    probabilities that add up to 1 and merges the classes that share a
    canonical label by the largest probability, not by the sum: the score
    of a label is at least the probability of every class named so, and
    it is the probability of one of them. *)
Theorem predict_scores_merge_by_max (labels : list string) (x y : R)
    (rest : list R) :
  let probs := softmax_probs x (y :: rest) in
  exists scores,
    predict_scores labels (x :: y :: rest) = Some scores
    /\ r_sum probs = 1
    /\ List.length probs = List.length (x :: y :: rest)
    /\ (forall index p, nth_error probs index = Some p ->
          p <= dict_get scores (normalize_label (label_at labels index)) 0)
    /\ (forall k v, dict_lookup scores k = Some v ->
          exists index, nth_error probs index = Some v
                        /\ normalize_label (label_at labels index) = k).
Proof.
  intros probs.
  destruct (softmax_probs_spec x (y :: rest)) as [P [S1 L]]. fold probs in P, S1, L.
  exists (merge_scores labels 0 probs []).
  split; [reflexivity | split; [exact S1 | split; [exact L | split]]].
  - intros index p H.
    apply (merge_scores_covers labels probs 0 index [] p H).
  - intros k v H.
    destruct (merge_scores_origin labels probs 0 [] k v) as [N | [i [Hi Hk]]];
      [| exact H | discriminate N | now exists i].
    apply Forall_impl with (P := fun p => 0 < p <= 1); [intros; lra | exact P].
Qed.

(** ** [append_labels_csv] *)

Lemma string_leb_trans (a b c : string) :
  String.leb a b = true -> String.leb b c = true -> String.leb a c = true.
Proof.
  revert b c; induction a as [|ca a IH]; intros [|cb b] [|cc c];
    unfold String.leb; cbn [String.compare]; try easy.
  unfold Ascii.compare.
  destruct (N.compare_spec (N_of_ascii ca) (N_of_ascii cb)) as [E1 | L1 | G1];
    destruct (N.compare_spec (N_of_ascii cb) (N_of_ascii cc)) as [E2 | L2 | G2];
    destruct (N.compare_spec (N_of_ascii ca) (N_of_ascii cc)) as [E3 | L3 | G3];
    try easy; try lia.
  apply (IH b c).
Qed.

Lemma existsb_same_path (r : LabelRow) (frame : list LabelRow) :
  existsb (same_path r) frame = false
  <-> forall r', In r' frame -> image_path r' <> image_path r.
Proof.
  induction frame as [|x frame IH]; cbn [existsb]; [now split |].
  rewrite orb_false_iff, IH. unfold same_path. rewrite String.eqb_neq. split.
  - intros [N H] r' [<- | I]; [congruence | now apply H].
  - intros H. split; [intros E; apply (H x); [now left | congruence] |].
    intros r' I. apply H. now right.
Qed.

Lemma drop_duplicates_last_In (r : LabelRow) (frame : list LabelRow) :
  In r (drop_duplicates_last frame) <-> last_with_path r frame.
Proof.
  induction frame as [|x frame IH]; cbn [drop_duplicates_last].
  - split; [intros [] | intros [b [a [E _]]]; now destruct b].
  - split.
    + intros I.
      assert (C : (x = r /\ existsb (same_path x) frame = false)
                  \/ In r (drop_duplicates_last frame)).
      { destruct (existsb (same_path x) frame) eqn:E; [now right |].
        destruct I as [<- | I]; [now left | now right]. }
      destruct C as [[<- E] | I'].
      * exists [], frame. split; [reflexivity | now apply existsb_same_path].
      * apply IH in I'. destruct I' as [b [a [E H]]].
        exists (x :: b), a. split; [now rewrite E | exact H].
    + intros [b [a [E H]]]. destruct b as [|y b]; cbn [app] in E.
      * inversion E; subst. apply existsb_same_path in H. rewrite H. now left.
      * inversion E; subst y frame.
        assert (I : In r (drop_duplicates_last (b ++ r :: a)))
          by (apply IH; now exists b, a).
        destruct (existsb (same_path x) (b ++ r :: a)); [exact I | now right].
Qed.

Lemma drop_duplicates_last_paths (frame : list LabelRow) :
  NoDup (map image_path (drop_duplicates_last frame)).
Proof.
  induction frame as [|x frame IH]; cbn [drop_duplicates_last]; [constructor |].
  destruct (existsb (same_path x) frame) eqn:E; [exact IH |].
  cbn [map]. constructor; [| exact IH].
  intros I. apply in_map_iff in I. destruct I as [r [P I]].
  apply drop_duplicates_last_In in I. destruct I as [b [a [Ef _]]].
  assert (Ir : In r frame) by (rewrite Ef; apply in_or_app; right; now left).
  pose proof (proj1 (existsb_same_path x frame) E r Ir). congruence.
Qed.

Lemma drop_duplicates_last_fixed (frame : list LabelRow) :
  NoDup (map image_path frame) -> drop_duplicates_last frame = frame.
Proof.
  induction frame as [|x frame IH]; [reflexivity |].
  cbn [map drop_duplicates_last]. intros N. inversion N as [|? ? Nx N']; subst.
  assert (E : existsb (same_path x) frame = false).
  { apply existsb_same_path. intros r' I P. apply Nx. rewrite <- P.
    now apply in_map. }
  now rewrite E, IH.
Qed.

Lemma drop_duplicates_last_app (r : LabelRow) (a b : list LabelRow) :
  In r (drop_duplicates_last (a ++ b))
  <-> In r (drop_duplicates_last b)
      \/ (In r (drop_duplicates_last a) /\ existsb (same_path r) b = false).
Proof.
  induction a as [|x a IH]; cbn [app drop_duplicates_last].
  - split; [now left | intros [H | [[] _]]; exact H].
  - rewrite existsb_app.
    destruct (existsb (same_path x) a) eqn:Ea; cbn [orb].
    + exact IH.
    + destruct (existsb (same_path x) b) eqn:Eb; cbn [In]; rewrite IH.
      * split; [tauto |].
        intros [H | [[<- | H] P]]; [tauto | congruence | tauto].
      * split.
        -- intros [<- | [H | H]]; [right; split; [now left | exact Eb] | tauto | tauto].
        -- intros [H | [[<- | H] P]]; tauto.
Qed.

Lemma insert_row_perm (r : LabelRow) (sorted : list LabelRow) :
  Permutation (insert_row r sorted) (r :: sorted).
Proof.
  induction sorted as [|x sorted IH]; cbn [insert_row]; [reflexivity |].
  destruct (String.leb (image_path r) (image_path x)); [reflexivity |].
  rewrite IH. apply perm_swap.
Qed.

Lemma sort_values_perm (frame : list LabelRow) :
  Permutation (sort_values frame) frame.
Proof.
  induction frame as [|x frame IH]; [reflexivity |].
  cbn [sort_values fold_right]. rewrite insert_row_perm. now constructor.
Qed.

Lemma insert_row_sorted (r : LabelRow) (sorted : list LabelRow) :
  Sorted path_le sorted -> Sorted path_le (insert_row r sorted).
Proof.
  induction sorted as [|x sorted IH]; intros S; cbn [insert_row].
  - repeat constructor.
  - destruct (String.leb (image_path r) (image_path x)) eqn:E.
    + constructor; [exact S | now constructor].
    + inversion S as [|? ? S' Hd]; subst.
      constructor; [now apply IH |].
      assert (X : path_le x r).
      { unfold path_le.
        destruct (String.leb_total (image_path r) (image_path x)); congruence. }
      destruct sorted as [|y sorted]; cbn [insert_row].
      * now constructor.
      * destruct (String.leb (image_path r) (image_path y));
          constructor; [exact X | now inversion Hd].
Qed.

Lemma sort_values_sorted (frame : list LabelRow) : Sorted path_le (sort_values frame).
Proof.
  induction frame as [|x frame IH]; [constructor |].
  cbn [sort_values fold_right]. now apply insert_row_sorted.
Qed.

Lemma path_le_trans (a b c : LabelRow) : path_le a b -> path_le b c -> path_le a c.
Proof. unfold path_le. apply string_leb_trans. Qed.

Lemma sorted_strongly (frame : list LabelRow) :
  Sorted path_le frame -> StronglySorted path_le frame.
Proof.
  induction frame as [|x frame IH]; intros S; [constructor |].
  inversion S as [|? ? S' Hd]; subst. specialize (IH S').
  constructor; [exact IH |].
  destruct frame as [|y frame]; [constructor |].
  inversion Hd as [|? ? Hxy]; subst.
  inversion IH as [|? ? _ Fy]; subst.
  constructor; [exact Hxy |].
  apply Forall_impl with (P := path_le y); [| exact Fy].
  intros z Hz. now apply (path_le_trans x y z).
Qed.

Lemma NoDup_paths_rows (frame : list LabelRow) :
  NoDup (map image_path frame) -> NoDup frame.
Proof. apply NoDup_map_inv. Qed.

(** Two ledgers with the same rows, each path once, both in the order of
    the paths, are the same list. *)
Lemma sorted_ledger_unique (l1 l2 : list LabelRow) :
  Permutation l1 l2 ->
  NoDup (map image_path l1) ->
  Sorted path_le l1 -> Sorted path_le l2 ->
  l1 = l2.
Proof.
  revert l2; induction l1 as [|x l1 IH]; intros l2 P N S1 S2.
  - apply Permutation_nil in P. now subst.
  - destruct l2 as [|y l2];
      [apply Permutation_sym, Permutation_nil in P; discriminate P |].
    assert (N2 : NoDup (map image_path (y :: l2)))
      by (apply (Permutation_NoDup (Permutation_map image_path P)); exact N).
    pose proof (sorted_strongly _ S1) as T1.
    pose proof (sorted_strongly _ S2) as T2.
    inversion T1 as [|? ? T1' F1]; subst.
    inversion T2 as [|? ? T2' F2]; subst.
    assert (Exy : x = y).
    { assert (Iy : In y (x :: l1))
        by (apply (Permutation_in _ (Permutation_sym P)); now left).
      assert (Ix : In x (y :: l2)) by (apply (Permutation_in _ P); now left).
      destruct Iy as [E | Iy]; [exact E |].
      destruct Ix as [E | Ix]; [now symmetry |].
      rewrite Forall_forall in F1, F2.
      pose proof (F1 y Iy) as A. pose proof (F2 x Ix) as B.
      assert (Ep : image_path x = image_path y)
        by (apply String.leb_antisym; assumption).
      exfalso. cbn [map] in N. inversion N as [|? ? Nx _]; subst.
      apply Nx. rewrite Ep. now apply in_map. }
    subst y. f_equal. apply IH.
    + now apply Permutation_cons_inv in P.
    + cbn [map] in N. now inversion N.
    + now inversion S1.
    + now inversion S2.
Qed.

Lemma ledger_spec (frame rows : list LabelRow) :
  let out := sort_values (drop_duplicates_last (frame ++ rows)) in
  NoDup (map image_path out)
  /\ Sorted path_le out
  /\ (forall r, In r out <-> In r (drop_duplicates_last (frame ++ rows))).
Proof.
  intros out. subst out.
  pose proof (sort_values_perm (drop_duplicates_last (frame ++ rows))) as P.
  split; [| split].
  - apply (Permutation_NoDup (Permutation_map image_path (Permutation_sym P))).
    apply drop_duplicates_last_paths.
  - apply sort_values_sorted.
  - intros r. split; intros I.
    + now apply (Permutation_in _ P).
    + now apply (Permutation_in _ (Permutation_sym P)).
Qed.

(** X22.  The ledger [append_labels_csv] writes holds every path once,
    in the order of the paths, and the last row given for a path wins:
    a row is in the ledger exactly when it is the last row with its path
    among the old rows followed by the new ones.  With no new row the
    function writes nothing. *)
Theorem append_labels_csv_ledger (existing : option (list LabelRow))
    (rows : list LabelRow) :
  rows <> [] ->
  exists ledger,
    append_labels_csv existing rows = Some ledger
    /\ NoDup (map image_path ledger)
    /\ Sorted path_le ledger
    /\ (forall r, In r ledger
                  <-> last_with_path r
                        (match existing with Some f => f | None => [] end ++ rows))
    /\ append_labels_csv existing [] = None.
Proof.
  intros H. destruct rows as [|r0 rows]; [now elim H |].
  cbn [append_labels_csv]. eexists. split; [reflexivity |].
  destruct (ledger_spec (match existing with Some f => f | None => [] end)
                        (r0 :: rows)) as [N [S I]].
  split; [exact N | split; [exact S | split; [| reflexivity]]].
  intros r. rewrite I. apply drop_duplicates_last_In.
Qed.

Lemma append_labels_csv_ledger_witness :
  exists ledger,
    append_labels_csv (Some [mkLabelRow "raw/b.jpg" "not_ai_ui" "manual" ""])
                      [mkLabelRow "raw/a.jpg" "ai_ui" "realtime_text_ocr" ""]
    = Some ledger
    /\ NoDup (map image_path ledger)
    /\ Sorted path_le ledger
    /\ (forall r, In r ledger
                  <-> last_with_path r
                        ([mkLabelRow "raw/b.jpg" "not_ai_ui" "manual" ""]
                           ++ [mkLabelRow "raw/a.jpg" "ai_ui" "realtime_text_ocr" ""]))
    /\ append_labels_csv (Some [mkLabelRow "raw/b.jpg" "not_ai_ui" "manual" ""]) []
       = None.
Proof.
  apply (append_labels_csv_ledger
           (Some [mkLabelRow "raw/b.jpg" "not_ai_ui" "manual" ""])
           [mkLabelRow "raw/a.jpg" "ai_ui" "realtime_text_ocr" ""]).
  discriminate.
Defined.

Lemma last_row_exists (path : string) (frame : list LabelRow) :
  (exists r, In r frame /\ image_path r = path) ->
  exists r', In r' (drop_duplicates_last frame) /\ image_path r' = path.
Proof.
  induction frame as [|x frame IH]; intros [r [I P]]; [destruct I |].
  cbn [drop_duplicates_last].
  destruct (existsb (same_path x) frame) eqn:E.
  - apply IH. destruct I as [<- | I]; [| now exists r].
    apply existsb_exists in E. destruct E as [y [Iy Py]].
    unfold same_path in Py. apply String.eqb_eq in Py.
    exists y. split; [exact Iy | congruence].
  - destruct I as [<- | I].
    + exists x. split; [now left | exact P].
    + destruct IH as [r' [I' P']]; [now exists r |].
      exists r'. split; [now right | exact P'].
Qed.

Lemma same_path_row (frame : list LabelRow) (r r' : LabelRow) :
  NoDup (map image_path frame) ->
  In r frame -> In r' frame -> image_path r = image_path r' -> r = r'.
Proof.
  induction frame as [|x frame IH]; intros N I I' P; [destruct I |].
  cbn [map] in N. inversion N as [|? ? Nx N']; subst.
  destruct I as [<- | I], I' as [<- | I'].
  - reflexivity.
  - exfalso. apply Nx. rewrite P. now apply in_map.
  - exfalso. apply Nx. rewrite <- P. now apply in_map.
  - now apply IH.
Qed.

Lemma drop_duplicates_last_sub (r : LabelRow) (frame : list LabelRow) :
  In r (drop_duplicates_last frame) -> In r frame.
Proof.
  intros I. apply drop_duplicates_last_In in I. destruct I as [b [a [-> _]]].
  apply in_or_app. right. now left.
Qed.

(** X23.  One call on a table that is in order already: if the table
    read has every path once, in the order of the paths, and holds each
    of the new rows, the table written is the table read.  (Whether the
    file read back gives the table that was written is a matter of the
    CSV format, which is not modelled.) *)
Theorem append_labels_csv_fixed_point (frame rows : list LabelRow) :
  rows <> [] ->
  NoDup (map image_path frame) ->
  Sorted path_le frame ->
  (forall r, In r rows -> In r frame) ->
  append_labels_csv (Some frame) rows = Some frame.
Proof.
  intros Hr N S Sub. destruct rows as [|r0 rows]; [now elim Hr |].
  cbn [append_labels_csv].
  generalize dependent (r0 :: rows). clear r0 rows. intros rows _ Sub.
  destruct (ledger_spec frame rows) as [N2 [S2 I2]].
  f_equal. apply sorted_ledger_unique; [| exact N2 | exact S2 | exact S].
  apply NoDup_Permutation.
  - now apply NoDup_paths_rows.
  - now apply NoDup_paths_rows.
  - intros r. rewrite I2, drop_duplicates_last_app.
    rewrite (drop_duplicates_last_fixed frame N). split.
    + intros [I | [I _]]; [| exact I].
      apply Sub. now apply drop_duplicates_last_sub.
    + intros I. destruct (existsb (same_path r) rows) eqn:E; [| now right].
      left. apply existsb_exists in E. destruct E as [y [Iy Py]].
      unfold same_path in Py. apply String.eqb_eq in Py.
      destruct (last_row_exists (image_path r) rows) as [r' [I' P']];
        [exists y; split; [exact Iy | now symmetry] |].
      assert (r' = r); [| now subst].
      apply (same_path_row frame); [exact N | | exact I | exact P'].
      apply Sub. now apply drop_duplicates_last_sub.
Qed.

Lemma append_labels_csv_fixed_point_witness :
  append_labels_csv
    (Some [mkLabelRow "raw/a.jpg" "ai_ui" "realtime_text_ocr" "";
           mkLabelRow "raw/b.jpg" "not_ai_ui" "manual" ""])
    [mkLabelRow "raw/b.jpg" "not_ai_ui" "manual" "";
     mkLabelRow "raw/a.jpg" "ai_ui" "realtime_text_ocr" "";
     mkLabelRow "raw/b.jpg" "not_ai_ui" "manual" ""]
  = Some [mkLabelRow "raw/a.jpg" "ai_ui" "realtime_text_ocr" "";
          mkLabelRow "raw/b.jpg" "not_ai_ui" "manual" ""].
Proof.
  apply (append_labels_csv_fixed_point
           [mkLabelRow "raw/a.jpg" "ai_ui" "realtime_text_ocr" "";
            mkLabelRow "raw/b.jpg" "not_ai_ui" "manual" ""]
           [mkLabelRow "raw/b.jpg" "not_ai_ui" "manual" "";
            mkLabelRow "raw/a.jpg" "ai_ui" "realtime_text_ocr" "";
            mkLabelRow "raw/b.jpg" "not_ai_ui" "manual" ""]).
  - discriminate.
  - cbn [map image_path]. repeat constructor; cbn [In]; try tauto.
    intros [H | []]. discriminate H.
  - repeat constructor.
  - cbn [In]. intros r [<- | [<- | [<- | []]]]; tauto.
Defined.

(** X24.  The table written does not depend on how [sort_values] sorts:
    whatever function returns its argument rearranged in the order of
    the paths, applied to the rows kept, gives the table of the model,
    which sorts by insertion.  (The rows kept have different paths, so
    the order of the paths leaves no choice.) *)
Theorem append_labels_csv_any_sort
    (sort : list LabelRow -> list LabelRow)
    (existing : option (list LabelRow)) (rows ledger : list LabelRow) :
  (forall frame, Permutation (sort frame) frame /\ Sorted path_le (sort frame)) ->
  append_labels_csv existing rows = Some ledger ->
  sort (drop_duplicates_last
          (match existing with Some f => f | None => [] end ++ rows))
  = ledger.
Proof.
  intros Hsort. destruct rows as [|r0 rows]; [discriminate |].
  cbn [append_labels_csv].
  generalize (match existing with Some f => f | None => [] end ++ r0 :: rows).
  intros table E.
  assert (El : ledger = sort_values (drop_duplicates_last table)) by congruence.
  subst ledger. destruct (Hsort (drop_duplicates_last table)) as [P S].
  apply sorted_ledger_unique.
  - rewrite P. apply Permutation_sym, sort_values_perm.
  - apply (Permutation_NoDup (Permutation_map image_path (Permutation_sym P))).
    apply drop_duplicates_last_paths.
  - exact S.
  - apply sort_values_sorted.
Qed.

Lemma append_labels_csv_any_sort_witness :
  (fun frame => sort_values (rev frame))
    (drop_duplicates_last
       ([mkLabelRow "raw/b.jpg" "not_ai_ui" "manual" "";
         mkLabelRow "raw/a.jpg" "not_ai_ui" "manual" ""]
          ++ [mkLabelRow "raw/a.jpg" "ai_ui" "realtime_text_ocr" ""]))
  = [mkLabelRow "raw/a.jpg" "ai_ui" "realtime_text_ocr" "";
     mkLabelRow "raw/b.jpg" "not_ai_ui" "manual" ""].
Proof.
  apply (append_labels_csv_any_sort (fun frame => sort_values (rev frame))
           (Some [mkLabelRow "raw/b.jpg" "not_ai_ui" "manual" "";
                  mkLabelRow "raw/a.jpg" "not_ai_ui" "manual" ""])
           [mkLabelRow "raw/a.jpg" "ai_ui" "realtime_text_ocr" ""]).
  - intros frame. split; [| apply sort_values_sorted].
    rewrite sort_values_perm. apply Permutation_sym, Permutation_rev.
  - reflexivity.
Defined.
